(** * The durability engine of the object store: audit verifier, segment
      repairer and commit validation, embedded from the Go sources.

    Layout: the first half holds the model (machine integers, Go errors,
    the protobuf records, then one module per source file); the second half
    holds the statements about it, one module per component. *)

From Stdlib Require Import ZArith Lia Strings.Byte Strings.Ascii DecimalString.
From stdpp Require Import base option list gmap strings.

Local Open Scope Z_scope.

(** ** Machine integers

    Go's [int32(x)] and [int64(x)] conversions keep the low bits and
    reinterpret them in two's complement. *)

Definition int32 (z : Z) : Z := (z + 2 ^ 31) mod 2 ^ 32 - 2 ^ 31.
Definition int64 (z : Z) : Z := (z + 2 ^ 63) mod 2 ^ 64 - 2 ^ 63.

(** [len] of a slice, as a Go [int]. *)
Definition len {A} (l : list A) : Z := Z.of_nat (length l).

(** [%d] and [%v] of an integer. *)
Definition fmt_d (z : Z) : string := NilZero.string_of_int (Z.to_int z).

(** ** Go errors, with the classes of [zeebo/errs]

    [classError c e] is an error of class [c] around the cause [e];
    [c.New(msg)] builds one around a plain error and [c.Wrap(e)] builds one
    around [e], unless [e] is itself an error of class [c], which it
    returns as it is; [c.Has] walks the chain of wrapped causes.
    [DeadlineExceeded] is the sentinel [context.DeadlineExceeded], which the
    sources compare with [==]. *)

Inductive errclass :=
  | TransportError          (* transport.Error *)
  | ContainError            (* audit.ContainError *)
  | ErrContainedNotFound    (* audit.ErrContainedNotFound *)
  | ErrNodeOffline          (* overlay.ErrNodeOffline *)
  | ErrNotEnoughShares      (* audit.ErrNotEnoughShares *)
  | AuditError              (* audit.Error *)
  | SegmentError            (* segments.Error *)
  | MetainfoError           (* metainfo.Error *)
  | OtherClass (name : string).

Inductive goerror :=
  | DeadlineExceeded
  | errorString (msg : string)
  | classError (c : errclass) (cause : goerror)
  | combinedError (first second : goerror).

#[global] Instance errclass_eq_dec : EqDecision errclass.
Proof. solve_decision. Defined.
#[global] Instance goerror_eq_dec : EqDecision goerror.
Proof. solve_decision. Defined.

(** [c.Has(err)] *)
Fixpoint Has (c : errclass) (e : goerror) : bool :=
  match e with
  | classError c' cause => bool_decide (c = c') || Has c cause
  | _ => false
  end.

(** [err.Error()], the text of an error: a class puts its name and a
    colon before the text of the cause. The names of the classes are
    declared elsewhere in their packages, so [className] is a parameter. *)
Fixpoint errorText (className : errclass → string) (e : goerror) : string :=
  match e with
  | DeadlineExceeded => "context deadline exceeded"
  | errorString msg => msg
  | classError c cause => className c +:+ ": " +:+ errorText className cause
  | combinedError e1 e2 => errorText className e1 +:+ "; " +:+ errorText className e2
  end.

Definition New (c : errclass) (msg : string) : goerror :=
  classError c (errorString msg).
Definition Wrap (c : errclass) (e : goerror) : goerror :=
  match e with
  | classError c' _ => if decide (c' = c) then e else classError c e
  | _ => classError c e
  end.

(** [errs.Combine(a, b)]: nil errors are dropped. *)
Definition Combine (a b : option goerror) : option goerror :=
  match a, b with
  | None, _ => b
  | _, None => a
  | Some e1, Some e2 => Some (combinedError e1 e2)
  end.

(** A call either returns a value, returns an error, or panics (a nil
    dereference, an index out of range, an integer division by zero). *)
Inductive res (A : Type) :=
  | Ok (a : A)
  | Err (e : goerror)
  | Panic.
Arguments Ok {A} a.
Arguments Err {A} e.
Arguments Panic {A}.

(** ** The protobuf records ([pkg/pb])

    Modelled from the spec: the generated package [pb] is missing; the
    records hold the fields of the data model (section 3), under the names
    by which the sources read them. A nil pointer or nil slice is [None];
    the generated getters ([GetRemote], [GetRedundancy], ...) answer the
    zero value on nil. *)

Definition bytes := list byte.
#[global] Instance byte_eq_dec : EqDecision byte := Byte.byte_eq_dec.

Module storj.
Definition NodeID := N.    (* 32 bytes, read as a number *)
Definition PieceID := N.   (* 32 bytes, read as a number *)
Definition Path := string.
End storj.

Module pb.

Inductive DataType := INLINE | REMOTE.
#[global] Instance DataType_eq_dec : EqDecision DataType.
Proof. solve_decision. Defined.

Record RedundancyScheme := {
  MinReq : Z;             (* int32 *)
  Total : Z;              (* int32 *)
  RepairThreshold : Z;    (* int32 *)
  SuccessThreshold : Z;   (* int32 *)
  ErasureShareSize : Z    (* int32 *)
}.

Record RemotePiece := {
  PieceNum : Z;           (* int32 *)
  NodeId : storj.NodeID;
  Hash : option bytes     (* *pb.PieceHash *)
}.

Record RemoteSegment := {
  Redundancy : option RedundancyScheme;
  RootPieceId : storj.PieceID;
  RemotePieces : option (list RemotePiece)
}.

Record Pointer := {
  Type_ : DataType;
  InlineSegment : option bytes;
  Remote : option RemoteSegment;
  SegmentSize : Z;        (* int64 *)
  ExpirationDate : Z;
  Metadata : bytes
}.

Record OrderLimit := {
  StorageNodeId : storj.NodeID;
  PieceId : storj.PieceID;
  LimitBytes : Z
}.

Record AddressedOrderLimit := {
  Limit : OrderLimit;
  StorageNodeAddress : string
}.

Record Node := {
  Id : storj.NodeID;
  Address : string
}.

#[global] Instance RemotePiece_eq_dec : EqDecision RemotePiece.
Proof. solve_decision. Defined.

Definition GetRemote (p : Pointer) : option RemoteSegment := Remote p.
Definition GetRedundancy (r : option RemoteSegment) : option RedundancyScheme :=
  r ≫= Redundancy.
Definition GetRemotePieces (r : option RemoteSegment) : list RemotePiece :=
  default [] (r ≫= RemotePieces).
Definition GetMinReq (r : option RedundancyScheme) : Z := from_option MinReq 0 r.
Definition GetTotal (r : option RedundancyScheme) : Z := from_option Total 0 r.
Definition GetErasureShareSize (r : option RedundancyScheme) : Z :=
  from_option ErasureShareSize 0 r.

(** A slice grown by [append] from a nil one is nil as long as nothing was
    appended. *)
Definition appended {A} (l : list A) : option (list A) :=
  match l with
  | [] => None
  | _ => Some l
  end.

(** [pointer.GetRemote().RemotePieces = pieces], for a slice grown by
    [append]. *)
Definition setRemotePieces (p : Pointer) (r : RemoteSegment)
    (pieces : list RemotePiece) : Pointer :=
  {| Type_ := Type_ p; InlineSegment := InlineSegment p;
     Remote := Some {| Redundancy := Redundancy r; RootPieceId := RootPieceId r;
                       RemotePieces := appended pieces |};
     SegmentSize := SegmentSize p; ExpirationDate := ExpirationDate p;
     Metadata := Metadata p |}.

End pb.
Import pb.

(** ** Monitoring meters: [mon.Meter(name).Mark(n)] adds [n] to a counter. *)

Definition meter (name : string) (m : gmap string Z) : Z := default 0 (m !! name).
Definition Mark (name : string) (n : Z) (m : gmap string Z) : gmap string Z :=
  <[name := meter name m + n]> m.

(** Sequencing of calls that may return an error or panic. *)
Definition res_bind {A B} (r : res A) (k : A → res B) : res B :=
  match r with
  | Ok a => k a
  | Err e => Err e
  | Panic => Panic
  end.

(** ** The segment repairer (package [segments], [Repairer]) *)

Module Repairer.

(** [eestream.RedundancyStrategy], as far as [Repair] reads it. *)
Record RedundancyStrategy := {
  RequiredCount : Z;
  TotalCount : Z;
  RepairThresholdCount : Z;
  OptimalThresholdCount : Z
}.

Record FindStorageNodesRequest := {
  RequestedCount : Z;
  FreeBandwidth : Z;
  FreeDisk : Z;
  ExcludedNodes : list storj.NodeID
}.

(** The collaborators of the repairer: the overlay cache, the orders
    service, the erasure-coding client and the helpers of [eestream] and
    [storj]. Each field answers what the call returns; a returned error is
    [Err]. The readers are kept as the bytes they deliver. *)
Record Services := {
  className : errclass → string;
  NewRedundancyStrategyFromProto : option RedundancyScheme → res RedundancyStrategy;
  CalcPieceSize : Z → RedundancyStrategy → Z;
  GetMissingPieces : list RemotePiece → res (list Z);
  SplitPath : storj.Path → list string;
  JoinPaths : list string → string;
  CreateGetRepairOrderLimits :
    string → Pointer → list RemotePiece → res (list (option AddressedOrderLimit));
  FindStorageNodes : FindStorageNodesRequest → res (list Node);
  CreatePutRepairOrderLimits :
    string → Pointer → list (option AddressedOrderLimit) → list Node →
    res (list (option AddressedOrderLimit));
  ecGet : list (option AddressedOrderLimit) → RedundancyStrategy → Z → res Z;
  rrRange : Z → Z → Z → res bytes;
  rClose : bytes → option goerror;
  ecRepair :
    list (option AddressedOrderLimit) → RedundancyStrategy → bytes → Z → storj.Path →
    res (list (option Node) * list (option bytes));
  metainfoPutError : storj.Path → Pointer → option goerror
}.

(** What [Repair] acts on: the monitoring meters and the pointers kept by
    the metainfo service, keyed by path. *)
Record State := {
  meters : gmap string Z;
  pointers : gmap storj.Path Pointer
}.

Definition mark (name : string) (st : State) : State :=
  {| meters := Mark name 1 (meters st); pointers := pointers st |}.

(** Modelled from the spec: [metainfo.Service] is missing; the spec has
    the pointer store as a key-value map (section 1). [Get] answers the
    pointer at [path], or the store's key-not-found error. *)
Definition metainfoGet (st : State) (path : storj.Path) : res Pointer :=
  match pointers st !! path with
  | Some p => Ok p
  | None => Err (New (OtherClass "key not found") path)
  end.

(** Modelled from the spec: [Put] of the same service may fail; when it
    does not, the pointer replaces the one at [path]. *)
Definition metainfoPut (sv : Services) (path : storj.Path) (p : Pointer) (st : State)
    : option goerror * State :=
  match metainfoPutError sv path p with
  | Some e => (Some e, st)
  | None => (None, {| meters := meters st; pointers := <[path := p]> (pointers st) |})
  end.

Definition sliceToSet (slice : list Z) : gset Z := list_to_set slice.

Definition createBucketID (sv : Services) (path : storj.Path) : res string :=
  let comps := SplitPath sv path in
  if len comps <? 3
  then Err (New SegmentError ("no bucket component in path: " +:+ path))
  else Ok (JoinPaths sv [default "" (comps !! 0%nat); default "" (comps !! 2%nat)]).

(** The loop over [pieces]: every node is excluded from the selection of
    new nodes, and the pieces that are not lost are the healthy ones. *)
Definition excludedOf (pieces : list RemotePiece) : list storj.NodeID := NodeId <$> pieces.
Definition healthyOf (lost : gset Z) (pieces : list RemotePiece) : list RemotePiece :=
  filter (λ piece, PieceNum piece ∉ lost) pieces.

(** The loop over [successfulNodes], from index [i]: a non-nil node adds
    its piece; [hashes[i]] out of range panics ([None]). *)
Fixpoint appendUploaded (i : nat) (successfulNodes : list (option Node))
    (hashes : list (option bytes)) (healthyPieces : list RemotePiece)
    : option (list RemotePiece) :=
  match successfulNodes with
  | [] => Some healthyPieces
  | None :: rest => appendUploaded (S i) rest hashes healthyPieces
  | Some node :: rest =>
      match hashes !! i with
      | None => None
      | Some h =>
          appendUploaded (S i) rest hashes
            (healthyPieces ++
             [{| PieceNum := int32 (Z.of_nat i); NodeId := Id node; Hash := h |}])
      end
  end.

(** The [switch] on the number of pieces after the repair. *)
Definition markOutcome (length : Z) (rs : RedundancyScheme) (st : State) : State :=
  if length <=? RepairThreshold rs then mark "repair_failed" st
  else if length <? SuccessThreshold rs then mark "repair_partial" st
  else mark "repair_success" st.

(** [Repair] from the point where the deferred [r.Close()] is installed:
    whatever is returned from here on is combined with the error of the
    close. *)
Definition uploadAndStore (sv : Services) (path : storj.Path) (pointer : Pointer)
    (remote : RemoteSegment) (rs : RedundancyScheme) (redundancy : RedundancyStrategy)
    (putLimits : list (option AddressedOrderLimit)) (r : bytes)
    (healthyPieces : list RemotePiece) (st : State) : res unit * State :=
  let closed (err : option goerror) (st' : State) : res unit * State :=
    match Combine err (rClose sv r) with
    | None => (Ok (), st')
    | Some e => (Err e, st')
    end in
  match ecRepair sv putLimits redundancy r (ExpirationDate pointer) path with
  | Panic => (Panic, st)
  | Err e => closed (Some (Wrap SegmentError e)) st
  | Ok (successfulNodes, hashes) =>
      match appendUploaded 0 successfulNodes hashes healthyPieces with
      | None => (Panic, st)
      | Some healthyPieces' =>
          let pointer' := setRemotePieces pointer remote healthyPieces' in
          let st1 := markOutcome (int32 (len healthyPieces')) rs st in
          let '(err, st2) := metainfoPut sv path pointer' st1 in
          closed err st2
      end
  end.

(** [Repair] after the two threshold checks. *)
Definition repairSegment (sv : Services) (path : storj.Path) (pointer : Pointer)
    (remote : RemoteSegment) (rs : RedundancyScheme) (redundancy : RedundancyStrategy)
    (pieceSize : Z) (pieces : list RemotePiece) (missingPieces : list Z)
    (st : State) : res unit * State :=
  let lostPiecesSet := sliceToSet missingPieces in
  let excludeNodeIDs := excludedOf pieces in
  let healthyPieces := healthyOf lostPiecesSet pieces in
  match createBucketID sv path with
  | Panic => (Panic, st)
  | Err e => (Err (Wrap SegmentError e), st)
  | Ok bucketID =>
  match CreateGetRepairOrderLimits sv bucketID pointer healthyPieces with
  | Panic => (Panic, st)
  | Err e => (Err (Wrap SegmentError e), st)
  | Ok getOrderLimits =>
  let request :=
    {| RequestedCount := TotalCount redundancy - len healthyPieces;
       FreeBandwidth := pieceSize; FreeDisk := pieceSize;
       ExcludedNodes := excludeNodeIDs |} in
  match FindStorageNodes sv request with
  | Panic => (Panic, st)
  | Err e => (Err (Wrap SegmentError e), st)
  | Ok newNodes =>
  match CreatePutRepairOrderLimits sv bucketID pointer getOrderLimits newNodes with
  | Panic => (Panic, st)
  | Err e => (Err (Wrap SegmentError e), st)
  | Ok putLimits =>
  match ecGet sv getOrderLimits redundancy (SegmentSize pointer) with
  | Panic => (Panic, st)
  | Err e => (Err (Wrap SegmentError e), st)
  | Ok rr =>
  match rrRange sv rr 0 rr with
  | Panic => (Panic, st)
  | Err e => (Err (Wrap SegmentError e), st)
  | Ok r =>
      uploadAndStore sv path pointer remote rs redundancy putLimits r healthyPieces st
  end end end end end end.

Definition irreparable (path : storj.Path) : goerror :=
  New SegmentError ("piece " +:+ path +:+ " cannot be repaired").

Definition unnecessary (path : storj.Path) (numHealthy threshold : Z) : goerror :=
  New SegmentError
    ("piece " +:+ path +:+ " with " +:+ fmt_d numHealthy +:+
     " pieces above repair threshold " +:+ fmt_d threshold).

(** [Repair]: reads the pointer, asks the overlay for the missing pieces,
    checks the healthy count against the thresholds and then repairs.
    [pointer.Remote.Redundancy] is read without the getters, so a nil
    [Remote] or [Redundancy] panics there. The values handed to
    [mon.IntVal] and [mon.FloatVal] (segment size, healthy ratios) are
    observed only: nothing [Repair] returns or stores depends on them, and
    they are left out. *)
Definition Repair (sv : Services) (path : storj.Path) (st : State) : res unit * State :=
  match metainfoGet st path with
  | Panic => (Panic, st)
  | Err e => (Err (Wrap SegmentError e), st)
  | Ok pointer =>
  if bool_decide (Type_ pointer ≠ REMOTE)
  then (Err (New SegmentError ("cannot repair inline segment " +:+ path)), st)
  else
  let st := mark "repair_attempts" st in
  match NewRedundancyStrategyFromProto sv (GetRedundancy (GetRemote pointer)) with
  | Panic => (Panic, st)
  | Err e => (Err (Wrap SegmentError e), st)
  | Ok redundancy =>
  let pieceSize := CalcPieceSize sv (SegmentSize pointer) redundancy in
  let pieces := GetRemotePieces (GetRemote pointer) in
  match GetMissingPieces sv pieces with
  | Panic => (Panic, st)
  | Err e =>
      (Err (New SegmentError
              ("error getting missing pieces " +:+ errorText (className sv) e)), st)
  | Ok missingPieces =>
  let numHealthy := len pieces - len missingPieces in
  match Remote pointer ≫= (λ remote, pair remote <$> Redundancy remote) with
  | None => (Panic, st)
  | Some (remote, rs) =>
      if int32 numHealthy <? MinReq rs
      then (Err (irreparable path), mark "repair_nodes_unavailable" st)
      else if int32 numHealthy >? RepairThreshold rs
      then (Err (unnecessary path numHealthy (RepairThreshold rs)),
            mark "repair_unnecessary" st)
      else repairSegment sv path pointer remote rs redundancy pieceSize pieces
             missingPieces st
  end end end end.

(** The state a completed repair leaves: the outcome meter marked and the
    pointer at [path] replaced. *)
Definition repaired (path : storj.Path) (pointer : Pointer) (remote : RemoteSegment)
    (rs : RedundancyScheme) (pieces' : list RemotePiece) (st : State) : State :=
  {| meters := meters (markOutcome (int32 (len pieces')) rs st);
     pointers := <[path := setRemotePieces pointer remote pieces']> (pointers st) |}.

End Repairer.

(** ** The audit verifier (package [audit], [Verifier]) *)

(** Shares as the erasure-coding library [infectious] has them. *)
Module infectious.
Record Share := {
  Number : Z;
  Data : bytes
}.
End infectious.

Module audit.

(** [Share]: what was downloaded from one node, or the error of trying. *)
Record Share := {
  Error : option goerror;
  PieceNum : Z;
  Data : bytes
}.

(** Modelled from the spec: [PendingAudit], [Stripe] and [Report] are
    declared in files of the package that are missing; the records hold
    the fields of sections 3 and 4.3, under the names by which the verifier
    reads and writes them. *)
Record PendingAudit := {
  NodeID : storj.NodeID;
  PieceID : storj.PieceID;
  StripeIndex : Z;          (* int64 *)
  ShareSize : Z;            (* int32 *)
  ExpectedShareHash : bytes
}.

Record Stripe := {
  Segment : Pointer;
  SegmentPath : storj.Path;
  Index : Z                 (* int64 *)
}.

(** [Report]: [PendingAudits] is a slice of pointers, so an entry may be nil. *)
Record Report := {
  Successes : list storj.NodeID;
  Fails : list storj.NodeID;
  Offlines : list storj.NodeID;
  PendingAudits : list (option PendingAudit)
}.

Definition emptyReport : Report :=
  {| Successes := []; Fails := []; Offlines := []; PendingAudits := [] |}.

(** The collaborators of the verifier. [FEC] stands for [*infectious.FEC];
    [Correct] answers the slice as the library leaves it after correcting
    it in place, [Rebuild] the shares it hands to its callback.
    [dialNode] is [transport.DialNode]; [readShare] is the piece-store
    download of [size] bytes at [offset] ([Download], [io.ReadFull] and the
    deferred [Close]), whichever of them fails first giving the error. *)
Record Services := {
  FEC : Type;
  SplitPath : storj.Path → list string;
  JoinPaths : list string → string;
  CreateAuditOrderLimits :
    string → Pointer → gset storj.NodeID → res (list (option AddressedOrderLimit));
  CreateAuditOrderLimit :
    string → storj.NodeID → storj.PieceID → Z → goerror + AddressedOrderLimit;
  dialNode : Node → option goerror;
  readShare : OrderLimit → Z → Z → goerror + bytes;
  containmentGet : storj.NodeID → goerror + PendingAudit;
  NewFEC : Z → Z → res FEC;
  Required : FEC → Z;
  Correct : FEC → list infectious.Share → res (list infectious.Share);
  Rebuild : FEC → list infectious.Share → res (list infectious.Share);
  EncodeSingle : FEC → bytes → Z → Z → res bytes;
  SHA256Hash : bytes → bytes
}.

(** The result of a call that returns [(report, err)]. *)
Inductive outcome :=
  | Returned (report : option Report) (err : option goerror)
  | Panicked.

Section Verifier.
Context (sv : Services).

(** The audit's [createBucketID]: project and bucket, or nil. *)
Definition createBucketID (path : storj.Path) : string :=
  let comps := SplitPath sv path in
  if len comps <? 3 then ""
  else JoinPaths sv [default "" (comps !! 0%nat); default "" (comps !! 2%nat)].

(** [GetShare]: dial the node of the limit, then read [shareSize] bytes at
    offset [shareSize * stripeIndex]. The time allotted to the transfer
    shows here only through the errors it causes. The share size is
    positive, as [validateRedundancy] has it when a segment is created
    (the buffer could not be allocated for a negative one). *)
Definition GetShare (limit : AddressedOrderLimit) (stripeIndex shareSize pieceNum : Z)
    : goerror + Share :=
  let storageNodeID := StorageNodeId (Limit limit) in
  match dialNode sv {| Id := storageNodeID; Address := StorageNodeAddress limit |} with
  | Some e => inl e
  | None =>
      let offset := int64 (shareSize * stripeIndex) in
      match readShare sv (Limit limit) offset shareSize with
      | inl e => inl e
      | inr buf => inr {| Error := None; PieceNum := pieceNum; Data := buf |}
      end
  end.

(** [DownloadShares]: the loop over the limits, from index [i]. *)
Fixpoint downloadFrom (i : Z) (limits : list (option AddressedOrderLimit))
    (stripeIndex shareSize : Z) (shares : gmap Z Share) (nodes : gmap Z storj.NodeID)
    : gmap Z Share * gmap Z storj.NodeID :=
  match limits with
  | [] => (shares, nodes)
  | None :: rest => downloadFrom (i + 1) rest stripeIndex shareSize shares nodes
  | Some limit :: rest =>
      let share :=
        match GetShare limit stripeIndex shareSize i with
        | inl err => {| Error := Some err; PieceNum := i; Data := [] |}
        | inr share => share
        end in
      downloadFrom (i + 1) rest stripeIndex shareSize
        (<[PieceNum share := share]> shares)
        (<[PieceNum share := StorageNodeId (Limit limit)]> nodes)
  end.

Definition DownloadShares (limits : list (option AddressedOrderLimit))
    (stripeIndex shareSize : Z) : gmap Z Share * gmap Z storj.NodeID :=
  downloadFrom 0 limits stripeIndex shareSize ∅ ∅.

(** [nodes[pieceNum]]: the zero node ID when the key is absent. *)
Definition nodeAt (nodes : gmap Z storj.NodeID) (pieceNum : Z) : storj.NodeID :=
  default 0%N (nodes !! pieceNum).

(** The condition under which [Verify] contains a node. *)
Definition containable (e : goerror) : bool :=
  bool_decide (e = DeadlineExceeded) || negb (Has TransportError e) || Has ContainError e.

(** One turn of the loop of [Verify] over the downloaded shares. *)
Definition classifyShare (nodes : gmap Z storj.NodeID)
    (acc : list storj.NodeID * gmap Z storj.NodeID * gmap Z Share)
    (entry : Z * Share) : list storj.NodeID * gmap Z storj.NodeID * gmap Z Share :=
  let '(offlineNodes, containedNodes, sharesToAudit) := acc in
  let '(pieceNum, share) := entry in
  match Error share with
  | Some e =>
      if containable e
      then (offlineNodes, <[pieceNum := nodeAt nodes pieceNum]> containedNodes, sharesToAudit)
      else (offlineNodes ++ [nodeAt nodes pieceNum], containedNodes, sharesToAudit)
  | None => (offlineNodes, containedNodes, <[pieceNum := share]> sharesToAudit)
  end.

(** The whole loop. Go leaves the order in which a map is ranged over
    open; the lists below come out in the order of [map_to_list]. *)
Definition classifyShares (shares : gmap Z Share) (nodes : gmap Z storj.NodeID)
    : list storj.NodeID * gmap Z storj.NodeID * gmap Z Share :=
  foldl (classifyShare nodes) ([], ∅, ∅) (map_to_list shares).

Definition makeCopies (originals : gmap Z Share) : list infectious.Share :=
  (λ entry : Z * Share,
     {| infectious.Number := PieceNum entry.2; infectious.Data := Data entry.2 |})
  <$> map_to_list originals.

(** [originals[n].Data]: the zero share has no data. *)
Definition dataAt (originals : gmap Z Share) (n : Z) : bytes :=
  from_option Data [] (originals !! n).

(** [auditShares]: the piece numbers of the shares the correction altered,
    and the corrected shares. *)
Definition auditShares (required total : Z) (originals : gmap Z Share)
    : res (list Z * list infectious.Share) :=
  res_bind (NewFEC sv required total) (λ f,
  let copies := makeCopies originals in
  res_bind (Correct sv f copies) (λ copies,
  let pieceNums :=
    infectious.Number <$>
      filter (λ share, dataAt originals (infectious.Number share) ≠ infectious.Data share)
        copies in
  Ok (pieceNums, copies))).

(** [getSuccessNodes]: the nodes that are neither failed, offline nor
    contained. *)
Definition getSuccessNodes (nodes : gmap Z storj.NodeID)
    (failedNodes offlineNodes : list storj.NodeID) (containedNodes : gmap Z storj.NodeID)
    : list storj.NodeID :=
  let fails : gset storj.NodeID :=
    list_to_set failedNodes ∪ list_to_set offlineNodes ∪
    list_to_set (snd <$> map_to_list containedNodes) in
  filter (λ node, node ∉ fails) (snd <$> map_to_list nodes).

(** [copy(stripe[off:], data)]: a slice bound outside the buffer panics. *)
Definition copyAt (stripe : bytes) (off : Z) (data : bytes) : option bytes :=
  if (off <? 0) || (len stripe <? off) then None
  else
    let o := Z.to_nat off in
    let n := Nat.min (length stripe - o) (length data) in
    Some (take o stripe ++ take n data ++ drop (o + n) stripe).

Definition rebuildStripe (fec : FEC sv) (corrected : list infectious.Share)
    (shareSize : Z) : res bytes :=
  let size := Required sv fec * shareSize in
  if size <? 0 then Panic
  else
    res_bind (Rebuild sv fec corrected) (λ outputs,
    foldl
      (λ (stripe : res bytes) (share : infectious.Share),
         res_bind stripe (λ stripe,
           match copyAt stripe (infectious.Number share * shareSize)
                   (infectious.Data share) with
           | Some stripe' => Ok stripe'
           | None => Panic
           end))
      (Ok (replicate (Z.to_nat size) x00)) outputs).

(** The loop of [createPendingAudits] over the contained nodes. *)
Definition pendingFor (fec : FEC sv) (stripeData : bytes) (stripe : Stripe)
    (shareSize : Z) (acc : res (list (option PendingAudit)))
    (entry : Z * storj.NodeID) : res (list (option PendingAudit)) :=
  res_bind acc (λ pendingAudits,
  if shareSize <? 0 then Panic
  else
    match EncodeSingle sv fec stripeData shareSize entry.1 with
    | Panic => Panic
    | Err e => Err (Wrap AuditError e)
    | Ok share =>
        match GetRemote (Segment stripe) with
        | None => Panic
        | Some remote =>
            Ok (pendingAudits ++
                [Some {| NodeID := entry.2; PieceID := RootPieceId remote;
                         StripeIndex := Index stripe; ShareSize := shareSize;
                         ExpectedShareHash := SHA256Hash sv share |}])
        end
    end).

(** [createPendingAudits], guard included: it returns no pending audit
    as soon as there is a contained node. *)
Definition createPendingAudits (containedNodes : gmap Z storj.NodeID)
    (correctedShares : list infectious.Share) (stripe : Stripe)
    : res (list (option PendingAudit)) :=
  if 0 <? Z.of_nat (size containedNodes) then Ok []
  else
    let redundancy := GetRedundancy (GetRemote (Segment stripe)) in
    let required := GetMinReq redundancy in
    let total := GetTotal redundancy in
    let shareSize := GetErasureShareSize redundancy in
    match NewFEC sv required total with
    | Panic => Panic
    | Err e => Err (Wrap AuditError e)
    | Ok fec =>
        match rebuildStripe fec correctedShares shareSize with
        | Panic => Panic
        | Err e => Err (Wrap AuditError e)
        | Ok stripeData =>
            foldl (pendingFor fec stripeData stripe shareSize) (Ok [])
              (map_to_list containedNodes)
        end
    end.

Definition notEnoughShares (got required : Z) : goerror :=
  New ErrNotEnoughShares ("got " +:+ fmt_d got +:+ ", required " +:+ fmt_d required).

(** [Verify] *)
Definition Verify (stripe : Stripe) (skip : gset storj.NodeID) : outcome :=
  let pointer := Segment stripe in
  let shareSize := GetErasureShareSize (GetRedundancy (GetRemote pointer)) in
  let bucketID := createBucketID (SegmentPath stripe) in
  match CreateAuditOrderLimits sv bucketID pointer skip with
  | Panic => Panicked
  | Err e => Returned None (Some e)
  | Ok orderLimits =>
  let '(shares, nodes) := DownloadShares orderLimits (Index stripe) shareSize in
  let '(offlineNodes, containedNodes, sharesToAudit) := classifyShares shares nodes in
  match Remote pointer with
  | None => Panicked
  | Some remote =>
  let required := GetMinReq (Redundancy remote) in
  let total := GetTotal (Redundancy remote) in
  let offlinesOnly :=
    {| Successes := []; Fails := []; Offlines := offlineNodes; PendingAudits := [] |} in
  if Z.of_nat (size sharesToAudit) <? required
  then Returned (Some offlinesOnly)
         (Some (notEnoughShares (Z.of_nat (size sharesToAudit)) required))
  else
  match auditShares required total sharesToAudit with
  | Panic => Panicked
  | Err e => Returned (Some offlinesOnly) (Some e)
  | Ok (pieceNums, correctedShares) =>
  let failedNodes := nodeAt nodes <$> pieceNums in
  let successNodes := getSuccessNodes nodes failedNodes offlineNodes containedNodes in
  match createPendingAudits containedNodes correctedShares stripe with
  | Panic => Panicked
  | Err e =>
      Returned
        (Some {| Successes := successNodes; Fails := failedNodes;
                 Offlines := offlineNodes; PendingAudits := [] |})
        (Some e)
  | Ok pendingAudits =>
      Returned
        (Some {| Successes := successNodes; Fails := failedNodes;
                 Offlines := offlineNodes; PendingAudits := pendingAudits |})
        None
  end end end end.

(** *** [Reverify] *)

(** The result status enum of [Reverify]. *)
Inductive status := skipped | success | offline | failed | contained | erred.

Record result := {
  nodeID : storj.NodeID;
  status_ : status;
  pendingAudit : option PendingAudit;
  err : option goerror
}.

Definition resultOf (id : storj.NodeID) (s : status) : result :=
  {| nodeID := id; status_ := s; pendingAudit := None; err := None |}.

(** What is sent on the channel for one piece: by the loop itself when the
    node has no pending audit or the lookup fails, by the goroutine
    started for the piece otherwise. *)
Definition reverifyPiece (stripe : Stripe) (piece : RemotePiece) : result :=
  match containmentGet sv (NodeId piece) with
  | inl e =>
      if Has ErrContainedNotFound e then resultOf (NodeId piece) skipped
      else {| nodeID := NodeId piece; status_ := erred; pendingAudit := None;
              err := Some e |}
  | inr pending =>
      match CreateAuditOrderLimit sv (createBucketID (SegmentPath stripe))
              (NodeID pending) (PieceID pending) (ShareSize pending) with
      | inl e =>
          if Has ErrNodeOffline e then resultOf (NodeId piece) offline
          else {| nodeID := NodeId piece; status_ := erred; pendingAudit := None;
                  err := Some e |}
      | inr limit =>
          match GetShare limit (StripeIndex pending) (ShareSize pending)
                  (pb.PieceNum piece) with
          | inl e =>
              if bool_decide (e = DeadlineExceeded) || negb (Has TransportError e)
              then resultOf (NodeId piece) contained
              else resultOf (NodeId piece) offline
          | inr share =>
              let downloadedHash := SHA256Hash sv (Data share) in
              if bool_decide (downloadedHash = ExpectedShareHash pending)
              then resultOf (NodeId piece) success
              else resultOf (NodeId piece) failed
          end
      end
  end.

(** One turn of the loop that receives from the channel. *)
Definition collectResult (acc : Report * option goerror) (r : result)
    : Report * option goerror :=
  let '(report, e) := acc in
  match status_ r with
  | success =>
      ({| Successes := Successes report ++ [nodeID r]; Fails := Fails report;
          Offlines := Offlines report; PendingAudits := PendingAudits report |}, e)
  | offline =>
      ({| Successes := Successes report; Fails := Fails report;
          Offlines := Offlines report ++ [nodeID r];
          PendingAudits := PendingAudits report |}, e)
  | failed =>
      ({| Successes := Successes report; Fails := Fails report ++ [nodeID r];
          Offlines := Offlines report; PendingAudits := PendingAudits report |}, e)
  | contained =>
      ({| Successes := Successes report; Fails := Fails report;
          Offlines := Offlines report;
          PendingAudits := PendingAudits report ++ [pendingAudit r] |}, e)
  | erred => (report, Combine e (err r))
  | skipped => (report, e)
  end.

Definition collect (received : list result) : Report * option goerror :=
  foldl collectResult (emptyReport, None) received.

(** [Reverify]: one result per piece goes through the channel. The
    goroutines finish in any order, so the results are [received] in some
    permutation of the order of the pieces; [Reverify] returns what
    [collect] builds from them. *)
Definition sent (stripe : Stripe) : list result :=
  reverifyPiece stripe <$> GetRemotePieces (GetRemote (Segment stripe)).

Definition Reverify (stripe : Stripe) (received : list result) : Report * option goerror :=
  collect received.

Definition ReverifyReturns (stripe : Stripe) (report : Report) (e : option goerror)
    : Prop :=
  ∃ received, received ≡ₚ sent stripe ∧ Reverify stripe received = (report, e).

(** The node IDs the pending audits of a report carry. *)
Definition pendingNodes (report : Report) : list storj.NodeID :=
  omap (fmap NodeID) (PendingAudits report).

(** *** Notions used to state what the verifier does *)

(** The share [DownloadShares] records for a limit at index [i]. *)
Definition shareOf (limit : AddressedOrderLimit) (stripeIndex shareSize i : Z) : Share :=
  match GetShare limit stripeIndex shareSize i with
  | inl err => {| Error := Some err; PieceNum := i; Data := [] |}
  | inr share => share
  end.

(** The limit [downloadFrom i limits] finds under piece number [k]. *)
Definition limitFor (i : Z) (limits : list (option AddressedOrderLimit)) (k : Z)
    : option AddressedOrderLimit :=
  if k <? i then None else mjoin (limits !! Z.to_nat (k - i)).

(** The three results of the loop, over a list of entries. *)
Definition classified (nodes : gmap Z storj.NodeID) (entries : list (Z * Share)) :=
  foldl (classifyShare nodes) ([], ∅, ∅) entries.

(** The nodes contacted through a slice of limits: one download is tried
    for every limit that is not nil. *)
Definition contacted (limits : list (option AddressedOrderLimit)) : list storj.NodeID :=
  (λ limit, StorageNodeId (Limit limit)) <$> omap id limits.

Definition disjoint (l k : list storj.NodeID) : Prop := ∀ id, id ∈ l → id ∈ k → False.

(** The contract of [infectious.Correct] the verifier relies on: it
    corrects the data of the shares it is given and keeps their numbers. *)
Definition CorrectKeepsNumbers : Prop :=
  ∀ f shares corrected,
    Correct sv f shares = Ok corrected →
    infectious.Number <$> corrected ⊆ infectious.Number <$> shares.

#[global] Instance status_eq_dec : EqDecision status.
Proof. solve_decision. Defined.

(** The node IDs of the results with a given status. *)
Definition withStatus (s : status) (results : list result) : list storj.NodeID :=
  nodeID <$> filter (λ r, status_ r = s) results.

End Verifier.
End audit.

(** ** The metainfo endpoint (package [metainfo], [Endpoint]) *)

Module metainfo.

Inductive code :=
  | Unauthenticated | InvalidArgument | NotFound | ResourceExhausted | Internal.

(** A gRPC status error. [status.Errorf(code, text)] is given the text of
    an error as its format and no operand; [Sprintf] stands for what the
    formatting makes of such a format. *)
Record status := {
  Code : code;
  Message : string
}.

Record SegmentCommitRequest := {
  Bucket : string;                         (* []byte *)
  Path : string;                           (* []byte *)
  Segment : Z;                             (* int64 *)
  Pointer_ : option Pointer;
  OriginalLimits : list (option OrderLimit)
}.

(** What the endpoint answers: a response, a status error, or a panic. *)
Inductive reply (A : Type) :=
  | Response (a : A)
  | Failed (s : status)
  | Panicked.
Arguments Response {A} a.
Arguments Failed {A} s.
Arguments Panicked {A}.

(** The collaborators of the endpoint. [validateAuth] answers the project
    ID of the key (as [uuid.String] prints it) or the error of the check. *)
Record Services := {
  className : errclass → string;
  Sprintf : string → string;
  JoinPaths : list string → string;
  validateAuth : string → string → goerror + string;
  VerifyOrderLimitSignature : option OrderLimit → option goerror;
  Derive : storj.PieceID → storj.NodeID → storj.PieceID;
  AddProjectStorageUsage : string → Z → Z → option goerror;
  metainfoPutError : storj.Path → Pointer → option goerror;
  metainfoGetError : storj.Path → option goerror;
  UpdatePutInlineOrder : string → Z → option goerror
}.

(** Modelled from the spec: [metainfo.Service] is missing; the spec has
    the pointer store as a key-value map (section 1), here [pointers], on
    which [Put] inserts unless it fails ([metainfoPutError]) and [Get]
    looks up unless it fails ([metainfoGetError]). [usage] lists the calls
    made to the project usage accounting: project, inline bytes, remote
    bytes. *)
Record State := {
  pointers : gmap storj.Path Pointer;
  usage : list (string * Z * Z)
}.

Section Endpoint.
Context (sv : Services).

Definition Errorf (c : code) (text : string) : status :=
  {| Code := c; Message := Sprintf sv text |}.

Definition text (e : goerror) : string := errorText (className sv) e.

(** [calculateSpaceUsed]: [None] is the panic of the integer division by
    zero. Go's [/] on integers truncates toward zero. *)
Definition calculateSpaceUsed (ptr : Pointer) : option (Z * Z) :=
  match InlineSegment ptr with
  | Some inline => Some (len inline, 0)
  | None =>
      let segmentSize := SegmentSize ptr in
      match GetRemote ptr with
      | None => Some (0, 0)
      | Some remote =>
          let minReq := GetMinReq (GetRedundancy (Some remote)) in
          if minReq =? 0 then None
          else
            let pieceSize := int64 (segmentSize ÷ minReq) in
            let pieces := GetRemotePieces (Some remote) in
            Some (0, int64 (pieceSize * len pieces))
      end
  end.

Fixpoint containsSlash (s : string) : bool :=
  match s with
  | EmptyString => false
  | String c rest => bool_decide (c = "/"%char) || containsSlash rest
  end.

Definition validateBucket (bucket : string) : option goerror :=
  if (String.length bucket =? 0)%nat
  then Some (errorString "bucket not specified")
  else if containsSlash bucket
  then Some (errorString "bucket should not contain slash")
  else None.

Definition validatePointer (pointer : option Pointer) : option goerror :=
  match pointer with
  | None => Some (New MetainfoError "no pointer specified")
  | Some pointer =>
      if bool_decide (Type_ pointer = REMOTE) then
        match Remote pointer with
        | None => Some (New MetainfoError "no remote segment specified")
        | Some remote =>
            match RemotePieces remote, Redundancy remote with
            | None, _ => Some (New MetainfoError "no remote segment pieces specified")
            | _, None => Some (New MetainfoError "no redundancy scheme specified")
            | Some _, Some _ => None
            end
        end
      else None
  end.

(** [req.OriginalLimits[piece.PieceNum]]: an index outside the slice
    panics. *)
Definition limitAt (limits : list (option OrderLimit)) (pieceNum : Z)
    : option (option OrderLimit) :=
  if pieceNum <? 0 then None else limits !! Z.to_nat pieceNum.

(** The checks [validateCommit] makes for one piece. *)
Definition validatePiece (limits : list (option OrderLimit)) (rootPieceId : storj.PieceID)
    (piece : RemotePiece) : res unit :=
  match limitAt limits (PieceNum piece) with
  | None => Panic
  | Some limit =>
      match VerifyOrderLimitSignature sv limit with
      | Some e => Err e
      | None =>
          match limit with
          | None => Err (New MetainfoError "invalid no order limit for piece")
          | Some limit =>
              let derivedPieceID := Derive sv rootPieceId (NodeId piece) in
              if bool_decide (PieceId limit = 0%N)
                 || bool_decide (PieceId limit ≠ derivedPieceID)
              then Err (New MetainfoError "invalid order limit piece id")
              else if bool_decide (NodeId piece ≠ StorageNodeId limit)
              then Err (New MetainfoError "piece NodeID != order limit NodeID")
              else Ok ()
          end
      end
  end.

Fixpoint validatePieces (limits : list (option OrderLimit)) (rootPieceId : storj.PieceID)
    (pieces : list RemotePiece) : res unit :=
  match pieces with
  | [] => Ok ()
  | piece :: rest =>
      res_bind (validatePiece limits rootPieceId piece) (λ _,
      validatePieces limits rootPieceId rest)
  end.

Definition validateCommit (req : SegmentCommitRequest) : res unit :=
  match validatePointer (Pointer_ req) with
  | Some e => Err e
  | None =>
      match Pointer_ req with
      | None => Panic
      | Some pointer =>
          if bool_decide (Type_ pointer = REMOTE) then
            match Remote pointer with
            | None => Panic
            | Some remote =>
                if len (OriginalLimits req) =? 0
                then Err (New MetainfoError "no order limits")
                else
                  match Redundancy remote with
                  | None => Panic
                  | Some redundancy =>
                      if negb (int32 (len (OriginalLimits req)) =? Total redundancy)
                      then Err (New MetainfoError "invalid no order limit for piece")
                      else validatePieces (OriginalLimits req) (RootPieceId remote)
                             (default [] (RemotePieces remote))
                  end
            end
          else Ok ()
      end
  end.

Definition belowRepairThreshold (pieces threshold : Z) : goerror :=
  New MetainfoError
    ("Number of valid pieces is less than or equal to the repair threshold: "
     +:+ fmt_d pieces +:+ " < " +:+ fmt_d threshold).

(** [filterValidPieces]: every piece is kept (the verification of the
    hashes is commented out), then the count is held against the repair
    threshold. The pointer comes back with the collected slice, which is
    nil when nothing was appended. *)
Definition filterValidPieces (pointer : Pointer) : res Pointer :=
  if bool_decide (Type_ pointer = REMOTE) then
    match Remote pointer with
    | None => Panic
    | Some remote =>
        let remotePieces := default [] (RemotePieces remote) in
        match Redundancy remote with
        | None => Panic
        | Some redundancy =>
            if (int32 (len remotePieces) <=? RepairThreshold redundancy)
               && negb (RepairThreshold redundancy =? SuccessThreshold redundancy)
            then Err (belowRepairThreshold (len remotePieces) (RepairThreshold redundancy))
            else
              Ok (setRemotePieces pointer remote remotePieces)
        end
    end
  else Ok pointer.

Definition CreatePath (projectID : string) (segmentIndex : Z) (bucket path : string)
    : goerror + storj.Path :=
  if segmentIndex <? -1 then inl (errorString "invalid segment index")
  else
    let segment := if segmentIndex >? -1 then "s" +:+ fmt_d segmentIndex else "l" in
    let entries := [projectID; segment] in
    let entries := if negb (String.length bucket =? 0)%nat then entries ++ [bucket] else entries in
    let entries := if negb (String.length path =? 0)%nat then entries ++ [path] else entries in
    inr (JoinPaths sv entries).

Definition createBucketID (projectID bucket : string) : string :=
  JoinPaths sv [projectID; bucket].

(** [CommitSegment] *)
Definition CommitSegment (req : SegmentCommitRequest) (st : State)
    : reply Pointer * State :=
  match validateAuth sv (Bucket req) (Path req) with
  | inl e => (Failed (Errorf Unauthenticated (text e)), st)
  | inr projectID =>
  match validateBucket (Bucket req) with
  | Some e => (Failed (Errorf InvalidArgument (text e)), st)
  | None =>
  match validateCommit req with
  | Panic => (Panicked, st)
  | Err e => (Failed (Errorf Internal (text e)), st)
  | Ok _ =>
  match Pointer_ req with
  | None => (Panicked, st)
  | Some pointer =>
  match filterValidPieces pointer with
  | Panic => (Panicked, st)
  | Err e => (Failed (Errorf Internal (text e)), st)
  | Ok pointer =>
  match CreatePath projectID (Segment req) (Bucket req) (Path req) with
  | inl e => (Failed (Errorf InvalidArgument (text e)), st)
  | inr path =>
  match calculateSpaceUsed pointer with
  | None => (Panicked, st)
  | Some (inlineUsed, remoteUsed) =>
  let st := {| pointers := pointers st;
               usage := usage st ++ [(projectID, inlineUsed, remoteUsed)] |} in
  match metainfoPutError sv path pointer with
  | Some e => (Failed (Errorf Internal (text e)), st)
  | None =>
  let st := {| pointers := <[path := pointer]> (pointers st); usage := usage st |} in
  match
    (if bool_decide (Type_ pointer = INLINE)
     then UpdatePutInlineOrder sv (createBucketID projectID (Bucket req))
            (len (default [] (InlineSegment pointer)))
     else None)
  with
  | Some e => (Failed (Errorf Internal (text e)), st)
  | None =>
  match metainfoGetError sv path with
  | Some e => (Failed (Errorf Internal (text e)), st)
  | None =>
  match pointers st !! path with
  | None => (Failed (Errorf Internal (text (New (OtherClass "key not found") path))), st)
  | Some stored => (Response stored, st)
  end end end end end end end end end end end.

End Endpoint.

(** [needle] occurs in [text]. *)
Definition contains (needle text : string) : Prop :=
  ∃ before after, text = before +:+ needle +:+ after.

End metainfo.

(** ** The segment store (package [segments], [CalcNeededNodes]) *)

Module segments.

Definition scheme (k m o n : Z) : RedundancyScheme :=
  {| MinReq := k; Total := n; RepairThreshold := m; SuccessThreshold := o;
     ErasureShareSize := 0 |}.

(** The vectors of [TestCalcNeededNodes]: a scheme and the count the test
    expects for it. *)
Definition calcNeededNodesCases : list (RedundancyScheme * Z) :=
  [ (scheme 0 0 0 0, 0);
    (scheme 1 1 1 1, 1);
    (scheme 1 1 2 2, 2);
    (scheme 1 2 2 2, 2);
    (scheme 2 3 4 4, 3);
    (scheme 2 4 6 8, 3);
    (scheme 20 30 40 50, 25);
    (scheme 29 35 80 95, 34) ].

(** The quotient rounded up, for a positive divisor. *)
Definition ceilDiv (a b : Z) : Z := (a + b - 1) / b.

(** [CalcNeededNodes] itself is in a file of the package that is missing:
    what the sources have of it is its test. [closedForm] is the formula
    the specification gives for it, for a scheme [(k, m, o, n)]:
    [ceil(k * o / m)], capped to ensure at least [k] are requested. It is
    held against the vectors of the test below; nothing here stands for
    the function itself. *)
Definition closedForm (rs : RedundancyScheme) : Z :=
  Z.max (MinReq rs) (ceilDiv (MinReq rs * SuccessThreshold rs) (RepairThreshold rs)).

End segments.


(** ** The transport client (package [transport], [Transport]) *)

Module transport.

(** [context.Canceled], the sentinel the sources compare with [==]; the
    standard library makes it with [errors.New("context canceled")]. *)
Definition Canceled : goerror := errorString "context canceled".

(** What an observer is told: [ConnSuccess] with the node, whose [LastIp]
    was set just before, or [ConnFailure] with the node and the error. *)
Inductive notice :=
  | ConnSuccess (observer : string) (node : Node) (lastIp : string)
  | ConnFailure (observer : string) (node : Node) (err : goerror).

(** A transport: its observers, by name, and what it calls. [DialOption]
    is [tlsOpts.DialOption]; [DialContext] is [grpc.DialContext] on an
    address with the option made for the node ID, under the dial timeout
    ([None]: the connection is there); [SplitHostPort] answers the host and
    [ResolveIPAddr] the address as [String] prints it. *)
Record Transport := {
  observers : list string;
  DialOption : storj.NodeID → option goerror;
  DialContext : storj.NodeID → string → option goerror;
  SplitHostPort : string → goerror + string;
  ResolveIPAddr : string → goerror + string
}.

Definition getIP (t : Transport) (target : string) : goerror + string :=
  match SplitHostPort t target with
  | inl err => inl err
  | inr host =>
      match ResolveIPAddr t host with
      | inl err => inl err
      | inr ipAddr => inr ipAddr
      end
  end.

Definition alertFail (obs : list string) (node : Node) (err : goerror) : list notice :=
  (λ o, ConnFailure o node err) <$> obs.

Definition alertSuccess (obs : list string) (node : Node) (lastIp : string)
    : list notice :=
  (λ o, ConnSuccess o node lastIp) <$> obs.

(** [DialNode]: the error it returns ([None] with the connection) and what
    the observers were told, in order. A node address that is nil or
    empty is the empty string of [Address]; the target of the connection
    is the address that was dialled. *)
Definition DialNode (t : Transport) (node : Node) : option goerror * list notice :=
  if bool_decide (Address node = "")
  then (Some (New TransportError "no address"), [])
  else
    match DialOption t (Id node) with
    | Some err => (Some err, [])
    | None =>
        match DialContext t (Id node) (Address node) with
        | Some err =>
            if bool_decide (err = Canceled) then (Some err, [])
            else (Some (Wrap TransportError err), alertFail (observers t) node err)
        | None =>
            match getIP t (Address node) with
            | inl err => (Some err, [])
            | inr ipAddr => (None, alertSuccess (observers t) node ipAddr)
            end
        end
    end.

(** [WithObservers] *)
Definition WithObservers (t : Transport) (obs : list string) : Transport :=
  {| observers := observers t ++ obs; DialOption := DialOption t;
     DialContext := DialContext t; SplitHostPort := SplitHostPort t;
     ResolveIPAddr := ResolveIPAddr t |}.

(** The observer a notice went to. *)
Definition observerOf (n : notice) : string :=
  match n with
  | ConnSuccess o _ _ => o
  | ConnFailure o _ _ => o
  end.

End transport.

(** ** The verifier on a transport (package [audit], continued) *)

Module verifier.

(** The collaborators of a verifier whose [transport] field is [t]. *)
Definition onTransport (t : transport.Transport) (sv : audit.Services) : audit.Services :=
  {| audit.FEC := audit.FEC sv;
     audit.SplitPath := audit.SplitPath sv;
     audit.JoinPaths := audit.JoinPaths sv;
     audit.CreateAuditOrderLimits := audit.CreateAuditOrderLimits sv;
     audit.CreateAuditOrderLimit := audit.CreateAuditOrderLimit sv;
     audit.dialNode := λ node, (transport.DialNode t node).1;
     audit.readShare := audit.readShare sv;
     audit.containmentGet := audit.containmentGet sv;
     audit.NewFEC := audit.NewFEC sv;
     audit.Required := audit.Required sv;
     audit.Correct := audit.Correct sv;
     audit.Rebuild := audit.Rebuild sv;
     audit.EncodeSingle := audit.EncodeSingle sv;
     audit.SHA256Hash := audit.SHA256Hash sv |}.

Definition errStorageNodeOffline : goerror := errorString "Storage Node is offline".
Definition errStorageNodeDialTimeout : goerror :=
  errorString "Storage Node dialing timed out".
Definition errStorageNodeDialUnexpected : goerror :=
  errorString "Storage Node returned an unexpected error when dialing".

(** [strings.Contains(s, substr)] *)
Fixpoint Contains (s substr : string) : bool :=
  String.prefix substr s ||
  match s with
  | EmptyString => false
  | String _ rest => Contains rest substr
  end.

(** [getNodeConnection]: a plain TCP dial first ([netDial], under a
    timeout of one second), whose connection is closed at once (a failing
    close is logged only), then [DialNode]. *)
Definition getNodeConnection (className : errclass → string)
    (netDial : string → option goerror) (t : transport.Transport)
    (id : storj.NodeID) (address : string) : option goerror * list transport.notice :=
  match netDial address with
  | Some err =>
      if bool_decide (err = DeadlineExceeded) then (Some errStorageNodeDialTimeout, [])
      else if Contains (errorText className err) "connect: connection refused"
      then (Some errStorageNodeOffline, [])
      else (Some errStorageNodeDialUnexpected, [])
  | None =>
      match transport.DialNode t {| Id := id; Address := address |} with
      | (Some _, notices) => (Some errStorageNodeDialUnexpected, notices)
      | (None, notices) => (None, notices)
      end
  end.

(** The piece numbers [DownloadShares] got a share for: the indices of
    the limits, from [i], whose download succeeded. *)
Fixpoint downloaded (sv : audit.Services) (i : Z)
    (limits : list (option AddressedOrderLimit)) (stripeIndex shareSize : Z) : list Z :=
  match limits with
  | [] => []
  | None :: rest => downloaded sv (i + 1) rest stripeIndex shareSize
  | Some limit :: rest =>
      match audit.GetShare sv limit stripeIndex shareSize i with
      | inl _ => downloaded sv (i + 1) rest stripeIndex shareSize
      | inr _ => i :: downloaded sv (i + 1) rest stripeIndex shareSize
      end
  end.

End verifier.

(** ** The other calls of the metainfo endpoint (package [metainfo], continued) *)

Module endpoint.

(** [macaroon.Action], without its [Time], which is the time of the call. *)
Module macaroon.
Inductive ActionType := ActionRead | ActionWrite | ActionList | ActionDelete.
Record Action := {
  Op : ActionType;
  Bucket : string;
  EncryptedPath : string
}.
End macaroon.

(** [console.APIKeyInfo], as far as the endpoint reads it; the project ID
    as [uuid.String] prints it. *)
Record APIKeyInfo := {
  ProjectID : string;
  Secret : bytes
}.

(** [SegmentInfoRequest], [SegmentDownloadRequest] and
    [SegmentDeleteRequest] carry the same three fields. *)
Record SegmentRequest := {
  Bucket : string;     (* []byte *)
  Path : string;       (* []byte *)
  Segment : Z          (* int64 *)
}.

Module Write.
Record Request := {
  Bucket : string;
  Path : string;
  Segment : Z;
  Redundancy : option RedundancyScheme;
  MaxEncryptedSegmentSize : Z;
  Expiration : Z
}.
Record Response := {
  AddressedLimits : list (option AddressedOrderLimit);
  RootPieceId : storj.PieceID
}.
End Write.

Module List.
Record Request := {
  Bucket : string;
  Prefix : string;
  StartAfter : string;
  EndBefore : string;
  Recursive : bool;
  Limit : Z;            (* int32 *)
  MetaFlags : Z         (* uint32 *)
}.
Record Item := {
  Path : string;
  Pointer_ : option Pointer;
  IsPrefix : bool
}.
Record Response := {
  Items : list Item;
  More : bool
}.
End List.

(** A nil slice of limits and an empty one are both the empty list. *)
Module Download.
Record Response := {
  Pointer_ : option Pointer;
  AddressedLimits : list (option AddressedOrderLimit)
}.
End Download.

(** What [CreateSegment] answers: it alone hands some errors on as they
    are, without a status. *)
Inductive created :=
  | Created (resp : Write.Response)
  | Refused (s : metainfo.status)
  | Errored (e : goerror)
  | CreatePanicked.

(** The collaborators of the endpoint: the API key of the request
    ([auth.GetAPIKey]) and the macaroon library, the key store, the project
    usage accounting, the overlay cache, the orders service, and the
    failures of the pointer store and of the containment store.
    [statusText] is the text of a status error, [PeerIdentityFromContext]
    the identity of the caller. *)
Record Collaborators := {
  className : errclass → string;
  Sprintf : string → string;
  statusText : metainfo.status → string;
  JoinPaths : list string → string;
  APIKey : Type;
  GetAPIKey : option string;
  ParseAPIKey : string → goerror + APIKey;
  Head : APIKey → bytes;
  GetByHead : bytes → goerror + APIKeyInfo;
  Check : APIKey → bytes → macaroon.Action → option goerror;
  VerifyOrderLimitSignature : option OrderLimit → option goerror;
  Derive : storj.PieceID → storj.NodeID → storj.PieceID;
  AddProjectStorageUsage : string → Z → Z → option goerror;
  ExceedsStorageUsage : string → bool;
  ExceedsBandwidthUsage : string → string → bool;
  NewRedundancyStrategyFromProto :
    option RedundancyScheme → goerror + Repairer.RedundancyStrategy;
  CalcPieceSize : Z → Repairer.RedundancyStrategy → Z;
  FindStorageNodes : Repairer.FindStorageNodesRequest → goerror + list Node;
  PeerIdentityFromContext : goerror + string;
  CreatePutOrderLimits :
    string → string → list Node → Z → Z →
    goerror + (storj.PieceID * list (option AddressedOrderLimit));
  CreateGetOrderLimits :
    string → string → Pointer → goerror + list (option AddressedOrderLimit);
  CreateDeleteOrderLimits :
    string → string → Pointer → goerror + list (option AddressedOrderLimit);
  UpdatePutInlineOrder : string → Z → option goerror;
  UpdateGetInlineOrder : string → Z → option goerror;
  metainfoGetError : storj.Path → option goerror;
  metainfoPutError : storj.Path → Pointer → option goerror;
  metainfoDeleteError : storj.Path → option goerror;
  metainfoList :
    storj.Path → string → string → bool → Z → Z → goerror + (list List.Item * bool);
  containmentDeleteError : storj.NodeID → option goerror
}.

(** [storage.ErrKeyNotFound] *)
Definition ErrKeyNotFound : errclass := OtherClass "key not found".

(** What the calls act on: the pointer store with the usage accounting,
    and the calls made to [containment.Delete], by node and in order. *)
Record State := {
  store : metainfo.State;
  containmentDeletes : list storj.NodeID
}.

Section Endpoint.
Context (c : Collaborators).

Definition invalidCredential : metainfo.status :=
  {| metainfo.Code := metainfo.Unauthenticated;
     metainfo.Message := Sprintf c "Invalid API credential" |}.

(** [validateAuth]: the key of the request is parsed, looked up by its
    head and checked against the action; what is logged is left out. *)
Definition validateAuth (action : macaroon.Action) : metainfo.status + APIKeyInfo :=
  match GetAPIKey c with
  | None => inl invalidCredential
  | Some keyData =>
      match ParseAPIKey c keyData with
      | inl _ => inl invalidCredential
      | inr key =>
          match GetByHead c (Head c key) with
          | inl _ => inl invalidCredential
          | inr keyInfo =>
              match Check c key (Secret keyInfo) action with
              | Some _ => inl invalidCredential
              | None => inr keyInfo
              end
          end
      end
  end.

(** The collaborators as [CommitSegment] has them: its [validateAuth] is
    the one above for the action of writing, whose error is a status. *)
Definition services : metainfo.Services :=
  {| metainfo.className := className c;
     metainfo.Sprintf := Sprintf c;
     metainfo.JoinPaths := JoinPaths c;
     metainfo.validateAuth := λ bucket path,
       match validateAuth {| macaroon.Op := macaroon.ActionWrite; macaroon.Bucket := bucket;
                        macaroon.EncryptedPath := path |} with
       | inl s => inl (errorString (statusText c s))
       | inr keyInfo => inr (ProjectID keyInfo)
       end;
     metainfo.VerifyOrderLimitSignature := VerifyOrderLimitSignature c;
     metainfo.Derive := Derive c;
     metainfo.AddProjectStorageUsage := AddProjectStorageUsage c;
     metainfo.metainfoPutError := metainfoPutError c;
     metainfo.metainfoGetError := metainfoGetError c;
     metainfo.UpdatePutInlineOrder := UpdatePutInlineOrder c |}.

Definition Errorf (code : metainfo.code) (text : string) : metainfo.status :=
  metainfo.Errorf services code text.

Definition text (e : goerror) : string := errorText (className c) e.

Definition unauthenticated (s : metainfo.status) : metainfo.status :=
  Errorf metainfo.Unauthenticated (statusText c s).

(** Modelled from the spec: [metainfo.Service] is missing; the spec has
    the pointer store as a key-value map (section 1). [Get] answers the
    pointer at [path] or the key-not-found error of the store, unless the
    store fails; [Delete] removes the key unless the store fails. *)
Definition metainfoGet (st : metainfo.State) (path : storj.Path) : goerror + Pointer :=
  match metainfoGetError c path with
  | Some e => inl e
  | None =>
      match metainfo.pointers st !! path with
      | Some p => inr p
      | None => inl (New ErrKeyNotFound path)
      end
  end.

Definition metainfoDelete (st : metainfo.State) (path : storj.Path)
    : option goerror * metainfo.State :=
  match metainfoDeleteError c path with
  | Some e => (Some e, st)
  | None =>
      (None, {| metainfo.pointers := delete path (metainfo.pointers st);
                metainfo.usage := metainfo.usage st |})
  end.

(** The status for an error of [Get]. *)
Definition getFailed (e : goerror) : metainfo.status :=
  if Has ErrKeyNotFound e then Errorf metainfo.NotFound (text e)
  else Errorf metainfo.Internal (text e).

(** [CommitSegment], on the state of the endpoint. *)
Definition CommitSegment (req : metainfo.SegmentCommitRequest) (st : State)
    : metainfo.reply Pointer * State :=
  let '(r, s) := metainfo.CommitSegment services req (store st) in
  (r, {| store := s; containmentDeletes := containmentDeletes st |}).

(** [SegmentInfo] *)
Definition SegmentInfo (req : SegmentRequest) (st : State) : metainfo.reply Pointer :=
  match validateAuth {| macaroon.Op := macaroon.ActionRead; macaroon.Bucket := Bucket req;
                        macaroon.EncryptedPath := Path req |} with
  | inl s => metainfo.Failed (unauthenticated s)
  | inr keyInfo =>
  match metainfo.validateBucket (Bucket req) with
  | Some e => metainfo.Failed (Errorf metainfo.InvalidArgument (text e))
  | None =>
  match metainfo.CreatePath services (ProjectID keyInfo) (Segment req) (Bucket req)
          (Path req) with
  | inl e => metainfo.Failed (Errorf metainfo.InvalidArgument (text e))
  | inr path =>
  match metainfoGet (store st) path with
  | inl e => metainfo.Failed (getFailed e)
  | inr pointer => metainfo.Response pointer
  end end end end.

(** [validateRedundancy]: the scheme is read without a check for nil
    ([None] is the panic). *)
Definition validateRedundancy (redundancy : option RedundancyScheme)
    : option (option goerror) :=
  match redundancy with
  | None => None
  | Some redundancy =>
      if ErasureShareSize redundancy <=? 0
      then Some (Some (New MetainfoError "erasure share size cannot be less than 0"))
      else Some None
  end.

(** [CreateSegment] *)
Definition CreateSegment (req : Write.Request) : created :=
  match validateAuth {| macaroon.Op := macaroon.ActionWrite; macaroon.Bucket := Write.Bucket req;
                        macaroon.EncryptedPath := Write.Path req |} with
  | inl s => Refused (unauthenticated s)
  | inr keyInfo =>
  match metainfo.validateBucket (Write.Bucket req) with
  | Some e => Refused (Errorf metainfo.InvalidArgument (text e))
  | None =>
  match validateRedundancy (Write.Redundancy req) with
  | None => CreatePanicked
  | Some (Some e) => Refused (Errorf metainfo.InvalidArgument (text e))
  | Some None =>
  if ExceedsStorageUsage c (ProjectID keyInfo)
  then Refused (Errorf metainfo.ResourceExhausted "Exceeded Usage Limit")
  else
  match NewRedundancyStrategyFromProto c (Write.Redundancy req) with
  | inl e => Errored e
  | inr redundancy =>
  let maxPieceSize := CalcPieceSize c (Write.MaxEncryptedSegmentSize req) redundancy in
  let request :=
    {| Repairer.RequestedCount := GetTotal (Write.Redundancy req);
       Repairer.FreeBandwidth := maxPieceSize;
       Repairer.FreeDisk := maxPieceSize;
       Repairer.ExcludedNodes := [] |} in
  match FindStorageNodes c request with
  | inl e => Refused (Errorf metainfo.Internal (text e))
  | inr nodes =>
  match PeerIdentityFromContext c with
  | inl e => Refused (Errorf metainfo.Internal (text e))
  | inr uplinkIdentity =>
  let bucketID :=
    metainfo.createBucketID services (ProjectID keyInfo) (Write.Bucket req) in
  match CreatePutOrderLimits c uplinkIdentity bucketID nodes (Write.Expiration req)
          maxPieceSize with
  | inl e => Errored (Wrap MetainfoError e)
  | inr (rootPieceID, addressedLimits) =>
      Created {| Write.AddressedLimits := addressedLimits;
                 Write.RootPieceId := rootPieceID |}
  end end end end end end end.

(** [DownloadSegment]: a pointer that is neither INLINE nor REMOTE with a
    remote part is answered by an empty response. *)
Definition DownloadSegment (req : SegmentRequest) (st : State)
    : metainfo.reply Download.Response :=
  match validateAuth {| macaroon.Op := macaroon.ActionRead; macaroon.Bucket := Bucket req;
                        macaroon.EncryptedPath := Path req |} with
  | inl s => metainfo.Failed (unauthenticated s)
  | inr keyInfo =>
  match metainfo.validateBucket (Bucket req) with
  | Some e => metainfo.Failed (Errorf metainfo.InvalidArgument (text e))
  | None =>
  let bucketID := metainfo.createBucketID services (ProjectID keyInfo) (Bucket req) in
  if ExceedsBandwidthUsage c (ProjectID keyInfo) bucketID
  then metainfo.Failed (Errorf metainfo.ResourceExhausted "Exceeded Usage Limit")
  else
  match metainfo.CreatePath services (ProjectID keyInfo) (Segment req) (Bucket req)
          (Path req) with
  | inl e => metainfo.Failed (Errorf metainfo.InvalidArgument (text e))
  | inr path =>
  match metainfoGet (store st) path with
  | inl e => metainfo.Failed (getFailed e)
  | inr pointer =>
      if bool_decide (Type_ pointer = INLINE) then
        match UpdateGetInlineOrder c bucketID
                (len (default [] (InlineSegment pointer))) with
        | Some e => metainfo.Failed (Errorf metainfo.Internal (text e))
        | None =>
            metainfo.Response
              {| Download.Pointer_ := Some pointer; Download.AddressedLimits := [] |}
        end
      else if bool_decide (Type_ pointer = REMOTE) && bool_decide (Remote pointer ≠ None)
      then
        match PeerIdentityFromContext c with
        | inl e => metainfo.Failed (Errorf metainfo.Internal (text e))
        | inr uplinkIdentity =>
            match CreateGetOrderLimits c uplinkIdentity bucketID pointer with
            | inl e => metainfo.Failed (Errorf metainfo.Internal (text e))
            | inr limits =>
                metainfo.Response
                  {| Download.Pointer_ := Some pointer;
                     Download.AddressedLimits := limits |}
            end
        end
      else metainfo.Response {| Download.Pointer_ := None; Download.AddressedLimits := [] |}
  end end end end.

(** The loop of [DeleteSegment] over the pieces: [containment.Delete] is
    called for the node of each piece, until a call fails. *)
Fixpoint containmentDelete (pieces : list RemotePiece) (calls : list storj.NodeID)
    : option goerror * list storj.NodeID :=
  match pieces with
  | [] => (None, calls)
  | piece :: rest =>
      let calls := calls ++ [NodeId piece] in
      match containmentDeleteError c (NodeId piece) with
      | Some e => (Some e, calls)
      | None => containmentDelete rest calls
      end
  end.

(** [DeleteSegment]: what is answered are the limits of the response,
    none for a pointer that is not REMOTE with a remote part. *)
Definition DeleteSegment (req : SegmentRequest) (st : State)
    : metainfo.reply (list (option AddressedOrderLimit)) * State :=
  match validateAuth {| macaroon.Op := macaroon.ActionDelete; macaroon.Bucket := Bucket req;
                        macaroon.EncryptedPath := Path req |} with
  | inl s => (metainfo.Failed (unauthenticated s), st)
  | inr keyInfo =>
  match metainfo.validateBucket (Bucket req) with
  | Some e => (metainfo.Failed (Errorf metainfo.InvalidArgument (text e)), st)
  | None =>
  match metainfo.CreatePath services (ProjectID keyInfo) (Segment req) (Bucket req)
          (Path req) with
  | inl e => (metainfo.Failed (Errorf metainfo.InvalidArgument (text e)), st)
  | inr path =>
  match metainfoGet (store st) path with
  | inl e => (metainfo.Failed (getFailed e), st)
  | inr pointer =>
  match metainfoDelete (store st) path with
  | (Some e, _) => (metainfo.Failed (Errorf metainfo.Internal (text e)), st)
  | (None, store') =>
  let st := {| store := store'; containmentDeletes := containmentDeletes st |} in
  if bool_decide (Type_ pointer = REMOTE) && bool_decide (Remote pointer ≠ None)
  then
    match PeerIdentityFromContext c with
    | inl e => (metainfo.Failed (Errorf metainfo.Internal (text e)), st)
    | inr uplinkIdentity =>
        let '(err, calls) :=
          containmentDelete (GetRemotePieces (GetRemote pointer))
            (containmentDeletes st) in
        let st := {| store := store st; containmentDeletes := calls |} in
        match err with
        | Some e => (metainfo.Failed (Errorf metainfo.Internal (text e)), st)
        | None =>
            let bucketID :=
              metainfo.createBucketID services (ProjectID keyInfo) (Bucket req) in
            match CreateDeleteOrderLimits c uplinkIdentity bucketID pointer with
            | inl e => (metainfo.Failed (Errorf metainfo.Internal (text e)), st)
            | inr limits => (metainfo.Response limits, st)
            end
        end
    end
  else (metainfo.Response [], st)
  end end end end end.

(** [ListSegments]: the bucket is not validated; the items of the store
    are handed on as they are. *)
Definition ListSegments (req : List.Request) : metainfo.reply List.Response :=
  match validateAuth {| macaroon.Op := macaroon.ActionList; macaroon.Bucket := List.Bucket req;
                        macaroon.EncryptedPath := List.Prefix req |} with
  | inl s => metainfo.Failed (unauthenticated s)
  | inr keyInfo =>
  match metainfo.CreatePath services (ProjectID keyInfo) (-1) (List.Bucket req)
          (List.Prefix req) with
  | inl e => metainfo.Failed (Errorf metainfo.InvalidArgument (text e))
  | inr prefix =>
  match metainfoList c prefix (List.StartAfter req) (List.EndBefore req)
          (List.Recursive req) (List.Limit req) (List.MetaFlags req) with
  | inl e =>
      metainfo.Failed
        {| metainfo.Code := metainfo.Internal;
           metainfo.Message := "ListV2: " +:+ text e |}
  | inr (items, more) =>
      metainfo.Response
        {| List.Items :=
             (λ item, {| List.Path := List.Path item; List.Pointer_ := List.Pointer_ item;
                         List.IsPrefix := List.IsPrefix item |}) <$> items;
           List.More := more |}
  end end end.

(** A key may do [action]: it is there, parses, is known by its head
    and passes the check. *)
Definition authorized (action : macaroon.Action) (keyInfo : APIKeyInfo) : Prop :=
  ∃ keyData key,
    GetAPIKey c = Some keyData ∧ ParseAPIKey c keyData = inr key ∧
    GetByHead c (Head c key) = inr keyInfo ∧
    Check c key (Secret keyInfo) action = None.

End Endpoint.

(** The status code of an answer, if it is a status. *)
Definition codeOf {A} (r : metainfo.reply A) : option metainfo.code :=
  match r with
  | metainfo.Failed s => Some (metainfo.Code s)
  | _ => None
  end.

End endpoint.


(** ** Concrete runs

    Small instances of the collaborators, used to run the model: a segment
    of the scheme (k=3, m=3, o=5, n=6) for the repairer, two- and
    one-piece segments for the verifier, and the commit of the endpoint's
    test (k=1, m=2, o=4, n=6). *)

Module Examples.

Definition joinPaths (parts : list string) : string := String.concat "/" parts.

Definition pieceOn (i : nat) : RemotePiece :=
  {| PieceNum := Z.of_nat i; NodeId := N.of_nat (100 + i); Hash := None |}.

Definition remotePointer (rs : RedundancyScheme) (pieces : list RemotePiece) : Pointer :=
  {| Type_ := REMOTE; InlineSegment := None;
     Remote := Some {| Redundancy := Some rs; RootPieceId := 7%N;
                       RemotePieces := Some pieces |};
     SegmentSize := 4096; ExpirationDate := 0; Metadata := [] |}.

(** *** The repairer *)

Definition repairScheme : RedundancyScheme :=
  {| MinReq := 3; Total := 6; RepairThreshold := 3; SuccessThreshold := 5;
     ErasureShareSize := 256 |}.

Definition repairPath : storj.Path := "project/l/bucket/object".

Definition repairRemote (n : nat) : RemoteSegment :=
  {| Redundancy := Some repairScheme; RootPieceId := 7%N;
     RemotePieces := Some (pieceOn <$> seq 0 n) |}.

Definition repairStrategy : Repairer.RedundancyStrategy :=
  {| Repairer.RequiredCount := 3; Repairer.TotalCount := 6;
     Repairer.RepairThresholdCount := 3; Repairer.OptimalThresholdCount := 5 |}.

(** A store holding, at [repairPath], a pointer with [n] pieces. *)
Definition repairState (n : nat) : Repairer.State :=
  {| Repairer.meters := ∅;
     Repairer.pointers := {[ repairPath := remotePointer repairScheme (pieceOn <$> seq 0 n) ]} |}.

(** The overlay reports [missing]; the upload succeeds on [uploaded]. *)
Definition repairServices (missing : list Z) (uploaded : list (option Node))
    : Repairer.Services :=
  {| Repairer.className := λ _, "segment error";
     Repairer.NewRedundancyStrategyFromProto := λ rs,
       Ok {| Repairer.RequiredCount := GetMinReq rs;
             Repairer.TotalCount := GetTotal rs;
             Repairer.RepairThresholdCount := from_option RepairThreshold 0 rs;
             Repairer.OptimalThresholdCount := from_option SuccessThreshold 0 rs |};
     Repairer.CalcPieceSize := λ size _, size;
     Repairer.GetMissingPieces := λ _, Ok missing;
     Repairer.SplitPath := λ _, ["project"; "l"; "bucket"; "object"];
     Repairer.JoinPaths := joinPaths;
     Repairer.CreateGetRepairOrderLimits := λ _ _ _, Ok [];
     Repairer.FindStorageNodes := λ _, Ok [];
     Repairer.CreatePutRepairOrderLimits := λ _ _ _ _, Ok [];
     Repairer.ecGet := λ _ _ size, Ok size;
     Repairer.rrRange := λ _ _ _, Ok [];
     Repairer.rClose := λ _, None;
     Repairer.ecRepair := λ _ _ _ _ _, Ok (uploaded, replicate (length uploaded) None);
     Repairer.metainfoPutError := λ _ _, None |}.

Definition newNode (i : nat) : option Node :=
  Some {| Id := N.of_nat (200 + i); Address := "" |}.

(** Uploads to the pieces 3, 4 and 5 succeed. *)
Definition threeUploads : list (option Node) :=
  [None; None; None; newNode 3; newNode 4; newNode 5].

(** The repair of three healthy pieces with three uploads, as a run. *)
Definition repairedRun : res unit * Repairer.State :=
  Repairer.Repair (repairServices [] threeUploads) repairPath (repairState 3).

(** A scheme whose repair threshold is above its minimum, a store
    holding a pointer with [n] pieces under it, and an upload that
    succeeds on piece 3 only. *)
Definition wideScheme : RedundancyScheme :=
  {| MinReq := 2; Total := 6; RepairThreshold := 4; SuccessThreshold := 5;
     ErasureShareSize := 256 |}.

Definition wideState (n : nat) : Repairer.State :=
  {| Repairer.meters := ∅;
     Repairer.pointers := {[ repairPath := remotePointer wideScheme (pieceOn <$> seq 0 n) ]} |}.

Definition oneUpload : list (option Node) :=
  [None; None; None; newNode 3; None; None].

(** *** The verifier *)

Definition auditScheme : RedundancyScheme :=
  {| MinReq := 1; Total := 2; RepairThreshold := 1; SuccessThreshold := 2;
     ErasureShareSize := 2 |}.

Definition limitOf (piece : RemotePiece) : option AddressedOrderLimit :=
  Some {| Limit := {| StorageNodeId := NodeId piece; PieceId := 7%N; LimitBytes := 2 |};
          StorageNodeAddress := "" |}.

(** Every node is dialled; [download] answers the read on a node, and
    [pendingOf] the containment lookup. The erasure code is a stand-in
    that leaves the shares as they are. *)
Definition auditServices (download : storj.NodeID → goerror + bytes)
    (pendingOf : storj.NodeID → goerror + audit.PendingAudit) : audit.Services :=
  {| audit.FEC := Z * Z;
     audit.SplitPath := λ _, ["project"; "l"; "bucket"; "object"];
     audit.JoinPaths := joinPaths;
     audit.CreateAuditOrderLimits := λ _ pointer _,
       Ok (limitOf <$> GetRemotePieces (GetRemote pointer));
     audit.CreateAuditOrderLimit := λ _ node piece size,
       inr {| Limit := {| StorageNodeId := node; PieceId := piece; LimitBytes := size |};
              StorageNodeAddress := "" |};
     audit.dialNode := λ _, None;
     audit.readShare := λ limit _ _, download (StorageNodeId limit);
     audit.containmentGet := pendingOf;
     audit.NewFEC := λ k n, Ok (k, n);
     audit.Required := fst;
     audit.Correct := λ _ shares, Ok shares;
     audit.Rebuild := λ _ shares, Ok shares;
     audit.EncodeSingle := λ _ stripeData size _, Ok (take (Z.to_nat size) stripeData);
     audit.SHA256Hash := λ data, data |}.

Definition auditLimits (n : nat) : list (option AddressedOrderLimit) :=
  limitOf <$> (pieceOn <$> seq 0 n).

Definition auditStripe (n : nat) : audit.Stripe :=
  {| audit.Segment := remotePointer auditScheme (pieceOn <$> seq 0 n);
     audit.SegmentPath := "project/l/bucket/object";
     audit.Index := 0 |}.

Definition noPending (id : storj.NodeID) : goerror + audit.PendingAudit :=
  inl (New ErrContainedNotFound "no pending audit").

(** Node 100 answers its share; node 101 runs into the deadline. *)
Definition oneStalls (id : storj.NodeID) : goerror + bytes :=
  if bool_decide (id = 100%N) then inr [x01; x02] else inl DeadlineExceeded.

(** Node 100 answers its share; the read on node 101 fails with a
    transport error wrapped as a containment error. *)
Definition containedTransport : goerror :=
  Wrap ContainError (Wrap TransportError (errorString "connection reset")).

Definition oneResets (id : storj.NodeID) : goerror + bytes :=
  if bool_decide (id = 100%N) then inr [x01; x02] else inl containedTransport.

(** Every node answers its share. *)
Definition allAnswer (id : storj.NodeID) : goerror + bytes := inr [x01; x02].

(** The read fails with an error that is not a transport error. *)
Definition readFails (id : storj.NodeID) : goerror + bytes :=
  inl (errorString "unexpected EOF").

(** Node 100 has a pending audit on the share it now answers. *)
Definition pendingOn100 (id : storj.NodeID) : goerror + audit.PendingAudit :=
  if bool_decide (id = 100%N)
  then inr {| audit.NodeID := id; audit.PieceID := 7%N; audit.StripeIndex := 0;
              audit.ShareSize := 2; audit.ExpectedShareHash := [x01; x02] |}
  else inl (New ErrContainedNotFound "no pending audit").

(** *** The endpoint *)

Definition commitServices : metainfo.Services :=
  {| metainfo.className := λ _, "metainfo error";
     metainfo.Sprintf := λ format, format;
     metainfo.JoinPaths := joinPaths;
     metainfo.validateAuth := λ _ _, inr "project";
     metainfo.VerifyOrderLimitSignature := λ _, None;
     metainfo.Derive := λ root node, (root + node)%N;
     metainfo.AddProjectStorageUsage := λ _ _ _, None;
     metainfo.metainfoPutError := λ _ _, None;
     metainfo.metainfoGetError := λ _, None;
     metainfo.UpdatePutInlineOrder := λ _ _, None |}.

Definition commitLimit (i : nat) : option OrderLimit :=
  Some {| StorageNodeId := N.of_nat (100 + i); PieceId := (7 + N.of_nat (100 + i))%N;
          LimitBytes := 1000 |}.

(** A commit of [n] pieces under the scheme [rs], with one order limit per
    piece number of the scheme. *)
Definition commitRequest (rs : RedundancyScheme) (n : nat) : metainfo.SegmentCommitRequest :=
  {| metainfo.Bucket := "bucket"; metainfo.Path := "path"; metainfo.Segment := -1;
     metainfo.Pointer_ := Some (remotePointer rs (pieceOn <$> seq 0 n));
     metainfo.OriginalLimits := commitLimit <$> seq 0 (Z.to_nat (Total rs)) |}.

(** The scheme of [TestCommitSegment]. *)
Definition testScheme : RedundancyScheme :=
  {| MinReq := 1; Total := 6; RepairThreshold := 2; SuccessThreshold := 4;
     ErasureShareSize := 10 |}.

(** A scheme that asks for no share at all. *)
Definition zeroMinScheme : RedundancyScheme :=
  {| MinReq := 0; Total := 6; RepairThreshold := 2; SuccessThreshold := 4;
     ErasureShareSize := 10 |}.

Definition emptyStore : metainfo.State :=
  {| metainfo.pointers := ∅; metainfo.usage := [] |}.


(** *** More runs of the repairer *)

(** The services of a repair, with a reader whose close fails. *)
Definition closeFails (sv : Repairer.Services) (e : goerror) : Repairer.Services :=
  {| Repairer.className := Repairer.className sv;
     Repairer.NewRedundancyStrategyFromProto := Repairer.NewRedundancyStrategyFromProto sv;
     Repairer.CalcPieceSize := Repairer.CalcPieceSize sv;
     Repairer.GetMissingPieces := Repairer.GetMissingPieces sv;
     Repairer.SplitPath := Repairer.SplitPath sv;
     Repairer.JoinPaths := Repairer.JoinPaths sv;
     Repairer.CreateGetRepairOrderLimits := Repairer.CreateGetRepairOrderLimits sv;
     Repairer.FindStorageNodes := Repairer.FindStorageNodes sv;
     Repairer.CreatePutRepairOrderLimits := Repairer.CreatePutRepairOrderLimits sv;
     Repairer.ecGet := Repairer.ecGet sv;
     Repairer.rrRange := Repairer.rrRange sv;
     Repairer.rClose := λ _, Some e;
     Repairer.ecRepair := Repairer.ecRepair sv;
     Repairer.metainfoPutError := Repairer.metainfoPutError sv |}.

Definition closeError : goerror := errorString "close: connection reset".

(** A store holding an inline segment at [repairPath]. *)
Definition inlineState : Repairer.State :=
  {| Repairer.meters := ∅;
     Repairer.pointers :=
       {[ repairPath :=
            {| Type_ := INLINE; InlineSegment := Some [x01; x02]; Remote := None;
               SegmentSize := 2; ExpirationDate := 0; Metadata := [] |} ]} |}.

(** *** More runs of the verifier *)

(** Node 100 answers its share; node 101 answers other bytes. *)
Definition oneCorrupts (id : storj.NodeID) : goerror + bytes :=
  if bool_decide (id = 100%N) then inr [x01; x02] else inr [x09; x09].

(** The services of an audit whose erasure code restores the data
    [x01; x02] in every share it is given. *)
Definition correcting (sv : audit.Services) : audit.Services :=
  {| audit.FEC := audit.FEC sv;
     audit.SplitPath := audit.SplitPath sv;
     audit.JoinPaths := audit.JoinPaths sv;
     audit.CreateAuditOrderLimits := audit.CreateAuditOrderLimits sv;
     audit.CreateAuditOrderLimit := audit.CreateAuditOrderLimit sv;
     audit.dialNode := audit.dialNode sv;
     audit.readShare := audit.readShare sv;
     audit.containmentGet := audit.containmentGet sv;
     audit.NewFEC := audit.NewFEC sv;
     audit.Required := audit.Required sv;
     audit.Correct := λ _ shares,
       Ok ((λ share, {| infectious.Number := infectious.Number share;
                        infectious.Data := [x01; x02] |}) <$> shares);
     audit.Rebuild := audit.Rebuild sv;
     audit.EncodeSingle := audit.EncodeSingle sv;
     audit.SHA256Hash := audit.SHA256Hash sv |}.

(** Node 100 has a pending audit; the lookup for the others fails. *)
Definition pendingOrDown (id : storj.NodeID) : goerror + audit.PendingAudit :=
  if bool_decide (id = 100%N)
  then inr {| audit.NodeID := id; audit.PieceID := 7%N; audit.StripeIndex := 0;
              audit.ShareSize := 2; audit.ExpectedShareHash := [x01; x02] |}
  else inl (errorString "containment: database is down").

(** Every node has a pending audit on the share [x01; x02]. *)
Definition pendingOnAll (id : storj.NodeID) : goerror + audit.PendingAudit :=
  inr {| audit.NodeID := id; audit.PieceID := 7%N; audit.StripeIndex := 0;
         audit.ShareSize := 2; audit.ExpectedShareHash := [x01; x02] |}.

(** A segment of four pieces under the scheme (1, 2, 3, 4), on the nodes
    100 to 103: node 100 answers its share, node 101 answers other bytes,
    the read on node 102 fails with a transport error and the read on
    node 103 runs into the deadline. *)
Definition quadScheme : RedundancyScheme :=
  {| MinReq := 1; Total := 4; RepairThreshold := 2; SuccessThreshold := 3;
     ErasureShareSize := 2 |}.

Definition quadStripe : audit.Stripe :=
  {| audit.Segment := remotePointer quadScheme (pieceOn <$> seq 0 4);
     audit.SegmentPath := "project/l/bucket/object";
     audit.Index := 0 |}.

Definition fourWays (id : storj.NodeID) : goerror + bytes :=
  if bool_decide (id = 100%N) then inr [x01; x02]
  else if bool_decide (id = 101%N) then inr [x09; x09]
  else if bool_decide (id = 102%N) then inl (New TransportError "connection reset")
  else inl DeadlineExceeded.

Definition quadServices : audit.Services :=
  correcting (auditServices fourWays pendingOnAll).

(** A transport with one observer, on which every dial runs into its
    deadline. *)
Definition deadTransport : transport.Transport :=
  {| transport.observers := ["discovery"];
     transport.DialOption := λ _, None;
     transport.DialContext := λ _ _, Some DeadlineExceeded;
     transport.SplitHostPort := λ target, inr target;
     transport.ResolveIPAddr := λ host, inr host |}.

(** An order limit that names the address of its node. *)
Definition addressedLimit (piece : RemotePiece) : AddressedOrderLimit :=
  {| Limit := {| StorageNodeId := NodeId piece; PieceId := 7%N; LimitBytes := 2 |};
     StorageNodeAddress := "10.0.0.1:7777" |}.

(** The services of an audit whose orders service puts the address of
    the node into every limit it issues. *)
Definition addressedServices (download : storj.NodeID → goerror + bytes)
    (pendingOf : storj.NodeID → goerror + audit.PendingAudit) : audit.Services :=
  {| audit.FEC := Z * Z;
     audit.SplitPath := λ _, ["project"; "l"; "bucket"; "object"];
     audit.JoinPaths := joinPaths;
     audit.CreateAuditOrderLimits := λ _ pointer _,
       Ok ((λ piece, Some (addressedLimit piece)) <$> GetRemotePieces (GetRemote pointer));
     audit.CreateAuditOrderLimit := λ _ node piece size,
       inr {| Limit := {| StorageNodeId := node; PieceId := piece; LimitBytes := size |};
              StorageNodeAddress := "10.0.0.1:7777" |};
     audit.dialNode := λ _, None;
     audit.readShare := λ limit _ _, download (StorageNodeId limit);
     audit.containmentGet := pendingOf;
     audit.NewFEC := λ k n, Ok (k, n);
     audit.Required := fst;
     audit.Correct := λ _ shares, Ok shares;
     audit.Rebuild := λ _ shares, Ok shares;
     audit.EncodeSingle := λ _ stripeData size _, Ok (take (Z.to_nat size) stripeData);
     audit.SHA256Hash := λ data, data |}.

(** *** More runs of the endpoint *)

(** A commit of given pieces under the scheme of the test. *)
Definition commitPieces (pieces : list RemotePiece) : metainfo.SegmentCommitRequest :=
  {| metainfo.Bucket := "bucket"; metainfo.Path := "path"; metainfo.Segment := -1;
     metainfo.Pointer_ := Some (remotePointer testScheme pieces);
     metainfo.OriginalLimits := commitLimit <$> seq 0 6 |}.

(** A piece whose number is beyond the six order limits. *)
Definition strayPiece : RemotePiece :=
  {| PieceNum := 6; NodeId := 106%N; Hash := None |}.

Definition inlinePointer : Pointer :=
  {| Type_ := INLINE; InlineSegment := Some [x01; x02; x03]; Remote := None;
     SegmentSize := 3; ExpirationDate := 0; Metadata := [] |}.

Definition commitInline : metainfo.SegmentCommitRequest :=
  {| metainfo.Bucket := "bucket"; metainfo.Path := "path"; metainfo.Segment := -1;
     metainfo.Pointer_ := Some inlinePointer; metainfo.OriginalLimits := [] |}.

(** The services of the commit, with an orders service that fails to
    update the inline order. *)
Definition inlineOrderFails : metainfo.Services :=
  {| metainfo.className := λ _, "metainfo error";
     metainfo.Sprintf := λ format, format;
     metainfo.JoinPaths := joinPaths;
     metainfo.validateAuth := λ _ _, inr "project";
     metainfo.VerifyOrderLimitSignature := λ _, None;
     metainfo.Derive := λ root node, (root + node)%N;
     metainfo.AddProjectStorageUsage := λ _ _ _, None;
     metainfo.metainfoPutError := λ _ _, None;
     metainfo.metainfoGetError := λ _, None;
     metainfo.UpdatePutInlineOrder := λ _ _, Some (errorString "orders: database is down") |}.

(** The services of the commit, with a pointer store whose [Get] fails. *)
Definition readBackFails : metainfo.Services :=
  {| metainfo.className := λ _, "metainfo error";
     metainfo.Sprintf := λ format, format;
     metainfo.JoinPaths := joinPaths;
     metainfo.validateAuth := λ _ _, inr "project";
     metainfo.VerifyOrderLimitSignature := λ _, None;
     metainfo.Derive := λ root node, (root + node)%N;
     metainfo.AddProjectStorageUsage := λ _ _ _, None;
     metainfo.metainfoPutError := λ _ _, None;
     metainfo.metainfoGetError := λ _, Some (errorString "kv: database is down");
     metainfo.UpdatePutInlineOrder := λ _ _, None |}.

(** The collaborators of the endpoint for a key of the project that may
    do everything; [identity] is what the context of the call tells of
    the caller. *)
Definition collaborators (identity : goerror + string) : endpoint.Collaborators :=
  {| endpoint.className := λ _, "metainfo error";
     endpoint.Sprintf := λ format, format;
     endpoint.statusText := λ s, "rpc error: " +:+ metainfo.Message s;
     endpoint.JoinPaths := joinPaths;
     endpoint.APIKey := string;
     endpoint.GetAPIKey := Some "key";
     endpoint.ParseAPIKey := λ keyData, inr keyData;
     endpoint.Head := λ _, [x01];
     endpoint.GetByHead := λ _,
       inr {| endpoint.ProjectID := "project"; endpoint.Secret := [x02] |};
     endpoint.Check := λ _ _ _, None;
     endpoint.VerifyOrderLimitSignature := λ _, None;
     endpoint.Derive := λ root node, (root + node)%N;
     endpoint.AddProjectStorageUsage := λ _ _ _, None;
     endpoint.ExceedsStorageUsage := λ _, false;
     endpoint.ExceedsBandwidthUsage := λ _ _, false;
     endpoint.NewRedundancyStrategyFromProto := λ rs,
       inr {| Repairer.RequiredCount := GetMinReq rs;
              Repairer.TotalCount := GetTotal rs;
              Repairer.RepairThresholdCount := from_option RepairThreshold 0 rs;
              Repairer.OptimalThresholdCount := from_option SuccessThreshold 0 rs |};
     endpoint.CalcPieceSize := λ size _, size;
     endpoint.FindStorageNodes := λ _, inr [];
     endpoint.PeerIdentityFromContext := identity;
     endpoint.CreatePutOrderLimits := λ _ _ _ _ _, inr (7%N, []);
     endpoint.CreateGetOrderLimits := λ _ _ pointer,
       inr (limitOf <$> GetRemotePieces (GetRemote pointer));
     endpoint.CreateDeleteOrderLimits := λ _ _ pointer,
       inr (limitOf <$> GetRemotePieces (GetRemote pointer));
     endpoint.UpdatePutInlineOrder := λ _ _, None;
     endpoint.UpdateGetInlineOrder := λ _ _, None;
     endpoint.metainfoGetError := λ _, None;
     endpoint.metainfoPutError := λ _ _, None;
     endpoint.metainfoDeleteError := λ _, None;
     endpoint.metainfoList := λ _ _ _ _ _ _, inr ([], false);
     endpoint.containmentDeleteError := λ _, None |}.

Definition uplink : goerror + string := inr "uplink".
Definition noIdentity : goerror + string := inl (errorString "no peer identity").

(** The state after the commit of three pieces. *)
Definition committed : endpoint.State :=
  {| endpoint.store :=
       (endpoint.CommitSegment (collaborators uplink) (commitRequest testScheme 3)
          {| endpoint.store := emptyStore;
             endpoint.containmentDeletes := [] |}).2.(endpoint.store);
     endpoint.containmentDeletes := [] |}.

(** The request for the segment that was committed. *)
Definition committedSegment : endpoint.SegmentRequest :=
  {| endpoint.Bucket := "bucket"; endpoint.Path := "path"; endpoint.Segment := -1 |}.


(** *** Named parts of the runs above *)

Definition closing : Repairer.Services :=
  closeFails (repairServices [] threeUploads) closeError.

Definition auditRemote (n : nat) : RemoteSegment :=
  {| Redundancy := Some auditScheme; RootPieceId := 7%N;
     RemotePieces := Some (pieceOn <$> seq 0 n) |}.

Definition corruptServices : audit.Services :=
  correcting (auditServices oneCorrupts noPending).

Definition corruptReport : audit.Report :=
  {| audit.Successes := [100%N]; audit.Fails := [101%N]; audit.Offlines := [];
     audit.PendingAudits := [] |}.

Definition intactReport : audit.Report :=
  {| audit.Successes := [101%N; 100%N]; audit.Fails := []; audit.Offlines := [];
     audit.PendingAudits := [] |}.

Definition reverifiedReport : audit.Report :=
  {| audit.Successes := [100%N]; audit.Fails := []; audit.Offlines := [];
     audit.PendingAudits := [] |}.

Definition freshState : endpoint.State :=
  {| endpoint.store := emptyStore; endpoint.containmentDeletes := [] |}.

Definition projectKey : endpoint.APIKeyInfo :=
  {| endpoint.ProjectID := "project"; endpoint.Secret := [x02] |}.

End Examples.

(** * Statements *)

(** ** Machine integers *)

Lemma int32_small (z : Z) : - 2 ^ 31 <= z < 2 ^ 31 → int32 z = z.
Proof. intros Hz. unfold int32. rewrite Z.mod_small; lia. Qed.

Lemma int32_range (z : Z) : - 2 ^ 31 <= int32 z < 2 ^ 31.
Proof.
  unfold int32.
  pose proof (Z.mod_pos_bound (z + 2 ^ 31) (2 ^ 32) ltac:(lia)). lia.
Qed.

Lemma int64_small (z : Z) : - 2 ^ 63 <= z < 2 ^ 63 → int64 z = z.
Proof. intros Hz. unfold int64. rewrite Z.mod_small; lia. Qed.

Lemma len_nonneg {A} (l : list A) : 0 <= len l.
Proof. unfold len. lia. Qed.

Lemma len_app {A} (l k : list A) : len (l ++ k) = len l + len k.
Proof. unfold len. rewrite length_app. lia. Qed.

(** Read back through its getter, a slice grown by [append] has the
    elements appended, nil or not. *)
Lemma default_appended {A} (l : list A) : default [] (appended l) = l.
Proof. by destruct l. Qed.

(** ** Error classes *)

(** Wrapping adds the class and keeps those of the cause. *)
Lemma Has_Wrap (c' c : errclass) (e : goerror) :
  Has c' (Wrap c e) = bool_decide (c' = c) || Has c' e.
Proof.
  unfold Wrap. destruct e as [| |c0 cause|]; try done.
  case_decide as Hclass; [|done]. subst c0. simpl.
  by destruct (bool_decide (c' = c)).
Qed.

Lemma Has_Wrap_same (c : errclass) (e : goerror) : Has c (Wrap c e) = true.
Proof. rewrite Has_Wrap. by rewrite bool_decide_eq_true_2. Qed.

Lemma Wrap_not_deadline (c : errclass) (e : goerror) :
  bool_decide (Wrap c e = DeadlineExceeded) = false.
Proof.
  apply bool_decide_eq_false. unfold Wrap.
  destruct e as [| |c0 cause|]; try done. by case_decide.
Qed.

(** ** The segment repairer *)

Module RepairerSpec.
Import Repairer.

Lemma meter_Mark_eq name n m : meter name (Mark name n m) = meter name m + n.
Proof. unfold meter, Mark. by rewrite lookup_insert_eq. Qed.

Lemma meter_Mark_ne name name' n m :
  name ≠ name' → meter name' (Mark name n m) = meter name' m.
Proof. intros Hne. unfold meter, Mark. by rewrite lookup_insert_ne. Qed.

(** The pieces [appendUploaded] adds are those of the nodes that are not
    nil, numbered by their index. *)
Lemma appendUploaded_spec successfulNodes : ∀ i hashes healthyPieces out,
  appendUploaded i successfulNodes hashes healthyPieces = Some out →
  ∃ new, out = healthyPieces ++ new ∧
    ∀ piece, piece ∈ new ↔
      ∃ (j : nat) node h,
        successfulNodes !! j = Some (Some node) ∧ hashes !! (i + j)%nat = Some h ∧
        piece = {| PieceNum := int32 (Z.of_nat (i + j)); NodeId := Id node; Hash := h |}.
Proof.
  induction successfulNodes as [|[node|] rest IH]; intros i hashes healthy out; simpl.
  - intros [= <-]. exists []. split; [by rewrite app_nil_r|].
    intros piece. split; [by intros ?%elem_of_nil|].
    by intros (j & ? & ? & ? & _).
  - destruct (hashes !! i) as [h|] eqn:Hh; [|done].
    intros (new & -> & Hnew)%IH.
    exists ({| PieceNum := int32 (Z.of_nat i); NodeId := Id node; Hash := h |} :: new).
    split; [by rewrite <- app_assoc|].
    intros piece. rewrite elem_of_cons, Hnew. split.
    + intros [->|(j & node' & h' & Hj & Hh' & ->)].
      * exists 0%nat, node, h. by rewrite Nat.add_0_r.
      * exists (S j), node', h'. by rewrite <- Nat.add_succ_comm.
    + intros ([|j] & node' & h' & Hj & Hh' & ->).
      * left. rewrite Nat.add_0_r in *. simpl in Hj. congruence.
      * right. exists j, node', h'. by rewrite Nat.add_succ_comm.
  - intros (new & -> & Hnew)%IH. exists new. split; [done|].
    intros piece. rewrite Hnew. split.
    + intros (j & node' & h' & Hj & Hh' & ->).
      exists (S j), node', h'. by rewrite <- Nat.add_succ_comm.
    + intros ([|j] & node' & h' & Hj & Hh' & ->); [done|].
      exists j, node', h'. by rewrite Nat.add_succ_comm.
Qed.

(** What [Repair] does up to the threshold checks, for a REMOTE pointer
    whose redundancy strategy and missing pieces were obtained. *)
Section Thresholds.
Context (sv : Services) (path : storj.Path) (st : State).
Context (pointer : Pointer) (remote : RemoteSegment) (rs : RedundancyScheme).
Context (redundancy : RedundancyStrategy) (missingPieces : list Z).

Let pieces := GetRemotePieces (Some remote).
Let numHealthy := len pieces - len missingPieces.
Let attempted := mark "repair_attempts" st.

Hypothesis Hget : pointers st !! path = Some pointer.
Hypothesis Htype : Type_ pointer = REMOTE.
Hypothesis Hremote : Remote pointer = Some remote.
Hypothesis Hrs : Redundancy remote = Some rs.
Hypothesis Hstrategy : NewRedundancyStrategyFromProto sv (Some rs) = Ok redundancy.
Hypothesis Hmissing : GetMissingPieces sv pieces = Ok missingPieces.
Hypothesis Hrange : - 2 ^ 31 <= numHealthy < 2 ^ 31.

Lemma Repair_checks :
  Repair sv path st =
    if numHealthy <? MinReq rs
    then (Err (irreparable path), mark "repair_nodes_unavailable" attempted)
    else if numHealthy >? RepairThreshold rs
    then (Err (unnecessary path numHealthy (RepairThreshold rs)),
          mark "repair_unnecessary" attempted)
    else repairSegment sv path pointer remote rs redundancy
           (CalcPieceSize sv (SegmentSize pointer) redundancy) pieces missingPieces
           attempted.
Proof.
  unfold Repair, metainfoGet. rewrite Hget.
  rewrite bool_decide_eq_false_2 by (by rewrite Htype; intros []).
  unfold GetRemote, GetRedundancy. rewrite Hremote. simpl. rewrite Hrs.
  rewrite Hstrategy. fold pieces. rewrite Hmissing. simpl.
  fold numHealthy. by rewrite (int32_small _ Hrange).
Qed.

End Thresholds.

(** C3. Repair of a REMOTE pointer, with healthy = |pieces| - |missing|:
    when healthy < min it fails as irreparable and the meter
    repair_nodes_unavailable goes up by one; when healthy > repair it fails
    as unnecessary and the meter repair_unnecessary goes up by one; when
    healthy = repair the repair proceeds: the call is the rest of the
    repair, run on the healthy pieces. The last two cases come after the
    test healthy < min; they hold with min <= repair, as the redundancy
    scheme has it, and more generally whenever min <= healthy. *)
Theorem Repair_thresholds (sv : Services) (path : storj.Path) (st : State)
    (pointer : Pointer) (remote : RemoteSegment) (rs : RedundancyScheme)
    (redundancy : RedundancyStrategy) (missingPieces : list Z) :
  let pieces := GetRemotePieces (Some remote) in
  let healthy := len pieces - len missingPieces in
  pointers st !! path = Some pointer →
  Type_ pointer = REMOTE →
  Remote pointer = Some remote →
  Redundancy remote = Some rs →
  NewRedundancyStrategyFromProto sv (Some rs) = Ok redundancy →
  GetMissingPieces sv pieces = Ok missingPieces →
  - 2 ^ 31 <= healthy < 2 ^ 31 →
  (healthy < MinReq rs →
     (Repair sv path st).1 = Err (irreparable path) ∧
     meter "repair_nodes_unavailable" (meters (Repair sv path st).2)
       = meter "repair_nodes_unavailable" (meters st) + 1 ∧
     pointers (Repair sv path st).2 = pointers st) ∧
  (MinReq rs <= RepairThreshold rs ∨ MinReq rs <= healthy →
   healthy > RepairThreshold rs →
     (Repair sv path st).1 = Err (unnecessary path healthy (RepairThreshold rs)) ∧
     meter "repair_unnecessary" (meters (Repair sv path st).2)
       = meter "repair_unnecessary" (meters st) + 1 ∧
     pointers (Repair sv path st).2 = pointers st) ∧
  (MinReq rs <= RepairThreshold rs ∨ MinReq rs <= healthy →
   healthy = RepairThreshold rs →
     Repair sv path st =
       repairSegment sv path pointer remote rs redundancy
         (CalcPieceSize sv (SegmentSize pointer) redundancy) pieces missingPieces
         (mark "repair_attempts" st)).
Proof.
  intros pieces healthy Hget Htype Hremote Hrs Hstrategy Hmissing Hrange.
  rewrite (Repair_checks sv path st pointer remote rs redundancy missingPieces)
    by done.
  fold pieces healthy. repeat split.
  - destruct (Z.ltb_spec healthy (MinReq rs)); [done|lia].
  - destruct (Z.ltb_spec healthy (MinReq rs)); [|lia]. simpl.
    rewrite meter_Mark_eq, meter_Mark_ne; done.
  - destruct (Z.ltb_spec healthy (MinReq rs)); [done|lia].
  - destruct (Z.ltb_spec healthy (MinReq rs)); [lia|].
    destruct (Z.gtb_spec healthy (RepairThreshold rs)); [done|lia].
  - destruct (Z.ltb_spec healthy (MinReq rs)); [lia|].
    destruct (Z.gtb_spec healthy (RepairThreshold rs)); [|lia]. simpl.
    rewrite meter_Mark_eq, meter_Mark_ne; done.
  - destruct (Z.ltb_spec healthy (MinReq rs)); [lia|].
    destruct (Z.gtb_spec healthy (RepairThreshold rs)); [done|lia].
  - destruct (Z.ltb_spec healthy (MinReq rs)); [lia|].
    destruct (Z.gtb_spec healthy (RepairThreshold rs)); [lia|done].
Qed.

(** *** A repair that returns no error *)


Lemma markOutcome_pointers n rs st : pointers (markOutcome n rs st) = pointers st.
Proof. unfold markOutcome. by repeat case_match. Qed.

Lemma uploadAndStore_ok sv path pointer remote rs redundancy putLimits r healthy st st' :
  uploadAndStore sv path pointer remote rs redundancy putLimits r healthy st
    = (Ok (), st') →
  ∃ successfulNodes hashes pieces',
    ecRepair sv putLimits redundancy r (ExpirationDate pointer) path
      = Ok (successfulNodes, hashes) ∧
    appendUploaded 0 successfulNodes hashes healthy = Some pieces' ∧
    st' = repaired path pointer remote rs pieces' st.
Proof.
  unfold uploadAndStore, metainfoPut.
  destruct (ecRepair _ _ _ _ _ _) as [[successfulNodes hashes]|e|] eqn:Hrepair;
    [|by destruct (rClose sv r)|done].
  destruct (appendUploaded _ _ _ _) as [pieces'|] eqn:Happend; [|done].
  destruct (metainfoPutError _ _ _) eqn:Hput; simpl.
  { by destruct (rClose sv r). }
  destruct (rClose sv r); [done|]. intros [= <-].
  exists successfulNodes, hashes, pieces'. repeat split; try done.
  unfold repaired. by rewrite markOutcome_pointers.
Qed.

Lemma repairSegment_ok sv path pointer remote rs redundancy pieceSize pieces
    missingPieces st st' :
  repairSegment sv path pointer remote rs redundancy pieceSize pieces missingPieces st
    = (Ok (), st') →
  ∃ putLimits r successfulNodes hashes pieces',
    ecRepair sv putLimits redundancy r (ExpirationDate pointer) path
      = Ok (successfulNodes, hashes) ∧
    appendUploaded 0 successfulNodes hashes (healthyOf (sliceToSet missingPieces) pieces)
      = Some pieces' ∧
    st' = repaired path pointer remote rs pieces' st.
Proof.
  unfold repairSegment.
  destruct (createBucketID sv path) as [bucketID| |]; [|done..].
  destruct (CreateGetRepairOrderLimits _ _ _ _) as [getOrderLimits| |]; [|done..].
  destruct (FindStorageNodes _ _) as [newNodes| |]; [|done..].
  destruct (CreatePutRepairOrderLimits _ _ _ _ _) as [putLimits| |]; [|done..].
  destruct (ecGet _ _ _ _) as [rr| |]; [|done..].
  destruct (rrRange _ _ _ _) as [r| |]; [|done..].
  intros (successfulNodes & hashes & pieces' & ? & ? & ?)%uploadAndStore_ok.
  by exists putLimits, r, successfulNodes, hashes, pieces'.
Qed.

(** A call of [Repair] that returns no error read a REMOTE pointer, found
    its healthy count between [min] and [repair], and went through the
    rest of the repair. *)
Lemma Repair_ok sv path st st' :
  Repair sv path st = (Ok (), st') →
  ∃ pointer remote rs redundancy missingPieces,
    pointers st !! path = Some pointer ∧
    Type_ pointer = REMOTE ∧
    Remote pointer = Some remote ∧
    Redundancy remote = Some rs ∧
    GetMissingPieces sv (GetRemotePieces (Some remote)) = Ok missingPieces ∧
    repairSegment sv path pointer remote rs redundancy
      (CalcPieceSize sv (SegmentSize pointer) redundancy)
      (GetRemotePieces (Some remote)) missingPieces (mark "repair_attempts" st)
      = (Ok (), st').
Proof.
  unfold Repair, metainfoGet.
  destruct (pointers st !! path) as [pointer|] eqn:Hget; [|done].
  case_bool_decide as Htype; [done|].
  destruct (NewRedundancyStrategyFromProto _ _) as [redundancy| |]; [|done..].
  unfold GetRemote.
  destruct (GetMissingPieces _ _) as [missingPieces| |] eqn:Hmissing; [|done..].
  destruct (Remote pointer) as [remote|] eqn:Hremote; [|done]. simpl.
  destruct (Redundancy remote) as [rs|] eqn:Hrs; [|done]. simpl.
  destruct (_ <? _); [done|]. destruct (_ >? _); [done|].
  intros Hrepair. exists pointer, remote, rs, redundancy, missingPieces.
  repeat split; try done.
Qed.

Lemma markOutcome_meters n rs st :
  0 <= n → n < 2 ^ 31 →
  meters (markOutcome (int32 n) rs st) =
    if n <=? RepairThreshold rs then Mark "repair_failed" 1 (meters st)
    else if n <? SuccessThreshold rs then Mark "repair_partial" 1 (meters st)
    else Mark "repair_success" 1 (meters st).
Proof.
  intros Hn Hn'. rewrite int32_small by lia. unfold markOutcome.
  by repeat case_match.
Qed.

Lemma healthyOf_spec lost pieces piece :
  piece ∈ healthyOf lost pieces ↔ piece ∈ pieces ∧ PieceNum piece ∉ lost.
Proof. unfold healthyOf. rewrite list_elem_of_filter. tauto. Qed.

Lemma sliceToSet_spec slice (n : Z) : n ∈ sliceToSet slice ↔ n ∈ slice.
Proof. unfold sliceToSet. apply elem_of_list_to_set. Qed.

(** The pieces [appendUploaded] adds, written out: one piece for every
    node that is not nil, in the order of the nodes, numbered by the index
    of the node and carrying the hash at that index, which is there. *)
Lemma appendUploaded_exact successfulNodes : ∀ i hashes healthyPieces out,
  appendUploaded i successfulNodes hashes healthyPieces = Some out →
  out = healthyPieces ++
    omap id
      (imap (λ j (node : option Node),
               node ≫= λ node,
                 (λ h, {| PieceNum := int32 (Z.of_nat (i + j)); NodeId := Id node;
                          Hash := h |}) <$> hashes !! (i + j)%nat)
         successfulNodes) ∧
  ∀ (j : nat) node, successfulNodes !! j = Some (Some node) → is_Some (hashes !! (i + j)%nat).
Proof.
  induction successfulNodes as [|[node|] rest IH]; intros i hashes healthy out; simpl.
  - intros [= <-]. by rewrite app_nil_r.
  - destruct (hashes !! i) as [h|] eqn:Hh; [|done].
    intros [-> Hhashes]%IH. split.
    + rewrite Nat.add_0_r, Hh. simpl. rewrite <- app_assoc. simpl.
      do 3 f_equal. apply imap_ext. intros j x _. simpl.
      by rewrite <- plus_n_Sm.
    + intros [|j] node' Hj.
      * rewrite Nat.add_0_r. by eexists.
      * rewrite <- plus_n_Sm. by apply (Hhashes j node').
  - intros [-> Hhashes]%IH. split.
    + do 2 f_equal. apply imap_ext. intros j x _. simpl.
      by rewrite <- plus_n_Sm.
    + intros [|j] node' Hj; [done|].
      rewrite <- plus_n_Sm. by apply (Hhashes j node').
Qed.

(** The healthy pieces are the pieces whose number is not among the
    missing ones, in the order of the pointer. *)
Lemma healthyOf_filter missingPieces pieces :
  healthyOf (sliceToSet missingPieces) pieces
  = filter (λ piece, PieceNum piece ∉ missingPieces) pieces.
Proof.
  unfold healthyOf. apply list_filter_iff. intros piece.
  by rewrite sliceToSet_spec.
Qed.

(** C4. When Repair completes without error, the pointer stored at the
    path is the pointer read there with its pieces replaced: it carries
    the surviving pieces (those of the old pointer whose number was not
    reported missing, in their order) followed by one new piece for every
    node whose upload succeeded (numbered by the index of the node, with
    the node's ID and the hash at that index), and is the old pointer in
    every other field. The outcome meter marked is repair_success when
    |pieces| >= optimal, repair_partial when repair < |pieces| < optimal,
    repair_failed when |pieces| <= repair; and in all three cases the
    rewritten pointer is the one stored. The switch tests
    |pieces| <= repair first: success holds with repair < optimal, as the
    redundancy scheme has it, and more generally whenever
    repair < |pieces|. *)
Theorem Repair_completed (sv : Services) (path : storj.Path) (st st' : State) :
  Repair sv path st = (Ok (), st') →
  ∃ pointer remote rs missingPieces putLimits redundancy r successfulNodes hashes
    stored remote',
    pointers st !! path = Some pointer ∧
    Remote pointer = Some remote ∧
    Redundancy remote = Some rs ∧
    let pieces := default [] (RemotePieces remote) in
    GetMissingPieces sv pieces = Ok missingPieces ∧
    ecRepair sv putLimits redundancy r (ExpirationDate pointer) path
      = Ok (successfulNodes, hashes) ∧
    (∀ (i : nat) node, successfulNodes !! i = Some (Some node) → is_Some (hashes !! i)) ∧
    let surviving := filter (λ piece, PieceNum piece ∉ missingPieces) pieces in
    let new :=
      omap id
        (imap (λ (i : nat) (node : option Node),
                 node ≫= λ node,
                   (λ h, {| PieceNum := int32 (Z.of_nat i); NodeId := Id node;
                            Hash := h |}) <$> hashes !! i)
           successfulNodes) in
    let pieces' := surviving ++ new in
    let attempted :=
      <["repair_attempts" := default 0 (meters st !! "repair_attempts") + 1]> (meters st) in
    let marked (outcome : string) :=
      <[outcome := default 0 (meters st !! outcome) + 1]> attempted in
    pointers st' = <[path := stored]> (pointers st) ∧
    Type_ stored = Type_ pointer ∧
    InlineSegment stored = InlineSegment pointer ∧
    SegmentSize stored = SegmentSize pointer ∧
    ExpirationDate stored = ExpirationDate pointer ∧
    Metadata stored = Metadata pointer ∧
    Remote stored = Some remote' ∧
    Redundancy remote' = Some rs ∧
    RootPieceId remote' = RootPieceId remote ∧
    default [] (RemotePieces remote') = pieces' ∧
    (len pieces' < 2 ^ 31 →
       (RepairThreshold rs < SuccessThreshold rs ∨ RepairThreshold rs < len pieces' →
        len pieces' >= SuccessThreshold rs →
          meters st' = marked "repair_success") ∧
       (RepairThreshold rs < len pieces' < SuccessThreshold rs →
          meters st' = marked "repair_partial") ∧
       (len pieces' <= RepairThreshold rs →
          meters st' = marked "repair_failed")).
Proof.
  intros (pointer & remote & rs & redundancy & missingPieces & Hget & _ & Hremote
          & Hrs & Hmissing & Hrepair)%Repair_ok.
  apply repairSegment_ok in Hrepair
    as (putLimits & r & successfulNodes & hashes & pieces' & Hec & Happend & ->).
  apply appendUploaded_exact in Happend as [-> Hhashes].
  rewrite healthyOf_filter. cbn [Nat.add] in *.
  unfold GetRemotePieces in *. cbn [mbind option_bind] in *.
  set (pieces' := filter _ _ ++ omap id _).
  exists pointer, remote, rs, missingPieces, putLimits, redundancy, r,
    successfulNodes, hashes, (setRemotePieces pointer remote pieces'),
    {| Redundancy := Redundancy remote; RootPieceId := RootPieceId remote;
       RemotePieces := appended pieces' |}.
  cbv zeta. fold pieces'.
  split_and!; try done.
  - apply default_appended.
  - intros Hlen. simpl. rewrite (markOutcome_meters _ _ _ (len_nonneg _) Hlen).
    unfold Mark, meter.
    set (attempted := <["repair_attempts" := _]> (meters st)).
    assert (∀ outcome : string, outcome ≠ "repair_attempts" →
              attempted !! outcome = meters st !! outcome) as Hother
      by (intros outcome Hne; unfold attempted; by rewrite lookup_insert_ne).
    split_and!; intros; repeat case_match; try lia; by rewrite Hother.
Qed.

(** Of the three outcome meters, the switch marks repair_failed exactly
    when the number of pieces is at most the repair threshold. *)
Lemma markOutcome_failed n rs st :
  (n <= RepairThreshold rs →
   meter "repair_failed" (meters (markOutcome n rs st))
     = meter "repair_failed" (meters st) + 1) ∧
  (n > RepairThreshold rs →
   meter "repair_failed" (meters (markOutcome n rs st))
     = meter "repair_failed" (meters st)).
Proof.
  unfold markOutcome.
  destruct (Z.leb_spec n (RepairThreshold rs)); simpl.
  { split; [|lia]. intros _. apply meter_Mark_eq. }
  split; [lia|]. intros _.
  destruct (Z.ltb_spec n (SuccessThreshold rs)); simpl; by rewrite meter_Mark_ne.
Qed.

(** C5, as the code has it. Repair returns without error also when the
    repair gained too little: the switch then marks repair_failed, the
    pointer is stored all the same and the call returns nil. For a
    pointer P, if Repair returns without error, the pointer P' stored
    afterwards keeps the redundancy scheme and every piece of P that was
    not reported missing (its pieces are these, in their order, followed
    by the new ones); and |P'.pieces| > repair holds exactly when the
    call did not mark repair_failed, while |P'.pieces| <= repair holds
    exactly when it did. The premise |pieces| <= repair is not needed. *)
Theorem Repair_monotone (sv : Services) (path : storj.Path) (st st' : State)
    (P : Pointer) (remote : RemoteSegment) (rs : RedundancyScheme) :
  pointers st !! path = Some P →
  Remote P = Some remote →
  Redundancy remote = Some rs →
  Repair sv path st = (Ok (), st') →
  ∃ P' remote' missingPieces,
    GetMissingPieces sv (default [] (RemotePieces remote)) = Ok missingPieces ∧
    pointers st' !! path = Some P' ∧
    Remote P' = Some remote' ∧
    Redundancy remote' = Some rs ∧
    (∀ piece, piece ∈ default [] (RemotePieces remote) →
              PieceNum piece ∉ missingPieces →
              piece ∈ default [] (RemotePieces remote')) ∧
    (∃ new,
       default [] (RemotePieces remote')
       = filter (λ piece, PieceNum piece ∉ missingPieces)
           (default [] (RemotePieces remote)) ++ new) ∧
    (len (default [] (RemotePieces remote')) < 2 ^ 31 →
     (len (default [] (RemotePieces remote')) > RepairThreshold rs ↔
      meter "repair_failed" (meters st') = meter "repair_failed" (meters st)) ∧
     (len (default [] (RemotePieces remote')) <= RepairThreshold rs ↔
      meter "repair_failed" (meters st') = meter "repair_failed" (meters st) + 1)).
Proof.
  intros Hget Hremote Hrs Hrepair.
  apply Repair_ok in Hrepair
    as (pointer & remote0 & rs0 & redundancy & missingPieces & Hget' & _ & Hremote'
        & Hrs' & Hmissing & Hrepair).
  assert (pointer = P) as -> by congruence.
  assert (remote0 = remote) as -> by congruence.
  assert (rs0 = rs) as -> by congruence.
  apply repairSegment_ok in Hrepair
    as (putLimits & r & successfulNodes & hashes & pieces' & Hec & Happend & ->).
  apply appendUploaded_spec in Happend as (new & -> & Hnew).
  unfold GetRemotePieces in *. cbn [mbind option_bind] in *.
  set (pieces' := healthyOf _ _ ++ new) in *.
  exists (setRemotePieces P remote pieces'),
    {| Redundancy := Redundancy remote; RootPieceId := RootPieceId remote;
       RemotePieces := appended pieces' |}, missingPieces.
  cbn [RemotePieces]. rewrite default_appended.
  split_and!; try done.
  - simpl. by rewrite lookup_insert_eq.
  - intros piece Hin Hhealthy. apply elem_of_app. left.
    apply healthyOf_spec. split; [done|]. by rewrite sliceToSet_spec.
  - exists new. unfold pieces'. by rewrite healthyOf_filter.
  - intros Hlen. cbn [repaired meters].
    rewrite int32_small by (pose proof (len_nonneg pieces'); lia).
    destruct (markOutcome_failed (len pieces') rs (mark "repair_attempts" st))
      as [Hfailed Hpassed].
    assert (meter "repair_failed" (meters (mark "repair_attempts" st))
            = meter "repair_failed" (meters st)) as Hsame
      by (simpl; by rewrite meter_Mark_ne).
    rewrite Hsame in Hfailed, Hpassed.
    destruct (Z.le_gt_cases (len pieces') (RepairThreshold rs)) as [Hle|Hgt].
    + rewrite (Hfailed Hle). lia.
    + rewrite (Hpassed ltac:(lia)). lia.
Qed.

(** *** Runs on the segment of scheme (3, 3, 5, 6) *)

Import Examples.

(** C3 at work: four pieces of which two are missing are irreparable,
    four healthy pieces need no repair, and with one of four missing the
    three healthy pieces are repaired. *)
Lemma Repair_thresholds_witness :
  ((Repair (repairServices [0; 1] []) repairPath (repairState 4)).1
     = Err (irreparable repairPath) ∧
   meter "repair_nodes_unavailable"
     (meters (Repair (repairServices [0; 1] []) repairPath (repairState 4)).2)
     = meter "repair_nodes_unavailable" (meters (repairState 4)) + 1 ∧
   pointers (Repair (repairServices [0; 1] []) repairPath (repairState 4)).2
     = pointers (repairState 4)) ∧
  ((Repair (repairServices [] []) repairPath (repairState 4)).1
     = Err (unnecessary repairPath 4 3) ∧
   meter "repair_unnecessary"
     (meters (Repair (repairServices [] []) repairPath (repairState 4)).2)
     = meter "repair_unnecessary" (meters (repairState 4)) + 1 ∧
   pointers (Repair (repairServices [] []) repairPath (repairState 4)).2
     = pointers (repairState 4)) ∧
  Repair (repairServices [0] threeUploads) repairPath (repairState 4)
    = repairSegment (repairServices [0] threeUploads) repairPath
        (remotePointer repairScheme (pieceOn <$> seq 0 4)) (repairRemote 4) repairScheme
        repairStrategy 4096 (pieceOn <$> seq 0 4) [0]
        (mark "repair_attempts" (repairState 4)).
Proof.
  split; [|split].
  - destruct (Repair_thresholds (repairServices [0; 1] []) repairPath (repairState 4)
                (remotePointer repairScheme (pieceOn <$> seq 0 4)) (repairRemote 4)
                repairScheme repairStrategy [0; 1]
                eq_refl eq_refl eq_refl eq_refl eq_refl eq_refl)
      as (Hirreparable & _ & _); [unfold len; simpl; lia|].
    apply Hirreparable. unfold len. simpl. lia.
  - destruct (Repair_thresholds (repairServices [] []) repairPath (repairState 4)
                (remotePointer repairScheme (pieceOn <$> seq 0 4)) (repairRemote 4)
                repairScheme repairStrategy []
                eq_refl eq_refl eq_refl eq_refl eq_refl eq_refl)
      as (_ & Hunnecessary & _); [unfold len; simpl; lia|].
    apply Hunnecessary; unfold len; simpl; lia.
  - destruct (Repair_thresholds (repairServices [0] threeUploads) repairPath
                (repairState 4)
                (remotePointer repairScheme (pieceOn <$> seq 0 4)) (repairRemote 4)
                repairScheme repairStrategy [0]
                eq_refl eq_refl eq_refl eq_refl eq_refl eq_refl)
      as (_ & _ & Hproceeds); [unfold len; simpl; lia|].
    refine (Hproceeds _ _); unfold len; simpl; lia.
Defined.


(** C4 at work, on three healthy pieces and three successful uploads. *)
Lemma Repair_completed_witness :
  repairedRun.1 = Ok () ∧
  ∃ pointer remote rs missingPieces putLimits redundancy r successfulNodes hashes
    stored remote',
    pointers (repairState 3) !! repairPath = Some pointer ∧
    Remote pointer = Some remote ∧
    Redundancy remote = Some rs ∧
    let pieces := default [] (RemotePieces remote) in
    GetMissingPieces (repairServices [] threeUploads) pieces = Ok missingPieces ∧
    ecRepair (repairServices [] threeUploads) putLimits redundancy r
      (ExpirationDate pointer) repairPath
      = Ok (successfulNodes, hashes) ∧
    (∀ (i : nat) node, successfulNodes !! i = Some (Some node) → is_Some (hashes !! i)) ∧
    let surviving := filter (λ piece, PieceNum piece ∉ missingPieces) pieces in
    let new :=
      omap id
        (imap (λ (i : nat) (node : option Node),
                 node ≫= λ node,
                   (λ h, {| PieceNum := int32 (Z.of_nat i); NodeId := Id node;
                            Hash := h |}) <$> hashes !! i)
           successfulNodes) in
    let pieces' := surviving ++ new in
    let attempted :=
      <["repair_attempts" := default 0 (meters (repairState 3) !! "repair_attempts") + 1]>
        (meters (repairState 3)) in
    let marked (outcome : string) :=
      <[outcome := default 0 (meters (repairState 3) !! outcome) + 1]> attempted in
    pointers repairedRun.2 = <[repairPath := stored]> (pointers (repairState 3)) ∧
    Type_ stored = Type_ pointer ∧
    InlineSegment stored = InlineSegment pointer ∧
    SegmentSize stored = SegmentSize pointer ∧
    ExpirationDate stored = ExpirationDate pointer ∧
    Metadata stored = Metadata pointer ∧
    Remote stored = Some remote' ∧
    Redundancy remote' = Some rs ∧
    RootPieceId remote' = RootPieceId remote ∧
    default [] (RemotePieces remote') = pieces' ∧
    (len pieces' < 2 ^ 31 →
       (RepairThreshold rs < SuccessThreshold rs ∨ RepairThreshold rs < len pieces' →
        len pieces' >= SuccessThreshold rs →
          meters repairedRun.2 = marked "repair_success") ∧
       (RepairThreshold rs < len pieces' < SuccessThreshold rs →
          meters repairedRun.2 = marked "repair_partial") ∧
       (len pieces' <= RepairThreshold rs →
          meters repairedRun.2 = marked "repair_failed")).
Proof.
  split; [by vm_compute|].
  exact (Repair_completed (repairServices [] threeUploads) repairPath (repairState 3)
           repairedRun.2 ltac:(by vm_compute)).
Defined.

(** C5 fails on a pointer with three pieces under the scheme
    (2, 4, 5, 6), none of them missing, when one upload succeeds: Repair
    returns nil, and the pointer it stored has four pieces, which is the
    repair threshold and not more. *)
Lemma Repair_nil_at_repair_threshold :
  pointers (wideState 3) !! repairPath
    = Some (remotePointer wideScheme (pieceOn <$> seq 0 3)) ∧
  len (pieceOn <$> seq 0 3) <= RepairThreshold wideScheme ∧
  (Repair (repairServices [] oneUpload) repairPath (wideState 3)).1 = Ok () ∧
  meter "repair_failed"
    (meters (Repair (repairServices [] oneUpload) repairPath (wideState 3)).2) = 1 ∧
  ∃ P',
    pointers (Repair (repairServices [] oneUpload) repairPath (wideState 3)).2 !! repairPath
      = Some P' ∧
    len (GetRemotePieces (Remote P')) = 4 ∧
    ¬ len (GetRemotePieces (Remote P')) > RepairThreshold wideScheme.
Proof.
  split_and!; try by vm_compute.
  eexists. split; [by vm_compute|]. split; [by vm_compute|]. by vm_compute.
Qed.

(** C5 at work, on the run that gained too little: the three pieces are
    kept, the stored pointer has no more pieces than the repair threshold,
    and repair_failed was marked. *)
Lemma Repair_monotone_witness :
  ∃ P' remote' missingPieces,
    GetMissingPieces (repairServices [] oneUpload) (pieceOn <$> seq 0 3)
      = Ok missingPieces ∧
    pointers (Repair (repairServices [] oneUpload) repairPath (wideState 3)).2 !! repairPath
      = Some P' ∧
    Remote P' = Some remote' ∧
    Redundancy remote' = Some wideScheme ∧
    (∀ piece, piece ∈ pieceOn <$> seq 0 3 →
              PieceNum piece ∉ missingPieces →
              piece ∈ default [] (RemotePieces remote')) ∧
    (∃ new,
       default [] (RemotePieces remote')
       = filter (λ piece, PieceNum piece ∉ missingPieces) (pieceOn <$> seq 0 3) ++ new) ∧
    (len (default [] (RemotePieces remote')) < 2 ^ 31 →
     (len (default [] (RemotePieces remote')) > RepairThreshold wideScheme ↔
      meter "repair_failed"
        (meters (Repair (repairServices [] oneUpload) repairPath (wideState 3)).2)
        = meter "repair_failed" (meters (wideState 3))) ∧
     (len (default [] (RemotePieces remote')) <= RepairThreshold wideScheme ↔
      meter "repair_failed"
        (meters (Repair (repairServices [] oneUpload) repairPath (wideState 3)).2)
        = meter "repair_failed" (meters (wideState 3)) + 1)).
Proof.
  refine (Repair_monotone (repairServices [] oneUpload) repairPath (wideState 3)
            (Repair (repairServices [] oneUpload) repairPath (wideState 3)).2
            (remotePointer wideScheme (pieceOn <$> seq 0 3))
            {| Redundancy := Some wideScheme; RootPieceId := 7%N;
               RemotePieces := Some (pieceOn <$> seq 0 3) |}
            wideScheme _ _ _ _).
  - reflexivity.
  - reflexivity.
  - reflexivity.
  - by vm_compute.
Defined.

End RepairerSpec.

(** ** The audit verifier *)

Module AuditSpec.
Import audit.

Section Verify.
Context (sv : Services).

(** *** The downloads *)


Lemma limitFor_nil i k : limitFor i [] k = None.
Proof. unfold limitFor. by case_match. Qed.

Lemma limitFor_cons i x rest k :
  limitFor i (x :: rest) k = if k =? i then x else limitFor (i + 1) rest k.
Proof.
  unfold limitFor.
  destruct (Z.eqb_spec k i) as [->|Hne].
  - rewrite Z.ltb_irrefl, Z.sub_diag. simpl. by destruct x.
  - destruct (Z.ltb_spec k i), (Z.ltb_spec k (i + 1)); try lia; [done|].
    replace (Z.to_nat (k - i)) with (S (Z.to_nat (k - (i + 1)))) by lia. done.
Qed.

Lemma GetShare_ok limit stripeIndex shareSize i share :
  GetShare sv limit stripeIndex shareSize i = inr share →
  Error share = None ∧ PieceNum share = i.
Proof.
  unfold GetShare. destruct (dialNode sv _); [done|].
  destruct (readShare sv _ _ _); [done|]. by intros [= <-].
Qed.

Lemma shareOf_PieceNum limit stripeIndex shareSize i :
  PieceNum (shareOf sv limit stripeIndex shareSize i) = i.
Proof.
  unfold shareOf, GetShare. destruct (dialNode sv _); [done|].
  by destruct (readShare sv _ _ _).
Qed.

Lemma downloadFrom_lookup stripeIndex shareSize limits :
  ∀ i shares nodes k,
    let out := downloadFrom sv i limits stripeIndex shareSize shares nodes in
    out.1 !! k = match limitFor i limits k with
                 | Some limit => Some (shareOf sv limit stripeIndex shareSize k)
                 | None => shares !! k
                 end ∧
    out.2 !! k = match limitFor i limits k with
                 | Some limit => Some (StorageNodeId (Limit limit))
                 | None => nodes !! k
                 end.
Proof.
  induction limits as [|[limit|] rest IH]; intros i shares nodes k; simpl.
  - by rewrite limitFor_nil.
  - rewrite limitFor_cons. fold (shareOf sv limit stripeIndex shareSize i).
    rewrite shareOf_PieceNum.
    destruct (IH (i + 1) (<[i := shareOf sv limit stripeIndex shareSize i]> shares)
                (<[i := StorageNodeId (Limit limit)]> nodes) k) as [-> ->].
    destruct (Z.eqb_spec k i) as [->|Hne].
    + assert (limitFor (i + 1) rest i = None) as ->
        by (unfold limitFor; destruct (Z.ltb_spec i (i + 1)); [done|lia]).
      by rewrite !lookup_insert_eq.
    + destruct (limitFor (i + 1) rest k); [done|].
      by rewrite !lookup_insert_ne.
  - rewrite limitFor_cons. destruct (IH (i + 1) shares nodes k) as [-> ->].
    destruct (Z.eqb_spec k i) as [->|Hne]; [|done].
    assert (limitFor (i + 1) rest i = None) as ->
      by (unfold limitFor; destruct (Z.ltb_spec i (i + 1)); [done|lia]).
    done.
Qed.

(** [DownloadShares] holds, under the index of every non-nil limit, the
    share downloaded with it and the node of the limit, and nothing else. *)
Lemma DownloadShares_lookup limits stripeIndex shareSize k :
  let out := DownloadShares sv limits stripeIndex shareSize in
  out.1 !! k = (λ limit, shareOf sv limit stripeIndex shareSize k) <$> limitFor 0 limits k ∧
  out.2 !! k = (λ limit, StorageNodeId (Limit limit)) <$> limitFor 0 limits k.
Proof.
  unfold DownloadShares.
  destruct (downloadFrom_lookup stripeIndex shareSize limits 0 ∅ ∅ k) as [-> ->].
  by destruct (limitFor 0 limits k).
Qed.

Lemma limitFor_index limits (i : nat) :
  limitFor 0 limits (Z.of_nat i) = mjoin (limits !! i).
Proof.
  unfold limitFor. destruct (Z.ltb_spec (Z.of_nat i) 0); [lia|].
  by rewrite Z.sub_0_r, Nat2Z.id.
Qed.

Lemma limitFor_Some limits k limit :
  limitFor 0 limits k = Some limit →
  ∃ i : nat, k = Z.of_nat i ∧ limits !! i = Some (Some limit).
Proof.
  unfold limitFor. destruct (Z.ltb_spec k 0); [done|]. rewrite Z.sub_0_r.
  intros Hk. exists (Z.to_nat k). split; [lia|].
  destruct (limits !! Z.to_nat k) as [[?|]|]; simpl in Hk; congruence.
Qed.


(** *** The classification of the downloads *)


Lemma classified_snoc nodes entries entry :
  classified nodes (entries ++ [entry])
    = classifyShare nodes (classified nodes entries) entry.
Proof. unfold classified. by rewrite foldl_app. Qed.

Lemma classified_offline nodes entries id :
  id ∈ (classified nodes entries).1.1 ↔
  ∃ pieceNum share e,
    (pieceNum, share) ∈ entries ∧ Error share = Some e ∧ containable e = false ∧
    id = nodeAt nodes pieceNum.
Proof.
  induction entries as [|[k s] entries IH] using rev_ind.
  - split; [by intros ?%elem_of_nil|]. by intros (? & ? & ? & ?%elem_of_nil & _).
  - rewrite classified_snoc.
    destruct (classified nodes entries) as [[off cont] aud]. simpl in *.
    destruct (Error s) as [e|] eqn:He; [destruct (containable e) eqn:Hc|]; simpl.
    + rewrite IH. split.
      * intros (pn & sh & e' & Hin & ? & ? & ?).
        exists pn, sh, e'. rewrite elem_of_app. tauto.
      * intros (pn & sh & e' & [Hin|Hin%list_elem_of_singleton]%elem_of_app & ? & ? & ?).
        -- by exists pn, sh, e'.
        -- simplify_eq; congruence.
    + rewrite elem_of_app, IH, list_elem_of_singleton. split.
      * intros [(pn & sh & e' & Hin & ? & ? & ?)| ->].
        -- exists pn, sh, e'. rewrite elem_of_app. tauto.
        -- exists k, s, e. rewrite elem_of_app, list_elem_of_singleton. tauto.
      * intros (pn & sh & e' & [Hin|Hin%list_elem_of_singleton]%elem_of_app & ? & ? & ?).
        -- left. by exists pn, sh, e'.
        -- right. by simplify_eq.
    + rewrite IH. split.
      * intros (pn & sh & e' & Hin & ? & ? & ?).
        exists pn, sh, e'. rewrite elem_of_app. tauto.
      * intros (pn & sh & e' & [Hin|Hin%list_elem_of_singleton]%elem_of_app & ? & ? & ?).
        -- by exists pn, sh, e'.
        -- simplify_eq; congruence.
Qed.

Lemma classified_contained nodes entries pieceNum id :
  (classified nodes entries).1.2 !! pieceNum = Some id ↔
  ∃ share e,
    (pieceNum, share) ∈ entries ∧ Error share = Some e ∧ containable e = true ∧
    id = nodeAt nodes pieceNum.
Proof.
  induction entries as [|[k s] entries IH] using rev_ind.
  - split; [done|]. by intros (? & ? & ?%elem_of_nil & _).
  - rewrite classified_snoc.
    destruct (classified nodes entries) as [[off cont] aud]. simpl in *.
    destruct (Error s) as [e|] eqn:He; [destruct (containable e) eqn:Hc|]; simpl.
    + destruct (decide (k = pieceNum)) as [->|Hne].
      * rewrite lookup_insert_eq. split.
        -- intros [= <-]. exists s, e.
           rewrite elem_of_app, list_elem_of_singleton. tauto.
        -- by intros (? & ? & _ & _ & _ & ->).
      * rewrite lookup_insert_ne by done. rewrite IH. split.
        -- intros (sh & e' & Hin & ? & ? & ?).
           exists sh, e'. rewrite elem_of_app. tauto.
        -- intros (sh & e' & [Hin|Hin%list_elem_of_singleton]%elem_of_app & ? & ? & ?).
           ++ by exists sh, e'.
           ++ simplify_eq; congruence.
    + rewrite IH. split.
      * intros (sh & e' & Hin & ? & ? & ?).
        exists sh, e'. rewrite elem_of_app. tauto.
      * intros (sh & e' & [Hin|Hin%list_elem_of_singleton]%elem_of_app & ? & ? & ?).
        -- by exists sh, e'.
        -- simplify_eq; congruence.
    + rewrite IH. split.
      * intros (sh & e' & Hin & ? & ? & ?).
        exists sh, e'. rewrite elem_of_app. tauto.
      * intros (sh & e' & [Hin|Hin%list_elem_of_singleton]%elem_of_app & ? & ? & ?).
        -- by exists sh, e'.
        -- simplify_eq; congruence.
Qed.

Lemma classified_toAudit nodes entries pieceNum share :
  NoDup entries.*1 →
  (classified nodes entries).2 !! pieceNum = Some share ↔
  (pieceNum, share) ∈ entries ∧ Error share = None.
Proof.
  induction entries as [|[k s] entries IH] using rev_ind; intros Hnodup.
  - split; [done|]. by intros [?%elem_of_nil _].
  - rewrite fmap_app in Hnodup. apply NoDup_app in Hnodup as (Hnd & Hfresh & _).
    specialize (IH Hnd). rewrite classified_snoc.
    destruct (classified nodes entries) as [[off cont] aud]. simpl in *.
    destruct (Error s) as [e|] eqn:He; [destruct (containable e) eqn:Hc|]; simpl.
    1,2: rewrite IH, elem_of_app, list_elem_of_singleton; split;
      [tauto | intros [[?|?] ?]; [done | simplify_eq; congruence]].
    destruct (decide (k = pieceNum)) as [->|Hne].
    + rewrite lookup_insert_eq. split.
      * intros [= <-]. rewrite elem_of_app, list_elem_of_singleton. tauto.
      * intros [[Hin|Hin%list_elem_of_singleton]%elem_of_app _]; [|by simplify_eq].
        exfalso. apply (Hfresh pieceNum); [|simpl; left].
        apply list_elem_of_fmap. by exists (pieceNum, share).
    + rewrite lookup_insert_ne by done. rewrite IH, elem_of_app, list_elem_of_singleton.
      split; [tauto|]. intros [[?|?] ?]; [done | simplify_eq; congruence].
Qed.

(** What the loop of [Verify] leaves in its three collections. *)
Lemma classifyShares_offline shares nodes id :
  id ∈ (classifyShares shares nodes).1.1 ↔
  ∃ pieceNum share e,
    shares !! pieceNum = Some share ∧ Error share = Some e ∧ containable e = false ∧
    id = nodeAt nodes pieceNum.
Proof.
  unfold classifyShares. fold (classified nodes (map_to_list shares)).
  rewrite classified_offline.
  by setoid_rewrite elem_of_map_to_list.
Qed.

Lemma classifyShares_contained shares nodes pieceNum id :
  (classifyShares shares nodes).1.2 !! pieceNum = Some id ↔
  ∃ share e,
    shares !! pieceNum = Some share ∧ Error share = Some e ∧ containable e = true ∧
    id = nodeAt nodes pieceNum.
Proof.
  unfold classifyShares. fold (classified nodes (map_to_list shares)).
  rewrite classified_contained.
  by setoid_rewrite elem_of_map_to_list.
Qed.

Lemma classifyShares_toAudit shares nodes pieceNum share :
  (classifyShares shares nodes).2 !! pieceNum = Some share ↔
  shares !! pieceNum = Some share ∧ Error share = None.
Proof.
  unfold classifyShares. fold (classified nodes (map_to_list shares)).
  rewrite classified_toAudit by apply NoDup_fst_map_to_list.
  by rewrite elem_of_map_to_list.
Qed.


(** *** The report of [Verify] *)


Lemma contacted_spec limits id :
  id ∈ contacted limits ↔
  ∃ (i : nat) limit, limits !! i = Some (Some limit) ∧ id = StorageNodeId (Limit limit).
Proof.
  unfold contacted. rewrite list_elem_of_fmap. setoid_rewrite list_elem_of_omap.
  setoid_rewrite list_elem_of_lookup. split.
  - intros (limit & -> & [limit'|] & [i Hi] & [= ->]). by exists i, limit.
  - intros (i & limit & Hi & ->). exists limit. split; [done|].
    exists (Some limit). split; [by exists i|done].
Qed.

(** With distinct nodes behind the limits, a node tells its index. *)
Lemma contacted_inj limits (i j : nat) limit limit' :
  NoDup (contacted limits) →
  limits !! i = Some (Some limit) → limits !! j = Some (Some limit') →
  StorageNodeId (Limit limit) = StorageNodeId (Limit limit') → i = j.
Proof.
  unfold contacted. revert i j.
  induction limits as [|[l|] rest IH]; intros i j Hnd Hi Hj Heq; [done|..].
  - simpl in Hnd. apply NoDup_cons in Hnd as [Hfresh Hnd].
    destruct i as [|i], j as [|j]; simpl in *; simplify_eq; try done.
    + destruct Hfresh. apply (contacted_spec rest). exists j, limit'. by rewrite Heq.
    + destruct Hfresh. apply (contacted_spec rest). by exists i, limit.
    + f_equal. by apply IH.
  - destruct i as [|i], j as [|j]; simpl in *; simplify_eq.
    f_equal. by apply IH.
Qed.

Lemma getSuccessNodes_spec nodes failedNodes offlineNodes containedNodes id :
  id ∈ getSuccessNodes nodes failedNodes offlineNodes containedNodes ↔
  (∃ pieceNum, nodes !! pieceNum = Some id) ∧
  (id ∉ failedNodes) ∧ (id ∉ offlineNodes) ∧
  ¬ (∃ pieceNum, containedNodes !! pieceNum = Some id).
Proof.
  unfold getSuccessNodes. rewrite list_elem_of_filter, !not_elem_of_union.
  rewrite !elem_of_list_to_set, !list_elem_of_fmap.
  assert (∀ m : gmap Z storj.NodeID,
            (∃ entry : Z * storj.NodeID, id = entry.2 ∧ entry ∈ map_to_list m)
            ↔ ∃ pieceNum, m !! pieceNum = Some id) as Hvalues.
  { intros m. split.
    - intros ([k v] & -> & Hin%elem_of_map_to_list). by exists k.
    - intros [k Hk]. exists (k, id). by rewrite elem_of_map_to_list. }
  rewrite !Hvalues. tauto.
Qed.

(** The shares [auditShares] reports as altered are among those given. *)
Lemma auditShares_pieceNums required total originals pieceNums corrected :
  CorrectKeepsNumbers sv →
  (∀ k share, originals !! k = Some share → PieceNum share = k) →
  auditShares sv required total originals = Ok (pieceNums, corrected) →
  ∀ pieceNum, pieceNum ∈ pieceNums → is_Some (originals !! pieceNum).
Proof.
  intros Hkeeps Hkeys. unfold auditShares.
  destruct (NewFEC sv required total) as [f| |]; [simpl|done..].
  destruct (Correct sv f (makeCopies originals)) as [copies| |] eqn:Hcorrect;
    [simpl|done..].
  intros [= <- <-] pieceNum (share & -> & [_ Hin]%list_elem_of_filter)%list_elem_of_fmap.
  apply Hkeeps in Hcorrect.
  assert (infectious.Number share ∈ infectious.Number <$> makeCopies originals)
    as (copy & Hnumber & ([k original] & -> & Hk%elem_of_map_to_list)%list_elem_of_fmap)
         %list_elem_of_fmap.
  { apply Hcorrect, list_elem_of_fmap. by exists share. }
  simpl in Hnumber. rewrite Hnumber, (Hkeys _ _ Hk). by exists original.
Qed.

(** What a report of [Verify] is made of. *)
Lemma Verify_returned stripe skip report e :
  Verify sv stripe skip = Returned (Some report) e →
  ∃ limits remote,
    CreateAuditOrderLimits sv (createBucketID sv (SegmentPath stripe)) (Segment stripe) skip
      = Ok limits ∧
    Remote (Segment stripe) = Some remote ∧
    let shareSize := GetErasureShareSize (GetRedundancy (GetRemote (Segment stripe))) in
    let downloads := DownloadShares sv limits (Index stripe) shareSize in
    let classes := classifyShares downloads.1 downloads.2 in
    Offlines report = classes.1.1 ∧
    (e = None →
     ∃ pieceNums corrected,
       auditShares sv (GetMinReq (Redundancy remote)) (GetTotal (Redundancy remote))
         classes.2 = Ok (pieceNums, corrected) ∧
       Fails report = nodeAt downloads.2 <$> pieceNums ∧
       Successes report =
         getSuccessNodes downloads.2 (Fails report) classes.1.1 classes.1.2 ∧
       createPendingAudits sv classes.1.2 corrected stripe = Ok (PendingAudits report)).
Proof.
  unfold Verify.
  destruct (CreateAuditOrderLimits _ _ _ _) as [limits| |]; [|done..].
  destruct (DownloadShares _ _ _ _) as [shares nodes] eqn:Hdownloads.
  destruct (classifyShares shares nodes) as [[off cont] aud] eqn:Hclasses.
  destruct (Remote (Segment stripe)) as [remote|]; [|done].
  intros Hverify. exists limits, remote. split; [done|]. split; [done|].
  simpl. rewrite Hdownloads. simpl. rewrite Hclasses. simpl.
  destruct (_ <? _); [by simplify_eq|].
  destruct (auditShares _ _ _ _) as [[pieceNums corrected]| |]; [|by simplify_eq|done].
  destruct (createPendingAudits _ _ _ _) as [pendingAudits| |] eqn:Hpending; [| |done].
  - injection Hverify as <- <-. split; [done|]. intros _.
    by exists pieceNums, corrected.
  - by injection Hverify as <- <-.
Qed.


(** *** [Reverify] *)


Lemma withStatus_snoc s results r :
  withStatus s (results ++ [r])
    = withStatus s results ++ (if decide (status_ r = s) then [nodeID r] else []).
Proof.
  unfold withStatus. rewrite filter_app, fmap_app. f_equal.
  rewrite filter_cons, filter_nil. by case_decide.
Qed.

Lemma collect_snoc received r :
  collect (received ++ [r]) = collectResult (collect received) r.
Proof. unfold collect. by rewrite foldl_app. Qed.

(** The loop that receives from the channel sorts the node IDs by status
    and adds one pending audit per contained result. *)
Lemma collect_spec received :
  Successes (collect received).1 = withStatus success received ∧
  Fails (collect received).1 = withStatus failed received ∧
  Offlines (collect received).1 = withStatus offline received ∧
  PendingAudits (collect received).1
    = pendingAudit <$> filter (λ r, status_ r = contained) received.
Proof.
  induction received as [|r received IH] using rev_ind; [done|].
  rewrite collect_snoc, !withStatus_snoc, filter_app, fmap_app, filter_cons, filter_nil.
  destruct (collect received) as [report e]. destruct IH as (IH1 & IH2 & IH3 & IH4).
  simpl in *. unfold collectResult.
  destruct (status_ r); simpl; rewrite ?app_nil_r; by rewrite ?IH1, ?IH2, ?IH3, ?IH4.
Qed.

Lemma reverifyPiece_nodeID stripe piece :
  nodeID (reverifyPiece sv stripe piece) = NodeId piece.
Proof. unfold reverifyPiece, resultOf. by repeat case_match. Qed.

Lemma reverifyPiece_pendingAudit stripe piece :
  pendingAudit (reverifyPiece sv stripe piece) = None.
Proof. unfold reverifyPiece, resultOf. by repeat case_match. Qed.

Lemma withStatus_sent stripe s received id :
  received ≡ₚ sent sv stripe →
  id ∈ withStatus s received ↔
  ∃ piece, piece ∈ GetRemotePieces (GetRemote (Segment stripe)) ∧
           NodeId piece = id ∧ status_ (reverifyPiece sv stripe piece) = s.
Proof.
  intros Hperm. unfold withStatus. rewrite list_elem_of_fmap.
  setoid_rewrite list_elem_of_filter. setoid_rewrite Hperm. unfold sent.
  setoid_rewrite list_elem_of_fmap. split.
  - intros (r & -> & Hs & piece & -> & Hin). exists piece.
    by rewrite reverifyPiece_nodeID.
  - intros (piece & Hin & <- & Hs). exists (reverifyPiece sv stripe piece).
    rewrite reverifyPiece_nodeID. split_and!; try done. by exists piece.
Qed.

Lemma pendingNodes_Reverify stripe report e :
  ReverifyReturns sv stripe report e → pendingNodes report = [].
Proof.
  intros (received & Hperm & Hcollect). unfold Reverify in Hcollect.
  destruct (collect_spec received) as (_ & _ & _ & Hpending).
  rewrite Hcollect in Hpending. simpl in Hpending.
  unfold pendingNodes. rewrite Hpending.
  assert (Forall (λ r : result, pendingAudit r = None)
            (filter (λ r, status_ r = contained) received)) as Hnone.
  { apply Forall_forall. intros r [_ Hin]%list_elem_of_filter.
    rewrite Hperm in Hin. unfold sent in Hin.
    apply list_elem_of_fmap in Hin as (piece & -> & _).
    apply reverifyPiece_pendingAudit. }
  revert Hnone. generalize (filter (λ r, status_ r = contained) received).
  intros results Hnone.
  induction Hnone as [|r rest Hr _ IH]; [done|].
  rewrite fmap_cons. simpl. by rewrite Hr.
Qed.



(** *** Downloads and nodes *)

Section Downloads.
Context (limits : list (option AddressedOrderLimit)) (stripeIndex shareSize : Z).

Let shares := (DownloadShares sv limits stripeIndex shareSize).1.
Let nodes := (DownloadShares sv limits stripeIndex shareSize).2.

Lemma downloads_at k share :
  shares !! k = Some share →
  ∃ (i : nat) limit,
    k = Z.of_nat i ∧ limits !! i = Some (Some limit) ∧
    share = shareOf sv limit stripeIndex shareSize k ∧
    nodes !! k = Some (StorageNodeId (Limit limit)) ∧
    nodeAt nodes k = StorageNodeId (Limit limit).
Proof.
  intros Hk.
  pose proof (DownloadShares_lookup limits stripeIndex shareSize k) as [Hshare Hnode].
  cbv zeta in Hshare, Hnode. fold shares in Hshare. fold nodes in Hnode.
  rewrite Hshare in Hk.
  destruct (limitFor 0 limits k) as [limit|] eqn:Hlimit; [|done].
  injection Hk as <-. apply limitFor_Some in Hlimit as (i & -> & Hi).
  exists i, limit. split_and!; try done.
  exact (f_equal (default 0%N) Hnode).
Qed.

Lemma downloads_of (i : nat) limit :
  limits !! i = Some (Some limit) →
  shares !! Z.of_nat i = Some (shareOf sv limit stripeIndex shareSize (Z.of_nat i)) ∧
  nodes !! Z.of_nat i = Some (StorageNodeId (Limit limit)) ∧
  nodeAt nodes (Z.of_nat i) = StorageNodeId (Limit limit).
Proof.
  intros Hi.
  pose proof (DownloadShares_lookup limits stripeIndex shareSize (Z.of_nat i))
    as [Hshare Hnode].
  cbv zeta in Hshare, Hnode. fold shares in Hshare. fold nodes in Hnode.
  rewrite limitFor_index, Hi in Hshare, Hnode. split_and!; try done.
  exact (f_equal (default 0%N) Hnode).
Qed.

Lemma downloads_node k id :
  nodes !! k = Some id → id ∈ contacted limits ∧ is_Some (shares !! k).
Proof.
  intros Hk.
  pose proof (DownloadShares_lookup limits stripeIndex shareSize k) as [Hshare Hnode].
  cbv zeta in Hshare, Hnode. fold shares in Hshare. fold nodes in Hnode.
  rewrite Hnode in Hk.
  destruct (limitFor 0 limits k) as [limit|] eqn:Hlimit; [|done].
  injection Hk as <-. apply limitFor_Some in Hlimit as (i & -> & Hi).
  split; [apply contacted_spec; by exists i, limit|]. rewrite Hshare. by eexists.
Qed.

Lemma downloads_key k share : shares !! k = Some share → PieceNum share = k.
Proof.
  intros (i & limit & -> & _ & -> & _)%downloads_at. apply shareOf_PieceNum.
Qed.

(** With distinct nodes behind the limits, two downloads for the same
    node are the same download. *)
Lemma downloads_inj k k' share share' :
  NoDup (contacted limits) →
  shares !! k = Some share → shares !! k' = Some share' →
  nodeAt nodes k = nodeAt nodes k' → k = k' ∧ share = share'.
Proof.
  intros Hnd Hk Hk' Heq.
  pose proof Hk as (i & limit & -> & Hi & _ & _ & Hat)%downloads_at.
  pose proof Hk' as (j & limit' & -> & Hj & _ & _ & Hat')%downloads_at.
  rewrite Hat, Hat' in Heq.
  assert (i = j) as -> by by eapply contacted_inj.
  split; [done|]. congruence.
Qed.

End Downloads.

(** [createPendingAudits] never answers a pending audit: with a contained
    node its guard returns at once, and without one its loop has nothing
    to range over. *)
Lemma createPendingAudits_nil containedNodes correctedShares stripe pendingAudits :
  createPendingAudits sv containedNodes correctedShares stripe = Ok pendingAudits →
  pendingAudits = [].
Proof.
  unfold createPendingAudits.
  destruct (Z.ltb_spec 0 (Z.of_nat (size containedNodes))) as [|Hsize].
  { by intros [= <-]. }
  assert (containedNodes = ∅) as -> by (apply map_size_empty_iff; lia).
  destruct (NewFEC sv _ _) as [fec| |]; [|done..].
  destruct (rebuildStripe sv fec _ _) as [stripeData| |]; [|done..].
  rewrite map_to_list_empty. simpl. by intros [= <-].
Qed.

(** *** What the verifier guarantees *)

(** C7, as the code has it. In Verify, a share download that fails with
    deadline-exceeded, with an error that is not a transport error, or
    with a containment error, puts the node among the contained ones; a
    download that fails with a transport error that is no containment
    error puts the node among the offline ones, which every report
    carries in Offlines; a download that succeeds makes its share a
    candidate for the erasure correction. *)
Theorem Verify_classifies (stripe : Stripe) (skip : gset storj.NodeID)
    (limits : list (option AddressedOrderLimit)) (i : nat) (limit : AddressedOrderLimit) :
  CreateAuditOrderLimits sv (createBucketID sv (SegmentPath stripe)) (Segment stripe) skip
    = Ok limits →
  limits !! i = Some (Some limit) →
  let shareSize := GetErasureShareSize (GetRedundancy (GetRemote (Segment stripe))) in
  let downloads := DownloadShares sv limits (Index stripe) shareSize in
  let offlineNodes := (classifyShares downloads.1 downloads.2).1.1 in
  let containedNodes := (classifyShares downloads.1 downloads.2).1.2 in
  let sharesToAudit := (classifyShares downloads.1 downloads.2).2 in
  let node := StorageNodeId (Limit limit) in
  match GetShare sv limit (Index stripe) shareSize (Z.of_nat i) with
  | inl e =>
      sharesToAudit !! Z.of_nat i = None ∧
      (e = DeadlineExceeded ∨ Has TransportError e = false ∨ Has ContainError e = true →
         containedNodes !! Z.of_nat i = Some node) ∧
      (Has TransportError e = true → Has ContainError e = false →
         node ∈ offlineNodes ∧ containedNodes !! Z.of_nat i = None)
  | inr share =>
      sharesToAudit !! Z.of_nat i = Some share ∧ containedNodes !! Z.of_nat i = None
  end ∧
  ∀ report e, Verify sv stripe skip = Returned (Some report) e →
              Offlines report = offlineNodes.
Proof.
  intros Hlimits Hi shareSize. cbv zeta.
  set (downloads := DownloadShares sv limits (Index stripe) shareSize).
  set (node := StorageNodeId (Limit limit)).
  pose proof (DownloadShares_lookup limits (Index stripe) shareSize (Z.of_nat i))
    as [Hshare Hnode].
  cbv zeta in Hshare, Hnode. fold downloads in Hshare, Hnode.
  rewrite limitFor_index, Hi in Hshare, Hnode. simpl in Hshare, Hnode.
  assert (nodeAt downloads.2 (Z.of_nat i) = node) as Hat
    by exact (f_equal (default 0%N) Hnode).
  split.
  - unfold shareOf in Hshare.
    destruct (GetShare sv limit (Index stripe) shareSize (Z.of_nat i))
      as [e|share] eqn:Hget.
    + split_and!.
      * apply eq_None_not_Some. intros [share Hin].
        apply classifyShares_toAudit in Hin as [Hin Herr].
        rewrite Hshare in Hin. by injection Hin as <-.
      * intros Hcontain. apply classifyShares_contained.
        eexists _, e. split_and!; [done|done| |done].
        unfold containable.
        destruct Hcontain as [->|[->| ->]]; [done|..].
        -- by rewrite orb_true_r.
        -- by rewrite orb_true_r.
      * intros Htransport Hcontain.
        assert (containable e = false) as Hc.
        { unfold containable. rewrite Htransport, Hcontain, !orb_false_r.
          apply bool_decide_eq_false. by intros ->. }
        split.
        -- apply classifyShares_offline. eexists _, _, e. by split_and!.
        -- apply eq_None_not_Some. intros [id Hin].
           apply classifyShares_contained in Hin as (sh & e' & Hsh & He' & Hc' & _).
           rewrite Hshare in Hsh. injection Hsh as <-. simpl in He'. congruence.
    + apply GetShare_ok in Hget as [Herr _]. split.
      * by apply classifyShares_toAudit.
      * apply eq_None_not_Some. intros [id Hin].
        apply classifyShares_contained in Hin as (sh & e' & Hsh & He' & _).
        rewrite Hshare in Hsh. injection Hsh as <-. congruence.
  - intros report e (limits' & remote & Hlimits' & _ & Hoff & _)%Verify_returned.
    rewrite Hlimits in Hlimits'. by injection Hlimits' as <-.
Qed.


(** X26. In Reverify, for every piece-holder with a pending audit and an
    order limit: a downloaded share whose SHA-256 is the expected hash is
    a success, another hash is a failure, a transport error on the
    download is offline, deadline-exceeded or an error that is no
    transport error leaves the node contained; a piece-holder without a
    pending audit is skipped. The report lists under Successes, Fails and
    Offlines exactly the nodes with these statuses, and holds one pending
    entry per contained node, whatever the order the results arrive in. *)
Theorem Reverify_classifies (stripe : Stripe) (report : Report) (e : option goerror) :
  ReverifyReturns sv stripe report e →
  let pieces := GetRemotePieces (GetRemote (Segment stripe)) in
  let statusOf piece := status_ (reverifyPiece sv stripe piece) in
  (∀ piece,
     match containmentGet sv (NodeId piece) with
     | inl err => Has ErrContainedNotFound err = true → statusOf piece = skipped
     | inr pending =>
         ∀ limit,
           CreateAuditOrderLimit sv (createBucketID sv (SegmentPath stripe))
             (NodeID pending) (PieceID pending) (ShareSize pending) = inr limit →
           match GetShare sv limit (StripeIndex pending) (ShareSize pending)
                   (pb.PieceNum piece) with
           | inr share =>
               (SHA256Hash sv (Data share) = ExpectedShareHash pending →
                  statusOf piece = success) ∧
               (SHA256Hash sv (Data share) ≠ ExpectedShareHash pending →
                  statusOf piece = failed)
           | inl err =>
               (Has TransportError err = true → statusOf piece = offline) ∧
               (err = DeadlineExceeded ∨ Has TransportError err = false →
                  statusOf piece = contained)
           end
     end) ∧
  (∀ id, id ∈ Successes report ↔
         ∃ piece, piece ∈ pieces ∧ NodeId piece = id ∧ statusOf piece = success) ∧
  (∀ id, id ∈ Fails report ↔
         ∃ piece, piece ∈ pieces ∧ NodeId piece = id ∧ statusOf piece = failed) ∧
  (∀ id, id ∈ Offlines report ↔
         ∃ piece, piece ∈ pieces ∧ NodeId piece = id ∧ statusOf piece = offline) ∧
  length (PendingAudits report)
    = length (filter (λ piece, statusOf piece = contained) pieces).
Proof.
  intros (received & Hperm & Hcollect) pieces statusOf. unfold Reverify in Hcollect.
  destruct (collect_spec received) as (HS & HF & HO & HP).
  rewrite Hcollect in HS, HF, HO, HP. simpl in HS, HF, HO, HP.
  split_and!.
  - intros piece. unfold statusOf, reverifyPiece.
    destruct (containmentGet sv (NodeId piece)) as [err|pending].
    { by intros ->. }
    intros limit ->.
    destruct (GetShare sv limit _ _ _) as [err|share].
    + split.
      * intros Htransport. rewrite Htransport. simpl.
        rewrite bool_decide_eq_false_2; [done|]. by intros ->.
      * intros [->| ->]; [done|]. by rewrite orb_true_r.
    + split; intros Hhash.
      * by rewrite bool_decide_eq_true_2.
      * by rewrite bool_decide_eq_false_2.
  - intros id. rewrite HS. by apply withStatus_sent.
  - intros id. rewrite HF. by apply withStatus_sent.
  - intros id. rewrite HO. by apply withStatus_sent.
  - rewrite HP, length_fmap.
    assert (filter (λ r, status_ r = contained) received
            ≡ₚ filter (λ r, status_ r = contained) (sent sv stripe)) as ->
      by (by rewrite Hperm).
    unfold sent. fold pieces. clear.
    induction pieces as [|piece rest IH]; [done|].
    rewrite fmap_cons, !filter_cons. unfold statusOf at 1.
    destruct (decide (status_ (reverifyPiece sv stripe piece) = contained));
      simpl; by rewrite IH.
Qed.


(** The four classes of a report of [Verify] that came without error. *)
Lemma Verify_classes stripe skip limits report :
  CorrectKeepsNumbers sv →
  CreateAuditOrderLimits sv (createBucketID sv (SegmentPath stripe)) (Segment stripe) skip
    = Ok limits →
  Verify sv stripe skip = Returned (Some report) None →
  let shareSize := GetErasureShareSize (GetRedundancy (GetRemote (Segment stripe))) in
  let shares := (DownloadShares sv limits (Index stripe) shareSize).1 in
  let nodes := (DownloadShares sv limits (Index stripe) shareSize).2 in
  let containedNodes := (classifyShares shares nodes).1.2 in
  (∀ id, id ∈ Successes report ↔
         (∃ k, nodes !! k = Some id) ∧ (id ∉ Fails report) ∧ (id ∉ Offlines report) ∧
         ¬ (∃ k, containedNodes !! k = Some id)) ∧
  (∀ id, id ∈ Fails report →
         ∃ k share, shares !! k = Some share ∧ Error share = None ∧ id = nodeAt nodes k) ∧
  (∀ id, id ∈ Offlines report ↔
         ∃ k share e, shares !! k = Some share ∧ Error share = Some e ∧
                      containable e = false ∧ id = nodeAt nodes k) ∧
  (∀ k id, containedNodes !! k = Some id ↔
           ∃ share e, shares !! k = Some share ∧ Error share = Some e ∧
                      containable e = true ∧ id = nodeAt nodes k) ∧
  pendingNodes report = [].
Proof.
  intros Hkeeps Hlimits
    (limits' & remote & Hlimits' & _ & Hoff & Hrest)%Verify_returned.
  rewrite Hlimits in Hlimits'. injection Hlimits' as <-.
  destruct (Hrest eq_refl) as (pieceNums & corrected & Haudit & Hfails & Hsucc & Hpending).
  intros shareSize shares nodes containedNodes.
  cbv zeta in Hoff, Haudit, Hfails, Hsucc, Hpending.
  fold shareSize in Hoff, Haudit, Hfails, Hsucc, Hpending.
  fold shares nodes in Hoff, Haudit, Hfails, Hsucc, Hpending.
  fold containedNodes in Hsucc, Hpending.
  split_and!.
  - intros id. rewrite Hsucc, getSuccessNodes_spec. by rewrite <- Hoff.
  - intros id. rewrite Hfails.
    intros (k & -> & Hk)%list_elem_of_fmap.
    eapply auditShares_pieceNums in Hk as [share Hshare]; [|done| |done].
    + apply classifyShares_toAudit in Hshare as [? ?]. by exists k, share.
    + intros k' share' [Hshare' _]%classifyShares_toAudit.
      by eapply downloads_key.
  - intros id. rewrite Hoff. apply classifyShares_offline.
  - intros k id. apply classifyShares_contained.
  - apply createPendingAudits_nil in Hpending. unfold pendingNodes. by rewrite Hpending.
Qed.


(** The lists of a report of [Reverify], by the status of the pieces. *)
Lemma Reverify_lists stripe report e :
  ReverifyReturns sv stripe report e →
  ∀ id,
    let holds s :=
      ∃ piece, piece ∈ GetRemotePieces (GetRemote (Segment stripe)) ∧
               NodeId piece = id ∧ status_ (reverifyPiece sv stripe piece) = s in
    (id ∈ Successes report ↔ holds success) ∧
    (id ∈ Fails report ↔ holds failed) ∧
    (id ∈ Offlines report ↔ holds offline).
Proof.
  intros (received & Hperm & Hcollect) id. unfold Reverify in Hcollect.
  destruct (collect_spec received) as (HS & HF & HO & _).
  rewrite Hcollect in HS, HF, HO. simpl in HS, HF, HO.
  rewrite HS, HF, HO. split_and!; by apply withStatus_sent.
Qed.

(** Membership in a list that is written out. *)
Ltac in_list := repeat first [apply list_elem_of_here | apply list_elem_of_further].

(** A status other than skipped and erred means a pending audit was found. *)
Lemma reverifyPiece_pending stripe piece :
  status_ (reverifyPiece sv stripe piece) ∈ [success; failed; offline; contained] →
  ∃ pending, containmentGet sv (NodeId piece) = inr pending.
Proof.
  unfold reverifyPiece.
  destruct (containmentGet sv (NodeId piece)) as [err|pending]; [|by eexists].
  destruct (Has ErrContainedNotFound err); simpl;
    intros Hin; repeat (apply elem_of_cons in Hin as [?|Hin]; [done|]);
    by apply elem_of_nil in Hin.
Qed.

(** A download that was tried ends in one of the four statuses. *)
Lemma reverifyPiece_tried stripe piece pending limit :
  containmentGet sv (NodeId piece) = inr pending →
  CreateAuditOrderLimit sv (createBucketID sv (SegmentPath stripe))
    (NodeID pending) (PieceID pending) (ShareSize pending) = inr limit →
  status_ (reverifyPiece sv stripe piece) ∈ [success; failed; offline; contained].
Proof.
  unfold reverifyPiece. intros -> ->.
  destruct (GetShare sv limit _ _ _) as [err|share].
  - destruct (_ || _); simpl; in_list.
  - case_bool_decide; simpl; in_list.
Qed.

Lemma NoDup_fmap_inj {A B} (f : A → B) (l : list A) (x y : A) :
  NoDup (f <$> l) → x ∈ l → y ∈ l → f x = f y → x = y.
Proof.
  induction l as [|a l IH]; [by intros _ ?%elem_of_nil|].
  rewrite fmap_cons, NoDup_cons.
  intros [Hfresh Hnd] [->|Hx]%elem_of_cons [->|Hy]%elem_of_cons Heq; try done.
  - destruct Hfresh. rewrite Heq. apply list_elem_of_fmap. by exists y.
  - destruct Hfresh. rewrite <- Heq. apply list_elem_of_fmap. by exists x.
  - by apply IH.
Qed.

(** The share recorded for a limit carries an error exactly when
    [GetShare] returned it. *)
Lemma shareOf_Error limit stripeIndex shareSize i e :
  Error (shareOf sv limit stripeIndex shareSize i) = Some e ↔
  GetShare sv limit stripeIndex shareSize i = inl e.
Proof.
  unfold shareOf.
  destruct (GetShare sv limit stripeIndex shareSize i) as [err|share] eqn:Hget.
  - simpl. split; congruence.
  - apply GetShare_ok in Hget as [Hnone _]. rewrite Hnone. split; congruence.
Qed.

Lemma containable_spec e :
  containable e = true ↔
  e = DeadlineExceeded ∨ Has TransportError e = false ∨ Has ContainError e = true.
Proof.
  unfold containable. rewrite !orb_true_iff, bool_decide_eq_true, negb_true_iff. tauto.
Qed.

(** The four classes of a report of [Verify] that came without error
    divide the contacted nodes. *)
Lemma Verify_partition stripe skip limits report :
  CorrectKeepsNumbers sv →
  CreateAuditOrderLimits sv (createBucketID sv (SegmentPath stripe)) (Segment stripe) skip
    = Ok limits →
  NoDup (contacted limits) →
  Verify sv stripe skip = Returned (Some report) None →
  let shareSize := GetErasureShareSize (GetRedundancy (GetRemote (Segment stripe))) in
  let downloads := DownloadShares sv limits (Index stripe) shareSize in
  let containedNodes : list storj.NodeID :=
    snd <$> map_to_list (classifyShares downloads.1 downloads.2).1.2 in
  (∀ id, id ∈ contacted limits ↔
         id ∈ Successes report ∨ id ∈ Fails report ∨ id ∈ Offlines report ∨
         id ∈ containedNodes) ∧
  disjoint (Successes report) (Fails report) ∧
  disjoint (Successes report) (Offlines report) ∧
  disjoint (Successes report) containedNodes ∧
  disjoint (Fails report) (Offlines report) ∧
  disjoint (Fails report) containedNodes ∧
  disjoint (Offlines report) containedNodes ∧
  (∀ id, id ∈ containedNodes ↔
     ∃ (i : nat) limit e,
       limits !! i = Some (Some limit) ∧ StorageNodeId (Limit limit) = id ∧
       GetShare sv limit (Index stripe) shareSize (Z.of_nat i) = inl e ∧
       containable e = true).
Proof.
  intros Hkeeps Hlimits Hnd Hverify shareSize downloads containedNodes.
  destruct (Verify_classes stripe skip limits report Hkeeps Hlimits Hverify)
    as (HS & HF & HO & HC & HP).
  cbv zeta in HS, HF, HO, HC. fold shareSize in HS, HF, HO, HC.
  fold downloads in HS, HF, HO, HC.
  assert (∀ id, id ∈ containedNodes ↔
                ∃ k, (classifyShares downloads.1 downloads.2).1.2 !! k = Some id)
    as Hcontained.
  { intros id. unfold containedNodes. rewrite list_elem_of_fmap. split.
    - intros ([k v] & -> & Hin%elem_of_map_to_list). by exists k.
    - intros [k Hk]. exists (k, id). by rewrite elem_of_map_to_list. }
  pose proof (downloads_inj limits (Index stripe) shareSize) as Hinj.
  cbv zeta in Hinj. fold downloads in Hinj.
  pose proof (downloads_at limits (Index stripe) shareSize) as Hat.
  cbv zeta in Hat. fold downloads in Hat.
  pose proof (downloads_node limits (Index stripe) shareSize) as Hnode.
  cbv zeta in Hnode. fold downloads in Hnode.
  split_and!.
  - intros id. split.
    + intros (i & limit & Hi & ->)%contacted_spec.
      destruct (downloads_of limits (Index stripe) shareSize i limit Hi)
        as (Hshare & Hnode' & Hat').
      cbv zeta in Hshare, Hnode', Hat'. fold downloads in Hshare, Hnode', Hat'.
      set (share := shareOf sv limit (Index stripe) shareSize (Z.of_nat i)) in *.
      destruct (Error share) as [err|] eqn:Herr; [destruct (containable err) eqn:Hc|].
      * right. right. right. apply Hcontained. exists (Z.of_nat i). apply HC.
        by exists share, err.
      * right. right. left. apply HO. by exists (Z.of_nat i), share, err.
      * destruct (decide (StorageNodeId (Limit limit) ∈ Fails report)); [tauto|].
        left. apply HS. split_and!; try done.
        -- by exists (Z.of_nat i).
        -- intros (k & share' & err & Hk & Herr' & _ & Heq)%HO.
           destruct (Hinj (Z.of_nat i) k share share' Hnd Hshare Hk) as [_ <-];
             congruence.
        -- intros [k (share' & err & Hk & Herr' & _ & Heq)%HC].
           destruct (Hinj (Z.of_nat i) k share share' Hnd Hshare Hk) as [_ <-];
             congruence.
    + intros [Hin|[Hin|[Hin|Hin]]].
      * apply HS in Hin as [[k Hk] _].
        by apply Hnode in Hk as [? _].
      * apply HF in Hin as (k & share & Hk & _ & ->).
        apply Hat in Hk as (i & limit & _ & Hi & _ & _ & ->).
        apply contacted_spec. by exists i, limit.
      * apply HO in Hin as (k & share & err & Hk & _ & _ & ->).
        apply Hat in Hk as (i & limit & _ & Hi & _ & _ & ->).
        apply contacted_spec. by exists i, limit.
      * apply Hcontained in Hin as [k (share & err & Hk & _ & _ & ->)%HC].
        apply Hat in Hk as (i & limit & _ & Hi & _ & _ & ->).
        apply contacted_spec. by exists i, limit.
  - intros id (_ & Hnot & _)%HS Hin. by apply Hnot.
  - intros id (_ & _ & Hnot & _)%HS Hin. by apply Hnot.
  - intros id (_ & _ & _ & Hnot)%HS Hin%Hcontained. by apply Hnot.
  - intros id (k & share & Hk & Herr & ->)%HF
      (k' & share' & err & Hk' & Herr' & _ & Heq)%HO.
    destruct (Hinj k k' share share' Hnd Hk Hk' Heq) as [_ <-]. congruence.
  - intros id (k & share & Hk & Herr & ->)%HF
      [k' (share' & err & Hk' & Herr' & _ & Heq)%HC]%Hcontained.
    destruct (Hinj k k' share share' Hnd Hk Hk' Heq) as [_ <-]. congruence.
  - intros id (k & share & err & Hk & Herr & Hc & ->)%HO
      [k' (share' & err' & Hk' & Herr' & Hc' & Heq)%HC]%Hcontained.
    destruct (Hinj k k' share share' Hnd Hk Hk' Heq) as [_ <-]. congruence.
  - intros id. rewrite Hcontained. split.
    + intros [k (share & err & Hk & Herr & Hc & ->)%HC].
      apply Hat in Hk as (i & limit & -> & Hi & -> & _ & Hat').
      exists i, limit, err. split_and!; try done. by apply shareOf_Error.
    + intros (i & limit & err & Hi & <- & Hget & Hc).
      destruct (downloads_of limits (Index stripe) shareSize i limit Hi)
        as (Hshare & _ & Hat').
      cbv zeta in Hshare, Hat'. fold downloads in Hshare, Hat'.
      exists (Z.of_nat i). apply HC. eexists _, err.
      split_and!; [exact Hshare| |done|done]. by apply shareOf_Error.
Qed.

(** What the statuses of [Reverify] tell of the calls made for a piece. *)
Lemma reverifyPiece_contained stripe piece :
  status_ (reverifyPiece sv stripe piece) = contained ↔
  ∃ pending limit e,
    containmentGet sv (NodeId piece) = inr pending ∧
    CreateAuditOrderLimit sv (createBucketID sv (SegmentPath stripe))
      (NodeID pending) (PieceID pending) (ShareSize pending) = inr limit ∧
    GetShare sv limit (StripeIndex pending) (ShareSize pending) (pb.PieceNum piece)
      = inl e ∧
    (e = DeadlineExceeded ∨ Has TransportError e = false).
Proof.
  unfold reverifyPiece. split.
  - destruct (containmentGet sv (NodeId piece)) as [err|pending] eqn:Hpending.
    { by destruct (Has ErrContainedNotFound err). }
    destruct (CreateAuditOrderLimit sv _ _ _ _) as [err|limit] eqn:Hlimit.
    { by destruct (Has ErrNodeOffline err). }
    destruct (GetShare sv limit _ _ _) as [err|share] eqn:Hget.
    + destruct (_ || _) eqn:Hcond; [|done]. intros _.
      exists pending, limit, err. split_and!; try done.
      apply orb_true_iff in Hcond as [Hdeadline|Hother].
      * left. by apply bool_decide_eq_true in Hdeadline.
      * right. by apply negb_true_iff in Hother.
    + by case_bool_decide.
  - intros (pending & limit & e & -> & -> & -> & Hcond).
    destruct Hcond as [->| ->]; [done|]. by rewrite orb_true_r.
Qed.

Lemma reverifyPiece_listed stripe piece :
  status_ (reverifyPiece sv stripe piece) ∈ [success; failed; offline] →
  ∃ pending,
    containmentGet sv (NodeId piece) = inr pending ∧
    ((∃ limit,
        CreateAuditOrderLimit sv (createBucketID sv (SegmentPath stripe))
          (NodeID pending) (PieceID pending) (ShareSize pending) = inr limit) ∨
     (∃ err,
        CreateAuditOrderLimit sv (createBucketID sv (SegmentPath stripe))
          (NodeID pending) (PieceID pending) (ShareSize pending) = inl err ∧
        Has ErrNodeOffline err = true ∧
        status_ (reverifyPiece sv stripe piece) = offline)).
Proof.
  unfold reverifyPiece.
  destruct (containmentGet sv (NodeId piece)) as [err|pending].
  { destruct (Has ErrContainedNotFound err); simpl;
      intros Hin; repeat (apply elem_of_cons in Hin as [?|Hin]; [done|]);
      by apply elem_of_nil in Hin. }
  intros Hin. exists pending. split; [done|].
  destruct (CreateAuditOrderLimit sv _ _ _ _) as [err|limit]; [|left; by eexists].
  right. exists err. destruct (Has ErrNodeOffline err) eqn:Hoffline; [done|].
  simpl in Hin. repeat (apply elem_of_cons in Hin as [?|Hin]; [done|]).
  by apply elem_of_nil in Hin.
Qed.

Lemma reverifyPiece_refused stripe piece pending err :
  containmentGet sv (NodeId piece) = inr pending →
  CreateAuditOrderLimit sv (createBucketID sv (SegmentPath stripe))
    (NodeID pending) (PieceID pending) (ShareSize pending) = inl err →
  Has ErrNodeOffline err = true →
  status_ (reverifyPiece sv stripe piece) = offline.
Proof. unfold reverifyPiece. by intros -> -> ->. Qed.

(** No entry of PendingAudits in a report of [Reverify] is a pending
    audit: the results are sent without one. *)
Lemma Reverify_pending_audits_nil stripe report e :
  ReverifyReturns sv stripe report e →
  Forall (λ entry, entry = None) (PendingAudits report).
Proof.
  intros (received & Hperm & Hcollect). unfold Reverify in Hcollect.
  destruct (collect_spec received) as (_ & _ & _ & Hpending).
  rewrite Hcollect in Hpending. simpl in Hpending. rewrite Hpending.
  apply Forall_fmap, Forall_forall. intros r [_ Hin]%list_elem_of_filter.
  rewrite Hperm in Hin. unfold sent in Hin.
  apply list_elem_of_fmap in Hin as (piece & -> & _).
  apply reverifyPiece_pendingAudit.
Qed.

(** C1, as the code has it. For a report Verify returns without error,
    with distinct nodes behind the order limits and an erasure correction
    that keeps the numbers of the shares: Successes, Fails, Offlines and
    the contained nodes (those whose download failed with
    deadline-exceeded, with an error that is no transport error or with a
    containment error) are pairwise disjoint, and their union is the set
    of contacted nodes. For a report Reverify returns, with or without
    error, with distinct nodes behind the pieces: Successes, Fails,
    Offlines and the nodes left contained (those whose download failed
    with deadline-exceeded or an error that is no transport error) are
    pairwise disjoint, and their union is the set of the piece-holders
    with a pending audit for which a download was tried or which the
    orders service refused as offline. The two halves do not depend on
    each other. *)
Theorem audit_partition (stripe : Stripe) (skip : gset storj.NodeID)
    (limits : list (option AddressedOrderLimit)) (report : Report)
    (stripe' : Stripe) (report' : Report) (e' : option goerror) :
  (CorrectKeepsNumbers sv →
   CreateAuditOrderLimits sv (createBucketID sv (SegmentPath stripe)) (Segment stripe) skip
     = Ok limits →
   NoDup (contacted limits) →
   Verify sv stripe skip = Returned (Some report) None →
   let shareSize := GetErasureShareSize (GetRedundancy (GetRemote (Segment stripe))) in
   let isContained (id : storj.NodeID) : Prop :=
     ∃ (i : nat) limit e,
       limits !! i = Some (Some limit) ∧ StorageNodeId (Limit limit) = id ∧
       GetShare sv limit (Index stripe) shareSize (Z.of_nat i) = inl e ∧
       (e = DeadlineExceeded ∨ Has TransportError e = false ∨ Has ContainError e = true) in
   (∀ id, id ∈ contacted limits ↔
          (id ∈ Successes report ∨ id ∈ Fails report ∨ id ∈ Offlines report ∨
           isContained id)) ∧
   disjoint (Successes report) (Fails report) ∧
   disjoint (Successes report) (Offlines report) ∧
   disjoint (Fails report) (Offlines report) ∧
   (∀ id, isContained id →
          (id ∉ Successes report) ∧ (id ∉ Fails report) ∧ (id ∉ Offlines report))) ∧
  (NoDup (NodeId <$> GetRemotePieces (GetRemote (Segment stripe'))) →
   ReverifyReturns sv stripe' report' e' →
   let pieces' : list RemotePiece := GetRemotePieces (GetRemote (Segment stripe')) in
   let bucketID := createBucketID sv (SegmentPath stripe') in
   let tried (id : storj.NodeID) : Prop :=
     ∃ piece pending limit,
       piece ∈ pieces' ∧ NodeId piece = id ∧
       containmentGet sv id = inr pending ∧
       CreateAuditOrderLimit sv bucketID (NodeID pending) (PieceID pending)
         (ShareSize pending) = inr limit in
   let refused (id : storj.NodeID) : Prop :=
     ∃ piece pending err,
       piece ∈ pieces' ∧ NodeId piece = id ∧
       containmentGet sv id = inr pending ∧
       CreateAuditOrderLimit sv bucketID (NodeID pending) (PieceID pending)
         (ShareSize pending) = inl err ∧
       Has ErrNodeOffline err = true in
   let leftContained (id : storj.NodeID) : Prop :=
     ∃ piece pending limit err,
       piece ∈ pieces' ∧ NodeId piece = id ∧
       containmentGet sv id = inr pending ∧
       CreateAuditOrderLimit sv bucketID (NodeID pending) (PieceID pending)
         (ShareSize pending) = inr limit ∧
       GetShare sv limit (StripeIndex pending) (ShareSize pending) (pb.PieceNum piece)
         = inl err ∧
       (err = DeadlineExceeded ∨ Has TransportError err = false) in
   (∀ id, (id ∈ Successes report' ∨ id ∈ Fails report' ∨ id ∈ Offlines report' ∨
           leftContained id) ↔
          (tried id ∨ refused id)) ∧
   disjoint (Successes report') (Fails report') ∧
   disjoint (Successes report') (Offlines report') ∧
   disjoint (Fails report') (Offlines report') ∧
   (∀ id, leftContained id →
          (id ∉ Successes report') ∧ (id ∉ Fails report') ∧ (id ∉ Offlines report'))).
Proof.
  split.
  - intros Hkeeps Hlimits Hnd Hverify shareSize isContained.
    destruct (Verify_partition stripe skip limits report Hkeeps Hlimits Hnd Hverify)
      as (Hunion & HSF & HSO & HSC & HFO & HFC & HOC & Hcontained).
    cbv zeta in Hunion, HSC, HFC, HOC, Hcontained.
    fold shareSize in Hunion, HSC, HFC, HOC, Hcontained.
    assert (∀ id, isContained id ↔
              id ∈ snd <$> map_to_list
                     (classifyShares
                        (DownloadShares sv limits (Index stripe) shareSize).1
                        (DownloadShares sv limits (Index stripe) shareSize).2).1.2)
      as Hsame.
    { intros id. rewrite Hcontained. unfold isContained.
      by setoid_rewrite containable_spec. }
    split_and!; try done.
    + intros id. rewrite Hunion. by rewrite Hsame.
    + intros id Hid%Hsame. split_and!; intros Hin.
      * by apply (HSC id).
      * by apply (HFC id).
      * by apply (HOC id).
  - intros Hnd' Hreverify pieces' bucketID tried refused leftContained.
    pose proof (Reverify_lists stripe' report' e' Hreverify) as Hlists.
    assert (∀ id s s', s ≠ s' →
              (∃ piece, piece ∈ pieces' ∧ NodeId piece = id ∧
                        status_ (reverifyPiece sv stripe' piece) = s) →
              (∃ piece, piece ∈ pieces' ∧ NodeId piece = id ∧
                        status_ (reverifyPiece sv stripe' piece) = s') → False)
      as Hone.
    { intros id s s' Hne (piece & Hin & Hid & Hs) (piece' & Hin' & Hid' & Hs').
      assert (piece = piece') as ->
        by (eapply (NoDup_fmap_inj NodeId); [done..|congruence]).
      congruence. }
    assert (∀ id, leftContained id ↔
              ∃ piece, piece ∈ pieces' ∧ NodeId piece = id ∧
                       status_ (reverifyPiece sv stripe' piece) = contained)
      as Hcontained.
    { intros id. split.
      - intros (piece & pending & limit & err & Hin & <- & Hget & Hlimit & Hshare & Herr).
        exists piece. split_and!; try done. apply reverifyPiece_contained.
        by exists pending, limit, err.
      - intros (piece & Hin & <- & (pending & limit & err & ? & ? & ? & ?)%reverifyPiece_contained).
        by exists piece, pending, limit, err. }
    split_and!.
    + intros id. destruct (Hlists id) as (HS' & HF' & HO').
      rewrite HS', HF', HO', Hcontained. split.
      * assert (∀ piece, piece ∈ pieces' → NodeId piece = id →
                  status_ (reverifyPiece sv stripe' piece) ∈ [success; failed; offline] →
                  tried id ∨ refused id) as Hlisted.
        { intros piece Hin <- (pending & Hget & [[limit Hlimit]|(err & Hlimit & Herr & _)])%reverifyPiece_listed.
          - left. by exists piece, pending, limit.
          - right. by exists piece, pending, err. }
        intros [(piece & Hin & Hid & Hs)|[(piece & Hin & Hid & Hs)|[(piece & Hin & Hid & Hs)
                |(piece & Hin & Hid & Hs)]]].
        -- apply (Hlisted piece Hin Hid). rewrite Hs. in_list.
        -- apply (Hlisted piece Hin Hid). rewrite Hs. in_list.
        -- apply (Hlisted piece Hin Hid). rewrite Hs. in_list.
        -- apply reverifyPiece_contained in Hs as (pending & limit & err & ? & ? & _).
           subst id. left. by exists piece, pending, limit.
      * intros [(piece & pending & limit & Hin & <- & Hget & Hlimit)
               |(piece & pending & err & Hin & <- & Hget & Hlimit & Herr)].
        -- pose proof (reverifyPiece_tried stripe' piece pending limit Hget Hlimit)
             as Hstatus.
           repeat (apply elem_of_cons in Hstatus as [Hstatus|Hstatus]).
           ++ left. by exists piece.
           ++ right. left. by exists piece.
           ++ right. right. left. by exists piece.
           ++ right. right. right. by exists piece.
           ++ by apply elem_of_nil in Hstatus.
        -- right. right. left. exists piece. split_and!; try done.
           by eapply reverifyPiece_refused.
    + intros id HinS HinF. destruct (Hlists id) as (HS' & HF' & _).
      eapply (Hone id success failed); [done|by apply HS'|by apply HF'].
    + intros id HinS HinO. destruct (Hlists id) as (HS' & _ & HO').
      eapply (Hone id success offline); [done|by apply HS'|by apply HO'].
    + intros id HinF HinO. destruct (Hlists id) as (_ & HF' & HO').
      eapply (Hone id failed offline); [done|by apply HF'|by apply HO'].
    + intros id Hid%Hcontained. destruct (Hlists id) as (HS' & HF' & HO').
      split_and!; intros Hin.
      * eapply (Hone id contained success); [done|done|by apply HS'].
      * eapply (Hone id contained failed); [done|done|by apply HF'].
      * eapply (Hone id contained offline); [done|done|by apply HO'].
Qed.

End Verify.

(** *** Runs on segments of scheme (1, 1, 2, 2) *)

Import Examples.

(** The stand-in for the erasure code keeps the numbers of the shares. *)
Lemma auditServices_keeps download pendingOf :
  CorrectKeepsNumbers (auditServices download pendingOf).
Proof. by intros f shares corrected [= <-]. Qed.

Lemma correcting_keeps sv : CorrectKeepsNumbers (correcting sv).
Proof.
  intros f shares corrected [= <-]. by rewrite <- list_fmap_compose.
Qed.

(** C1 fails on the report that comes with NotEnoughShares: the one
    contacted node, whose read failed, is in none of the four sets. *)
Lemma Verify_not_enough_shares_report :
  let sv := auditServices readFails noPending in
  CreateAuditOrderLimits sv (createBucketID sv (SegmentPath (auditStripe 1)))
    (Segment (auditStripe 1)) ∅ = Ok (auditLimits 1) ∧
  contacted (auditLimits 1) = [100%N] ∧
  Verify sv (auditStripe 1) ∅
    = Returned (Some emptyReport) (Some (notEnoughShares 0 1)) ∧
  ¬ (∀ id, id ∈ contacted (auditLimits 1) ↔
           id ∈ Successes emptyReport ∨ id ∈ Fails emptyReport ∨
           id ∈ Offlines emptyReport ∨ id ∈ pendingNodes emptyReport).
Proof.
  split_and!; [by vm_compute..|].
  intros Hunion. destruct (Hunion 100%N) as [Hin _].
  destruct Hin as [Hin|[Hin|[Hin|Hin]]];
    [apply list_elem_of_here|by apply elem_of_nil in Hin..].
Qed.

(** C2 at the failing input: node 100 answers and node 101 runs into the
    deadline. Node 101 is contained, Verify returns without error, and
    its report holds no pending audit. *)
Theorem Verify_contained_without_pending_audit :
  let sv := auditServices oneStalls noPending in
  let downloads := DownloadShares sv (auditLimits 2) 0 2 in
  (classifyShares downloads.1 downloads.2).1.2 !! 1 = Some 101%N ∧
  Verify sv (auditStripe 2) ∅
    = Returned
        (Some {| Successes := [100%N]; Fails := []; Offlines := [];
                 PendingAudits := [] |})
        None.
Proof. by vm_compute. Qed.

(** C7 fails on a transport error that is also a containment error: the
    read on node 101 fails with one, and the node is contained, not
    offline. *)
Lemma Verify_transport_error_contained :
  let sv := auditServices oneResets noPending in
  let downloads := DownloadShares sv (auditLimits 2) 0 2 in
  auditLimits 2 !! 1%nat
    = Some (Some {| Limit := {| StorageNodeId := 101%N; PieceId := 7%N; LimitBytes := 2 |};
                    StorageNodeAddress := "" |}) ∧
  GetShare sv {| Limit := {| StorageNodeId := 101%N; PieceId := 7%N; LimitBytes := 2 |};
                 StorageNodeAddress := "" |} 0 2 1 = inl containedTransport ∧
  Has TransportError containedTransport = true ∧
  (classifyShares downloads.1 downloads.2).1.1 = [] ∧
  (classifyShares downloads.1 downloads.2).1.2 !! 1 = Some 101%N ∧
  Verify sv (auditStripe 2) ∅
    = Returned
        (Some {| Successes := [100%N]; Fails := []; Offlines := [];
                 PendingAudits := [] |})
        None.
Proof. by vm_compute. Qed.


(** C8 at the failing input: the nodes 100 and 101 both have a pending
    audit; node 100 answers the expected share and the download from node
    101 runs into the deadline. Node 101 gets the status contained, and
    the entry Reverify appends to PendingAudits for it is nil, in either
    order of arrival of the two results: the report returned carries no
    pending audit and does not name node 101. *)
Theorem Reverify_contained_nil_pending_audit :
  let sv := auditServices oneStalls pendingOnAll in
  let report :=
    {| Successes := [100%N]; Fails := []; Offlines := []; PendingAudits := [None] |} in
  containmentGet sv 101%N
    = inr {| NodeID := 101%N; PieceID := 7%N; StripeIndex := 0; ShareSize := 2;
             ExpectedShareHash := [x01; x02] |} ∧
  GetShare sv
    {| Limit := {| StorageNodeId := 101%N; PieceId := 7%N; LimitBytes := 2 |};
       StorageNodeAddress := "" |} 0 2 1 = inl DeadlineExceeded ∧
  reverifyPiece sv (auditStripe 2) (pieceOn 1)
    = {| nodeID := 101%N; status_ := contained; pendingAudit := None; err := None |} ∧
  Reverify (auditStripe 2) (sent sv (auditStripe 2)) = (report, None) ∧
  Reverify (auditStripe 2) (reverse (sent sv (auditStripe 2))) = (report, None) ∧
  pendingNodes report = [].
Proof. by vm_compute. Qed.

Lemma NoDup_run {A} `{EqDecision A} (l : list A) : bool_decide (NoDup l) = true → NoDup l.
Proof. apply bool_decide_eq_true. Qed.

(** C1 at work, on the segment of four pieces: node 100 answers its
    share, node 101 answers other bytes than the code restores, the read
    on node 102 fails with a transport error and the read on node 103
    runs into the deadline. Verify returns without error and Reverify,
    with a pending audit on every node, returns too; both reports have
    node 100 in Successes, node 101 in Fails, node 102 in Offlines, and
    node 103 is contained. *)
Lemma audit_partition_witness :
  let sv := quadServices in
  let limits := limitOf <$> (pieceOn <$> seq 0 4) in
  let report :=
    {| Successes := [100%N]; Fails := [101%N]; Offlines := [102%N];
       PendingAudits := [] |} in
  let report' :=
    {| Successes := [100%N]; Fails := [101%N]; Offlines := [102%N];
       PendingAudits := [None] |} in
  Verify sv quadStripe ∅ = Returned (Some report) None ∧
  ReverifyReturns sv quadStripe report' None ∧
  contacted limits = [100%N; 101%N; 102%N; 103%N] ∧
  (let shareSize := 2 in
   let isContained (id : storj.NodeID) : Prop :=
     ∃ (i : nat) limit e,
       limits !! i = Some (Some limit) ∧ StorageNodeId (Limit limit) = id ∧
       GetShare sv limit 0 shareSize (Z.of_nat i) = inl e ∧
       (e = DeadlineExceeded ∨ Has TransportError e = false ∨ Has ContainError e = true) in
   isContained 103%N ∧
   (∀ id, id ∈ contacted limits ↔
          (id ∈ Successes report ∨ id ∈ Fails report ∨ id ∈ Offlines report ∨
           isContained id)) ∧
   disjoint (Successes report) (Fails report) ∧
   disjoint (Successes report) (Offlines report) ∧
   disjoint (Fails report) (Offlines report) ∧
   (∀ id, isContained id →
          (id ∉ Successes report) ∧ (id ∉ Fails report) ∧ (id ∉ Offlines report))) ∧
  (let pieces' : list RemotePiece := pieceOn <$> seq 0 4 in
   let bucketID := createBucketID sv "project/l/bucket/object" in
   let tried (id : storj.NodeID) : Prop :=
     ∃ piece pending limit,
       piece ∈ pieces' ∧ NodeId piece = id ∧
       containmentGet sv id = inr pending ∧
       CreateAuditOrderLimit sv bucketID (NodeID pending) (PieceID pending)
         (ShareSize pending) = inr limit in
   let refused (id : storj.NodeID) : Prop :=
     ∃ piece pending err,
       piece ∈ pieces' ∧ NodeId piece = id ∧
       containmentGet sv id = inr pending ∧
       CreateAuditOrderLimit sv bucketID (NodeID pending) (PieceID pending)
         (ShareSize pending) = inl err ∧
       Has ErrNodeOffline err = true in
   let leftContained (id : storj.NodeID) : Prop :=
     ∃ piece pending limit err,
       piece ∈ pieces' ∧ NodeId piece = id ∧
       containmentGet sv id = inr pending ∧
       CreateAuditOrderLimit sv bucketID (NodeID pending) (PieceID pending)
         (ShareSize pending) = inr limit ∧
       GetShare sv limit (StripeIndex pending) (ShareSize pending) (pb.PieceNum piece)
         = inl err ∧
       (err = DeadlineExceeded ∨ Has TransportError err = false) in
   leftContained 103%N ∧
   (∀ id, (id ∈ Successes report' ∨ id ∈ Fails report' ∨ id ∈ Offlines report' ∨
           leftContained id) ↔
          (tried id ∨ refused id)) ∧
   disjoint (Successes report') (Fails report') ∧
   disjoint (Successes report') (Offlines report') ∧
   disjoint (Fails report') (Offlines report') ∧
   (∀ id, leftContained id →
          (id ∉ Successes report') ∧ (id ∉ Fails report') ∧ (id ∉ Offlines report'))).
Proof.
  intros sv limits report report'.
  assert (Verify sv quadStripe ∅ = Returned (Some report) None) as Hverify
    by (by vm_compute).
  assert (ReverifyReturns sv quadStripe report' None) as Hreverify.
  { exists (sent sv quadStripe). split; [done|by vm_compute]. }
  destruct (audit_partition sv quadStripe ∅ limits report quadStripe report' None)
    as [Hfirst Hsecond].
  split; [done|]. split; [done|]. split; [by vm_compute|]. split.
  - split.
    + exists 3%nat,
        {| Limit := {| StorageNodeId := 103%N; PieceId := 7%N; LimitBytes := 2 |};
           StorageNodeAddress := "" |}, DeadlineExceeded.
      split_and!; try reflexivity. by left.
    + refine (Hfirst (correcting_keeps _) eq_refl _ Hverify).
      apply NoDup_run. by vm_compute.
  - split.
    + exists (pieceOn 3),
        {| NodeID := 103%N; PieceID := 7%N; StripeIndex := 0; ShareSize := 2;
           ExpectedShareHash := [x01; x02] |},
        {| Limit := {| StorageNodeId := 103%N; PieceId := 7%N; LimitBytes := 2 |};
           StorageNodeAddress := "" |}, DeadlineExceeded.
      split_and!; try reflexivity; [|by left].
      apply list_elem_of_fmap. exists 3%nat. split; [done|].
      apply elem_of_seq. lia.
    + refine (Hsecond _ Hreverify). apply NoDup_run. by vm_compute.
Defined.

(** C7 at work: node 100 answers, node 101 runs into the deadline. *)
Lemma Verify_classifies_witness :
  let sv := auditServices oneStalls noPending in
  let downloads := DownloadShares sv (auditLimits 2) 0 2 in
  (classifyShares downloads.1 downloads.2).2 !! 1 = None ∧
  (classifyShares downloads.1 downloads.2).1.2 !! 1 = Some 101%N ∧
  (classifyShares downloads.1 downloads.2).2 !! 0
    = Some {| Error := None; PieceNum := 0; Data := [x01; x02] |} ∧
  ∀ report e, Verify sv (auditStripe 2) ∅ = Returned (Some report) e →
              Offlines report = (classifyShares downloads.1 downloads.2).1.1.
Proof.
  intros sv downloads.
  destruct (Verify_classifies sv (auditStripe 2) ∅ (auditLimits 2) 1
              {| Limit := {| StorageNodeId := 101%N; PieceId := 7%N; LimitBytes := 2 |};
                 StorageNodeAddress := "" |} eq_refl eq_refl)
    as [(Hnone & Hcontained & _) Hoffline].
  destruct (Verify_classifies sv (auditStripe 2) ∅ (auditLimits 2) 0
              {| Limit := {| StorageNodeId := 100%N; PieceId := 7%N; LimitBytes := 2 |};
                 StorageNodeAddress := "" |} eq_refl eq_refl)
    as [(Hcandidate & _) _].
  split_and!.
  - exact Hnone.
  - exact (Hcontained (or_introl eq_refl)).
  - exact Hcandidate.
  - exact Hoffline.
Defined.

(** X26 at work: node 100 has a pending audit and answers the expected
    share, node 101 has none. *)
Lemma Reverify_classifies_witness :
  let sv := auditServices allAnswer pendingOn100 in
  let report' :=
    {| Successes := [100%N]; Fails := []; Offlines := []; PendingAudits := [] |} in
  ReverifyReturns sv (auditStripe 2) report' None ∧
  status_ (reverifyPiece sv (auditStripe 2) (pieceOn 0)) = success ∧
  status_ (reverifyPiece sv (auditStripe 2) (pieceOn 1)) = skipped ∧
  (∀ id, id ∈ Successes report' ↔
         ∃ piece, piece ∈ pieceOn <$> seq 0 2 ∧ NodeId piece = id ∧
                  status_ (reverifyPiece sv (auditStripe 2) piece) = success).
Proof.
  intros sv report'.
  assert (ReverifyReturns sv (auditStripe 2) report' None) as Hreverify.
  { exists (sent sv (auditStripe 2)). split; [done|by vm_compute]. }
  destruct (Reverify_classifies sv (auditStripe 2) report' None Hreverify)
    as (Hpiece & Hsuccesses & _).
  split_and!.
  - exact Hreverify.
  - pose proof (Hpiece (pieceOn 0)) as H0. simpl in H0.
    exact (proj1 (H0 _ eq_refl) eq_refl).
  - exact (Hpiece (pieceOn 1) eq_refl).
  - exact Hsuccesses.
Defined.

End AuditSpec.

(** ** The metainfo endpoint *)

Module MetainfoSpec.
Import metainfo Examples.




Section Commit.
Context (sv : Services).

(** [CommitSegment] up to the call of [filterValidPieces], when the key,
    the bucket and the order limits of the pieces pass. *)
Lemma CommitSegment_validated req st projectID pointer :
  validateAuth sv (Bucket req) (Path req) = inr projectID →
  validateBucket (Bucket req) = None →
  validateCommit sv req = Ok () →
  Pointer_ req = Some pointer →
  CommitSegment sv req st =
    match filterValidPieces pointer with
    | Panic => (Panicked, st)
    | Err e => (Failed (Errorf sv Internal (text sv e)), st)
    | Ok pointer =>
        match CreatePath sv projectID (Segment req) (Bucket req) (Path req) with
        | inl e => (Failed (Errorf sv InvalidArgument (text sv e)), st)
        | inr path =>
            match calculateSpaceUsed pointer with
            | None => (Panicked, st)
            | Some (inlineUsed, remoteUsed) =>
                let st :=
                  {| pointers := pointers st;
                     usage := usage st ++ [(projectID, inlineUsed, remoteUsed)] |} in
                match metainfoPutError sv path pointer with
                | Some e => (Failed (Errorf sv Internal (text sv e)), st)
                | None =>
                    let st :=
                      {| pointers := <[path := pointer]> (pointers st);
                         usage := usage st |} in
                    match
                      (if bool_decide (Type_ pointer = INLINE)
                       then UpdatePutInlineOrder sv (createBucketID sv projectID (Bucket req))
                              (len (default [] (InlineSegment pointer)))
                       else None)
                    with
                    | Some e => (Failed (Errorf sv Internal (text sv e)), st)
                    | None =>
                        match metainfoGetError sv path with
                        | Some e => (Failed (Errorf sv Internal (text sv e)), st)
                        | None =>
                            match pointers st !! path with
                            | None =>
                                (Failed (Errorf sv Internal
                                           (text sv (New (OtherClass "key not found") path))),
                                 st)
                            | Some stored => (Response stored, st)
                            end
                        end
                    end
                end
            end
        end
    end.
Proof.
  intros Hauth Hbucket Hcommit Hpointer. unfold CommitSegment.
  by rewrite Hauth, Hbucket, Hcommit, Hpointer.
Qed.


(** C10. On the way to the store, CommitSegment hands the pointer to
    calculateSpaceUsed and the two counts to the usage accounting. The
    counts are (|inline bytes|, 0) when the pointer carries an inline
    segment, and (0, (segment_size / MinReq) * |pieces|), in int64
    arithmetic, when it carries a remote one; the division is not guarded,
    so with MinReq = 0 the call panics, and CommitSegment with it, although
    the pointer passed every check of the commit. *)
Theorem CommitSegment_space_used (req : SegmentCommitRequest) (st : State)
    (projectID : string) (submitted pointer : Pointer) (path : storj.Path) :
  validateAuth sv (Bucket req) (Path req) = inr projectID →
  validateBucket (Bucket req) = None →
  validateCommit sv req = Ok () →
  Pointer_ req = Some submitted →
  filterValidPieces submitted = Ok pointer →
  CreatePath sv projectID (Segment req) (Bucket req) (Path req) = inr path →
  (∀ inline, InlineSegment pointer = Some inline →
             calculateSpaceUsed pointer = Some (len inline, 0)) ∧
  (InlineSegment pointer = None → Remote pointer = None →
   calculateSpaceUsed pointer = Some (0, 0)) ∧
  (∀ remote, InlineSegment pointer = None → Remote pointer = Some remote →
             GetMinReq (Redundancy remote) ≠ 0 →
             calculateSpaceUsed pointer =
               Some (0, int64 (int64 (SegmentSize pointer ÷ GetMinReq (Redundancy remote))
                               * len (GetRemotePieces (Some remote))))) ∧
  (∀ remote, InlineSegment pointer = None → Remote pointer = Some remote →
             GetMinReq (Redundancy remote) = 0 →
             calculateSpaceUsed pointer = None ∧
             CommitSegment sv req st = (Panicked, st)) ∧
  (∀ inlineUsed remoteUsed,
     calculateSpaceUsed pointer = Some (inlineUsed, remoteUsed) →
     usage (CommitSegment sv req st).2 = usage st ++ [(projectID, inlineUsed, remoteUsed)]).
Proof.
  intros Hauth Hbucket Hcommit Hpointer Hfilter Hpath.
  rewrite (CommitSegment_validated req st projectID submitted) by done.
  rewrite Hfilter, Hpath. unfold calculateSpaceUsed, GetRemote, GetRedundancy.
  split_and!.
  - by intros inline ->.
  - by intros -> ->.
  - intros remote -> -> Hmin. simpl.
    by destruct (Z.eqb_spec (GetMinReq (Redundancy remote)) 0).
  - intros remote -> -> Hmin. simpl. by rewrite Hmin.
  - intros inlineUsed remoteUsed ->.
    destruct (metainfoPutError sv path pointer); [done|].
    destruct (if bool_decide (Type_ pointer = INLINE) then _ else _); [done|].
    destruct (metainfoGetError sv path); [done|].
    simpl. rewrite lookup_insert_eq. done.
Qed.

End Commit.



(** C10 at work: three pieces under a scheme with MinReq = 0 pass the
    checks of the commit, and the commit panics. *)
Lemma CommitSegment_space_used_witness :
  validateCommit commitServices (commitRequest zeroMinScheme 3) = Ok () ∧
  calculateSpaceUsed (remotePointer zeroMinScheme (pieceOn <$> seq 0 3)) = None ∧
  CommitSegment commitServices (commitRequest zeroMinScheme 3) emptyStore
    = (Panicked, emptyStore).
Proof.
  split; [by vm_compute|].
  destruct (CommitSegment_space_used commitServices (commitRequest zeroMinScheme 3)
              emptyStore "project" (remotePointer zeroMinScheme (pieceOn <$> seq 0 3))
              (remotePointer zeroMinScheme (pieceOn <$> seq 0 3))
              "project/l/bucket/path"
              eq_refl eq_refl ltac:(by vm_compute) eq_refl ltac:(by vm_compute)
              ltac:(by vm_compute))
    as (_ & _ & _ & Hpanic & _).
  exact (Hpanic {| Redundancy := Some zeroMinScheme; RootPieceId := 7%N;
                   RemotePieces := Some (pieceOn <$> seq 0 3) |}
           eq_refl eq_refl eq_refl).
Defined.

End MetainfoSpec.

(** ** The segment store *)

Module SegmentsSpec.
Import segments.

(** The closed form on the vectors of the test, beside what the test
    expects: they agree on (1,1,1,1), (1,1,2,2), (2,3,4,4) and (2,4,6,8)
    and differ on (1,2,2,2), (20,30,40,50) and (29,35,80,95); on (0,0,0,0)
    the quotient has no value. *)
Lemma closedForm_on_the_table :
  (closedForm ∘ fst) <$> drop 1 calcNeededNodesCases = [1; 2; 1; 3; 3; 27; 67] ∧
  snd <$> drop 1 calcNeededNodesCases = [1; 2; 2; 3; 3; 25; 34].
Proof. by vm_compute. Qed.

(** No function passes [TestCalcNeededNodes] and is the closed form
    wherever the repair threshold is not zero: the test expects 2 for
    (1, 2, 2, 2), where ceil(1 * 2 / 2) capped below by 1 is 1. *)
Lemma closedForm_not_the_table :
  ¬ ∃ f : RedundancyScheme → Z,
      Forall (λ case : RedundancyScheme * Z, f case.1 = case.2) calcNeededNodesCases ∧
      ∀ rs, RepairThreshold rs ≠ 0 → f rs = closedForm rs.
Proof.
  intros (f & Htable & Hform). rewrite Forall_forall in Htable.
  assert ((scheme 1 2 2 2, 2) ∈ calcNeededNodesCases) as Hin
    by (unfold calcNeededNodesCases; do 3 apply list_elem_of_further;
        apply list_elem_of_here).
  apply Htable in Hin. simpl in Hin.
  rewrite Hform in Hin by done. vm_compute in Hin. discriminate Hin.
Qed.

End SegmentsSpec.

(** ** More of the segment repairer *)

Module RepairerMore.
Import Repairer RepairerSpec.

Lemma markOutcome_attempts n rs st :
  meter "repair_attempts" (meters (markOutcome n rs st))
    = meter "repair_attempts" (meters st).
Proof.
  unfold markOutcome. repeat case_match; simpl; by rewrite meter_Mark_ne.
Qed.

Lemma uploadAndStore_pointers sv path pointer remote rs redundancy putLimits r healthy st :
  let out := uploadAndStore sv path pointer remote rs redundancy putLimits r healthy st in
  pointers out.2 = pointers st ∨
  ∃ pieces', pointers out.2 = <[path := setRemotePieces pointer remote pieces']> (pointers st).
Proof.
  unfold uploadAndStore, metainfoPut.
  destruct (ecRepair _ _ _ _ _ _) as [[successfulNodes hashes]|e|]; simpl.
  - destruct (appendUploaded _ _ _ _) as [pieces'|]; simpl; [|by left].
    destruct (metainfoPutError _ _ _); simpl.
    + left. destruct (rClose sv r); simpl; apply markOutcome_pointers.
    + right. exists pieces'.
      destruct (rClose sv r); simpl; by rewrite markOutcome_pointers.
  - left. by destruct (rClose sv r).
  - by left.
Qed.

Lemma repairSegment_pointers sv path pointer remote rs redundancy pieceSize pieces
    missingPieces st :
  let out := repairSegment sv path pointer remote rs redundancy pieceSize pieces
               missingPieces st in
  pointers out.2 = pointers st ∨
  ∃ pieces', pointers out.2 = <[path := setRemotePieces pointer remote pieces']> (pointers st).
Proof.
  unfold repairSegment.
  destruct (createBucketID sv path) as [bucketID| |]; [|by left..].
  destruct (CreateGetRepairOrderLimits _ _ _ _) as [getOrderLimits| |]; [|by left..].
  destruct (FindStorageNodes _ _) as [newNodes| |]; [|by left..].
  destruct (CreatePutRepairOrderLimits _ _ _ _ _) as [putLimits| |]; [|by left..].
  destruct (ecGet _ _ _ _) as [rr| |]; [|by left..].
  destruct (rrRange _ _ _ _) as [r| |]; [|by left..].
  apply uploadAndStore_pointers.
Qed.

Lemma Repair_pointers sv path st :
  pointers (Repair sv path st).2 = pointers st ∨
  ∃ pointer remote pieces',
    pointers st !! path = Some pointer ∧ Type_ pointer = REMOTE ∧
    Remote pointer = Some remote ∧
    pointers (Repair sv path st).2
      = <[path := setRemotePieces pointer remote pieces']> (pointers st).
Proof.
  unfold Repair, metainfoGet.
  destruct (pointers st !! path) as [pointer|] eqn:Hget; [|by left].
  case_bool_decide as Htype; [by left|].
  assert (Type_ pointer = REMOTE) as Hremote'.
  { by destruct (decide (Type_ pointer = REMOTE)). }
  destruct (NewRedundancyStrategyFromProto _ _) as [redundancy| |]; [|by left..].
  unfold GetRemote.
  destruct (GetMissingPieces _ _) as [missingPieces| |]; [|by left..].
  destruct (Remote pointer) as [remote|] eqn:Hremote; [|by left]. simpl.
  destruct (Redundancy remote) as [rs|]; [|by left]. simpl.
  destruct (_ <? _); [by left|]. destruct (_ >? _); [by left|].
  pose proof (repairSegment_pointers sv path pointer remote rs redundancy
                (CalcPieceSize sv (SegmentSize pointer) redundancy)
                (GetRemotePieces (Some remote)) missingPieces
                (mark "repair_attempts" st)) as Hrepair.
  cbv zeta in Hrepair. destruct Hrepair as [Hsame|[pieces' Hput]].
  - by left.
  - right. by exists pointer, remote, pieces'.
Qed.

(** X1. Whatever Repair returns, it creates, deletes and moves no
    pointer: the pointers at the other paths are untouched, no pointer
    appears at a path that had none, and the pointer at the path keeps its
    type, inline data, size, expiration, metadata, redundancy scheme and
    root piece ID; only its list of pieces may change. *)
Theorem Repair_keeps_segment (sv : Services) (path : storj.Path) (st : State) :
  let st' := (Repair sv path st).2 in
  (∀ other, other ≠ path → pointers st' !! other = pointers st !! other) ∧
  (pointers st !! path = None → pointers st' !! path = None) ∧
  (∀ pointer, pointers st !! path = Some pointer →
     ∃ pointer', pointers st' !! path = Some pointer' ∧
       Type_ pointer' = Type_ pointer ∧ InlineSegment pointer' = InlineSegment pointer ∧
       SegmentSize pointer' = SegmentSize pointer ∧
       ExpirationDate pointer' = ExpirationDate pointer ∧
       Metadata pointer' = Metadata pointer ∧
       GetRedundancy (Remote pointer') = GetRedundancy (Remote pointer) ∧
       RootPieceId <$> Remote pointer' = RootPieceId <$> Remote pointer).
Proof.
  intros st'. subst st'.
  destruct (Repair_pointers sv path st)
    as [->|(pointer & remote & pieces' & Hget & Htype & Hremote & ->)].
  { split_and!; try done. intros pointer Hget. exists pointer.
    by split_and!. }
  split_and!.
  - intros other Hne. by rewrite lookup_insert_ne.
  - congruence.
  - intros pointer0 Hget0. assert (pointer0 = pointer) as -> by congruence.
    exists (setRemotePieces pointer remote pieces'). rewrite lookup_insert_eq.
    split; [done|]. rewrite Hremote. by split_and!.
Qed.


Lemma uploadAndStore_attempts sv path pointer remote rs redundancy putLimits r healthy st :
  meter "repair_attempts"
    (meters (uploadAndStore sv path pointer remote rs redundancy putLimits r healthy st).2)
    = meter "repair_attempts" (meters st).
Proof.
  unfold uploadAndStore, metainfoPut.
  destruct (ecRepair _ _ _ _ _ _) as [[successfulNodes hashes]|e|]; simpl; [| |done].
  - destruct (appendUploaded _ _ _ _) as [pieces'|]; simpl; [|done].
    destruct (metainfoPutError _ _ _); simpl;
      destruct (rClose sv r); simpl; apply markOutcome_attempts.
  - by destruct (rClose sv r).
Qed.

Lemma repairSegment_attempts sv path pointer remote rs redundancy pieceSize pieces
    missingPieces st :
  meter "repair_attempts"
    (meters (repairSegment sv path pointer remote rs redundancy pieceSize pieces
               missingPieces st).2)
    = meter "repair_attempts" (meters st).
Proof.
  unfold repairSegment.
  destruct (createBucketID sv path) as [bucketID| |]; [|done..].
  destruct (CreateGetRepairOrderLimits _ _ _ _) as [getOrderLimits| |]; [|done..].
  destruct (FindStorageNodes _ _) as [newNodes| |]; [|done..].
  destruct (CreatePutRepairOrderLimits _ _ _ _ _) as [putLimits| |]; [|done..].
  destruct (ecGet _ _ _ _) as [rr| |]; [|done..].
  destruct (rrRange _ _ _ _) as [r| |]; [|done..].
  apply uploadAndStore_attempts.
Qed.

(** X2. The meter repair_attempts counts the calls of Repair that read a
    REMOTE pointer, whatever becomes of them (error, panic or repair): it
    goes up by one on such a call and stays as it is otherwise. A call
    that finds no pointer or an inline one returns a segment error and
    leaves the meters and the pointers as they were. *)
Theorem Repair_attempts (sv : Services) (path : storj.Path) (st : State) :
  let attempted :=
    match pointers st !! path with
    | Some pointer => bool_decide (Type_ pointer = REMOTE)
    | None => false
    end in
  meter "repair_attempts" (meters (Repair sv path st).2)
    = meter "repair_attempts" (meters st) + (if attempted then 1 else 0) ∧
  (attempted = false →
     (Repair sv path st).2 = st ∧
     ∃ e, (Repair sv path st).1 = Err e ∧ Has SegmentError e = true).
Proof.
  intros attempted. subst attempted. unfold Repair, metainfoGet.
  destruct (pointers st !! path) as [pointer|] eqn:Hget.
  2:{ simpl. split; [lia|]. intros _. split; [done|]. by eexists. }
  destruct (decide (Type_ pointer = REMOTE)) as [Htype|Htype].
  2:{ rewrite (bool_decide_eq_true_2 _ Htype), (bool_decide_eq_false_2 _ Htype). simpl.
      split; [lia|]. intros _. split; [done|]. by eexists. }
  rewrite (bool_decide_eq_true_2 _ Htype).
  rewrite bool_decide_eq_false_2 by (by intros []).
  split; [|done].
  assert (meter "repair_attempts" (meters (mark "repair_attempts" st))
          = meter "repair_attempts" (meters st) + 1) as Hmark
    by (simpl; apply meter_Mark_eq).
  destruct (NewRedundancyStrategyFromProto _ _) as [redundancy| |]; [|done..].
  destruct (GetMissingPieces _ _) as [missingPieces| |]; [|done..].
  destruct (Remote pointer ≫= _) as [[remote rs]|]; [|done].
  destruct (_ <? _).
  { simpl. rewrite meter_Mark_ne by done. apply meter_Mark_eq. }
  destruct (_ >? _).
  { simpl. rewrite meter_Mark_ne by done. apply meter_Mark_eq. }
  by rewrite repairSegment_attempts.
Qed.

Lemma uploadAndStore_error sv path pointer remote rs redundancy putLimits r healthy st e st' :
  uploadAndStore sv path pointer remote rs redundancy putLimits r healthy st
    = (Err e, st') →
  pointers st' ≠ pointers st →
  rClose sv r = Some e ∧
  ∃ pieces',
    metainfoPutError sv path (setRemotePieces pointer remote pieces') = None ∧
    pointers st' = <[path := setRemotePieces pointer remote pieces']> (pointers st).
Proof.
  unfold uploadAndStore, metainfoPut.
  destruct (ecRepair _ _ _ _ _ _) as [[successfulNodes hashes]|e0|]; [| |done].
  - destruct (appendUploaded _ _ _ _) as [pieces'|]; [|done].
    destruct (metainfoPutError _ _ _) eqn:Hput; simpl.
    + destruct (rClose sv r); intros [= <- <-] Hne; destruct Hne;
        apply markOutcome_pointers.
    + destruct (rClose sv r) as [closeErr|] eqn:Hclose; [|done].
      intros [= <- <-] _. split; [done|]. exists pieces'. split; [done|]. simpl.
      by rewrite markOutcome_pointers.
  - destruct (rClose sv r); by intros [= <- <-] Hne.
Qed.

(** X3. An error of Repair does not mean that nothing was stored. When
    Repair returns an error and the pointers have changed, the repaired
    pointer was put at the path with success, and the error is the one of
    closing the reader of the segment, alone; every other error leaves the
    pointers as they were. *)
Theorem Repair_error_after_store (sv : Services) (path : storj.Path) (st st' : State)
    (e : goerror) :
  Repair sv path st = (Err e, st') →
  pointers st' ≠ pointers st →
  ∃ r pointer remote pieces',
    rClose sv r = Some e ∧
    pointers st !! path = Some pointer ∧
    Remote pointer = Some remote ∧
    metainfoPutError sv path (setRemotePieces pointer remote pieces') = None ∧
    pointers st' = <[path := setRemotePieces pointer remote pieces']> (pointers st).
Proof.
  unfold Repair, metainfoGet.
  destruct (pointers st !! path) as [pointer|] eqn:Hget; [|by intros [= <- <-]].
  case_bool_decide as Htype; [by intros [= <- <-]|].
  destruct (NewRedundancyStrategyFromProto _ _) as [redundancy| |];
    [|by intros [= <- <-]|done].
  unfold GetRemote.
  destruct (GetMissingPieces _ _) as [missingPieces| |]; [|by intros [= <- <-]|done].
  destruct (Remote pointer) as [remote|] eqn:Hremote; [|done]. simpl.
  destruct (Redundancy remote) as [rs|]; [|done]. simpl.
  destruct (_ <? _); [by intros [= <- <-]|]. destruct (_ >? _); [by intros [= <- <-]|].
  unfold repairSegment.
  destruct (createBucketID sv path) as [bucketID| |]; [|by intros [= <- <-]|done].
  destruct (CreateGetRepairOrderLimits _ _ _ _) as [getOrderLimits| |];
    [|by intros [= <- <-]|done].
  destruct (FindStorageNodes _ _) as [newNodes| |]; [|by intros [= <- <-]|done].
  destruct (CreatePutRepairOrderLimits _ _ _ _ _) as [putLimits| |];
    [|by intros [= <- <-]|done].
  destruct (ecGet _ _ _ _) as [rr| |]; [|by intros [= <- <-]|done].
  destruct (rrRange _ _ _ _) as [r| |]; [|by intros [= <- <-]|done].
  intros Hupload Hne.
  destruct (uploadAndStore_error _ _ _ _ _ _ _ _ _ _ _ _ Hupload Hne)
    as (Hclose & pieces' & Hput & Hstored).
  by exists r, pointer, remote, pieces'.
Qed.


(** *** Runs of the repairer *)

Import Examples.

(** X3 at work: three healthy pieces are repaired and stored, and the
    close of the reader fails. *)
Lemma Repair_error_after_store_witness :
  ∃ r pointer remote pieces',
    rClose closing r = Some closeError ∧
    pointers (repairState 3) !! repairPath = Some pointer ∧
    Remote pointer = Some remote ∧
    metainfoPutError closing repairPath (setRemotePieces pointer remote pieces') = None ∧
    pointers (Repair closing repairPath (repairState 3)).2
      = <[repairPath := setRemotePieces pointer remote pieces']> (pointers (repairState 3)).
Proof.
  apply (Repair_error_after_store closing repairPath (repairState 3)
           (Repair closing repairPath (repairState 3)).2 closeError).
  - by vm_compute.
  - intros Heq.
    apply (f_equal (λ m, len ∘ GetRemotePieces ∘ Remote <$> m !! repairPath)) in Heq.
    by vm_compute in Heq.
Defined.

End RepairerMore.

(** ** More of the audit verifier *)

Module AuditMore.
Import audit AuditSpec.

Section More.
Context (sv : Services).

(** A share without error is the one [GetShare] returned. *)
Lemma shareOf_ok limit stripeIndex shareSize i :
  Error (shareOf sv limit stripeIndex shareSize i) = None →
  GetShare sv limit stripeIndex shareSize i
    = inr (shareOf sv limit stripeIndex shareSize i).
Proof. unfold shareOf. by destruct (GetShare sv limit stripeIndex shareSize i). Qed.

Lemma shareOf_inr limit stripeIndex shareSize i share :
  GetShare sv limit stripeIndex shareSize i = inr share →
  shareOf sv limit stripeIndex shareSize i = share.
Proof. unfold shareOf. by intros ->. Qed.

(** The failed nodes of an audit that came to its end: the nodes whose
    share the correction altered. *)
Lemma Verify_fails stripe skip limits report :
  CorrectKeepsNumbers sv →
  CreateAuditOrderLimits sv (createBucketID sv (SegmentPath stripe)) (Segment stripe) skip
    = Ok limits →
  Verify sv stripe skip = Returned (Some report) None →
  let redundancy := GetRedundancy (GetRemote (Segment stripe)) in
  let shareSize := GetErasureShareSize redundancy in
  let downloads := DownloadShares sv limits (Index stripe) shareSize in
  let sharesToAudit := (classifyShares downloads.1 downloads.2).2 in
  ∃ fec corrected,
    NewFEC sv (GetMinReq redundancy) (GetTotal redundancy) = Ok fec ∧
    Correct sv fec (makeCopies sharesToAudit) = Ok corrected ∧
    ∀ id, id ∈ Fails report ↔
      ∃ (i : nat) limit share copy,
        limits !! i = Some (Some limit) ∧
        GetShare sv limit (Index stripe) shareSize (Z.of_nat i) = inr share ∧
        copy ∈ corrected ∧ infectious.Number copy = Z.of_nat i ∧
        infectious.Data copy ≠ Data share ∧
        id = StorageNodeId (Limit limit).
Proof.
  intros Hkeeps Hlimits
    (limits' & remote & Hlimits' & Hremote & _ & Hrest)%Verify_returned.
  rewrite Hlimits in Hlimits'. injection Hlimits' as <-.
  destruct (Hrest eq_refl) as (pieceNums & corrected & Haudit & Hfails & _).
  intros redundancy shareSize downloads sharesToAudit.
  cbv zeta in Haudit, Hfails. fold redundancy shareSize in Haudit, Hfails.
  fold downloads in Haudit, Hfails. fold sharesToAudit in Haudit.
  assert (redundancy = Redundancy remote) as Hred.
  { unfold redundancy, GetRedundancy, GetRemote. by rewrite Hremote. }
  rewrite <- Hred in Haudit. unfold auditShares in Haudit.
  destruct (NewFEC sv _ _) as [fec| |]; [simpl in Haudit|done..].
  destruct (Correct sv fec (makeCopies sharesToAudit)) as [copies| |] eqn:Hcorrect;
    [simpl in Haudit|done..].
  injection Haudit as <- <-.
  exists fec, copies. split_and!; try done.
  assert (∀ k share, sharesToAudit !! k = Some share → PieceNum share = k) as Hkeys.
  { intros k share [Hshare _]%classifyShares_toAudit. by eapply downloads_key. }
  intros id. rewrite Hfails. split.
  - intros (k & -> & (copy & -> & [Hdiffers Hin]%list_elem_of_filter)%list_elem_of_fmap)
             %list_elem_of_fmap.
    pose proof (Hkeeps _ _ _ Hcorrect) as Hsub.
    assert (infectious.Number copy ∈ infectious.Number <$> makeCopies sharesToAudit)
      as (copy' & Hnumber & ([k original] & -> & Hk%elem_of_map_to_list)%list_elem_of_fmap)
           %list_elem_of_fmap.
    { apply Hsub, list_elem_of_fmap. by exists copy. }
    simpl in Hnumber. rewrite (Hkeys _ _ Hk) in Hnumber. subst k.
    unfold dataAt in Hdiffers. rewrite Hk in Hdiffers. simpl in Hdiffers.
    apply classifyShares_toAudit in Hk as [Hshare Herror].
    pose proof Hshare as (i & limit & Hi & Hlimit & Horiginal & _ & Hnode)%downloads_at.
    exists i, limit, original, copy. rewrite Hi in *. split_and!; try done.
    rewrite Horiginal in Herror |- *. by apply shareOf_ok.
  - intros (i & limit & share & copy & Hlimit & Hget & Hin & Hnumber & Hdiffers & ->).
    destruct (downloads_of sv limits (Index stripe) shareSize i limit Hlimit)
      as (Hshare & _ & Hnode).
    rewrite (shareOf_inr _ _ _ _ _ Hget) in Hshare.
    assert (sharesToAudit !! Z.of_nat i = Some share) as Hk.
    { apply classifyShares_toAudit. split; [done|]. by apply GetShare_ok in Hget as []. }
    apply list_elem_of_fmap. exists (Z.of_nat i). split; [done|].
    apply list_elem_of_fmap. exists copy. split; [done|].
    apply list_elem_of_filter. split; [|done].
    unfold dataAt. rewrite Hnumber, Hk. simpl. congruence.
Qed.


(** The nodes recorded by [DownloadShares] are the contacted ones. *)
Lemma downloads_nodes limits stripeIndex shareSize id :
  (∃ k, (DownloadShares sv limits stripeIndex shareSize).2 !! k = Some id) ↔
  id ∈ contacted limits.
Proof.
  split.
  - intros [k Hk]. by eapply downloads_node.
  - intros (i & limit & Hi & ->)%contacted_spec.
    exists (Z.of_nat i). by eapply downloads_of.
Qed.

(** With distinct nodes behind the limits, no node is recorded twice. *)
Lemma downloads_NoDup limits stripeIndex shareSize :
  NoDup (contacted limits) →
  NoDup (snd <$> map_to_list (DownloadShares sv limits stripeIndex shareSize).2).
Proof.
  intros Hnd. apply NoDup_fmap_2_strong; [|apply NoDup_map_to_list].
  intros [k id] [k' id'] Hk%elem_of_map_to_list Hk'%elem_of_map_to_list Heq.
  simpl in Heq. subst id'.
  pose proof Hk as [_ [share Hshare]]%downloads_node.
  pose proof Hk' as [_ [share' Hshare']]%downloads_node.
  destruct (downloads_inj sv limits stripeIndex shareSize k k' share share' Hnd
              Hshare Hshare') as [-> _]; [|done].
  unfold nodeAt. exact (f_equal (default 0%N) (eq_trans Hk (eq_sym Hk'))).
Qed.

(** X4. Verify fails the nodes whose share the erasure correction
    altered, and no other: in a report that came without error, a node is
    in Fails exactly when the share downloaded from it differs from the
    corrected share of the same number. *)
Theorem Verify_fails_altered (stripe : Stripe) (skip : gset storj.NodeID)
    (limits : list (option AddressedOrderLimit)) (report : Report) :
  CorrectKeepsNumbers sv →
  CreateAuditOrderLimits sv (createBucketID sv (SegmentPath stripe)) (Segment stripe) skip
    = Ok limits →
  Verify sv stripe skip = Returned (Some report) None →
  let redundancy := GetRedundancy (GetRemote (Segment stripe)) in
  let shareSize := GetErasureShareSize redundancy in
  let downloads := DownloadShares sv limits (Index stripe) shareSize in
  let sharesToAudit := (classifyShares downloads.1 downloads.2).2 in
  ∃ fec corrected,
    NewFEC sv (GetMinReq redundancy) (GetTotal redundancy) = Ok fec ∧
    Correct sv fec (makeCopies sharesToAudit) = Ok corrected ∧
    ∀ id, id ∈ Fails report ↔
      ∃ (i : nat) limit share copy,
        limits !! i = Some (Some limit) ∧
        GetShare sv limit (Index stripe) shareSize (Z.of_nat i) = inr share ∧
        copy ∈ corrected ∧ infectious.Number copy = Z.of_nat i ∧
        infectious.Data copy ≠ Data share ∧
        id = StorageNodeId (Limit limit).
Proof. apply Verify_fails. Qed.

(** X5. The audit of an intact segment: when every share is downloaded
    and the erasure correction hands the shares back as it was given them,
    a report that comes without error has every contacted node in
    Successes and nothing in Fails, Offlines and PendingAudits; with
    distinct nodes behind the order limits, Successes lists each contacted
    node once. *)
Theorem Verify_audit_success (stripe : Stripe) (skip : gset storj.NodeID)
    (limits : list (option AddressedOrderLimit)) (report : Report) :
  let shareSize := GetErasureShareSize (GetRedundancy (GetRemote (Segment stripe))) in
  CreateAuditOrderLimits sv (createBucketID sv (SegmentPath stripe)) (Segment stripe) skip
    = Ok limits →
  (∀ (i : nat) limit, limits !! i = Some (Some limit) →
     ∃ share, GetShare sv limit (Index stripe) shareSize (Z.of_nat i) = inr share) →
  (∀ fec shares corrected, Correct sv fec shares = Ok corrected → corrected = shares) →
  Verify sv stripe skip = Returned (Some report) None →
  (∀ id, id ∈ Successes report ↔ id ∈ contacted limits) ∧
  Fails report = [] ∧ Offlines report = [] ∧ PendingAudits report = [] ∧
  (NoDup (contacted limits) → Successes report ≡ₚ contacted limits).
Proof.
  intros shareSize Hlimits Hall Hintact Hverify.
  assert (CorrectKeepsNumbers sv) as Hkeeps.
  { intros fec shares corrected Hcorrect. by rewrite (Hintact _ _ _ Hcorrect). }
  destruct (Verify_fails stripe skip limits report Hkeeps Hlimits Hverify)
    as (fec & corrected & _ & Hcorrect & Hfails).
  cbv zeta in Hcorrect, Hfails. fold shareSize in Hcorrect, Hfails.
  apply Verify_returned in Hverify
    as (limits' & remote & Hlimits' & Hremote & Hoff & Hrest).
  rewrite Hlimits in Hlimits'. injection Hlimits' as <-.
  destruct (Hrest eq_refl) as (pieceNums & corrected' & _ & _ & Hsucc & Hpending).
  cbv zeta in Hoff, Hsucc, Hpending. fold shareSize in Hoff, Hsucc, Hpending.
  set (downloads := DownloadShares sv limits (Index stripe) shareSize) in *.
  assert (∀ k share, downloads.1 !! k = Some share → Error share = None) as Hok.
  { intros k share (i & limit & -> & Hi & -> & _)%downloads_at.
    destruct (Hall i limit Hi) as [share Hget].
    rewrite (shareOf_inr _ _ _ _ _ Hget). by apply GetShare_ok in Hget as []. }
  assert (Fails report = []) as HF.
  { apply elem_of_nil_inv. intros id Hid.
    apply Hfails in Hid
      as (i & limit & share & copy & Hi & Hget & Hin & Hnumber & Hdiffers & _).
    rewrite (Hintact _ _ _ Hcorrect) in Hin. unfold makeCopies in Hin.
    apply list_elem_of_fmap in Hin as ([k original] & -> & Hk%elem_of_map_to_list).
    simpl in Hnumber, Hdiffers.
    apply classifyShares_toAudit in Hk as [Hk _].
    pose proof (downloads_key sv limits (Index stripe) shareSize k original Hk) as Hkey.
    destruct (downloads_of sv limits (Index stripe) shareSize i limit Hi)
      as (Hshare & _).
    rewrite (shareOf_inr _ _ _ _ _ Hget) in Hshare.
    fold downloads in Hshare. rewrite Hkey in Hnumber. subst k. congruence. }
  assert (Offlines report = []) as HO.
  { apply elem_of_nil_inv. intros id Hid. rewrite Hoff in Hid.
    apply classifyShares_offline in Hid as (k & share & e & Hshare & Herr & _).
    apply Hok in Hshare. congruence. }
  assert (∀ k id, (classifyShares downloads.1 downloads.2).1.2 !! k = Some id → False)
    as Hnone.
  { intros k id (share & e & Hshare & Herr & _)%classifyShares_contained.
    apply Hok in Hshare. congruence. }
  assert (∀ id, id ∈ Successes report ↔ id ∈ contacted limits) as HS.
  { intros id. rewrite Hsucc, getSuccessNodes_spec, HF, <- Hoff, HO.
    rewrite <- (downloads_nodes limits (Index stripe) shareSize id).
    fold downloads. split; [by intros (? & _)|].
    intros Hin. split_and!; try done; try apply not_elem_of_nil.
    intros [k Hk]. by eapply Hnone. }
  split_and!; try done.
  - by apply createPendingAudits_nil in Hpending.
  - intros Hnd. apply NoDup_Permutation; [|done|done].
    rewrite Hsucc. apply NoDup_filter. by apply downloads_NoDup.
Qed.

(** *** The count of the shares *)

Lemma downloaded_spec limits stripeIndex shareSize : ∀ i k,
  k ∈ verifier.downloaded sv i limits stripeIndex shareSize ↔
  ∃ (j : nat) limit share,
    k = i + Z.of_nat j ∧ limits !! j = Some (Some limit) ∧
    GetShare sv limit stripeIndex shareSize k = inr share.
Proof.
  induction limits as [|[limit|] rest IH]; intros i k; simpl.
  - split; [by intros ?%elem_of_nil|]. by intros (j & ? & ? & _ & ? & _).
  - destruct (GetShare sv limit stripeIndex shareSize i) as [e|share] eqn:Hget.
    + rewrite IH. split.
      * intros (j & limit' & share' & -> & Hj & Hget').
        exists (S j), limit', share'. split_and!; [lia|done|done].
      * intros ([|j] & limit' & share' & -> & Hj & Hget').
        { simpl in Hj. injection Hj as <-. rewrite Z.add_0_r in Hget'. congruence. }
        exists j, limit', share'. split_and!; [lia|done|done].
    + rewrite elem_of_cons, IH. split.
      * intros [->|(j & limit' & share' & -> & Hj & Hget')].
        { exists 0%nat, limit, share. rewrite Z.add_0_r. by split_and!. }
        exists (S j), limit', share'. split_and!; [lia|done|done].
      * intros ([|j] & limit' & share' & -> & Hj & Hget').
        { left. simpl. lia. }
        right. exists j, limit', share'. split_and!; [lia|done|done].
  - rewrite IH. split.
    + intros (j & limit' & share' & -> & Hj & Hget').
      exists (S j), limit', share'. split_and!; [lia|done|done].
    + intros ([|j] & limit' & share' & -> & Hj & Hget'); [done|].
      exists j, limit', share'. split_and!; [lia|done|done].
Qed.

Lemma downloaded_NoDup limits stripeIndex shareSize : ∀ i,
  NoDup (verifier.downloaded sv i limits stripeIndex shareSize).
Proof.
  induction limits as [|[limit|] rest IH]; intros i; simpl; [constructor| |apply IH].
  destruct (GetShare sv limit stripeIndex shareSize i); [apply IH|].
  constructor; [|apply IH].
  intros (j & ? & ? & Hi & _)%downloaded_spec. lia.
Qed.

(** The candidates of the erasure correction are as many as the shares
    that were downloaded. *)
Lemma sharesToAudit_size limits stripeIndex shareSize :
  let downloads := DownloadShares sv limits stripeIndex shareSize in
  Z.of_nat (size (classifyShares downloads.1 downloads.2).2)
    = len (verifier.downloaded sv 0 limits stripeIndex shareSize).
Proof.
  intros downloads. unfold len. f_equal.
  rewrite <- size_dom, <- (size_list_to_set (C := gset Z))
    by apply downloaded_NoDup.
  f_equal. apply set_eq. intros k.
  rewrite elem_of_dom, elem_of_list_to_set, downloaded_spec. split.
  - intros [share [Hshare Herr]%classifyShares_toAudit].
    pose proof Hshare as (i & limit & -> & Hi & -> & _)%downloads_at.
    exists i, limit, (shareOf sv limit stripeIndex shareSize (Z.of_nat i)).
    split_and!; [lia|done|by apply shareOf_ok].
  - intros (j & limit & share & -> & Hj & Hget). exists share.
    apply classifyShares_toAudit. rewrite Z.add_0_l in *.
    destruct (downloads_of sv limits stripeIndex shareSize j limit Hj) as (Hshare & _).
    rewrite (shareOf_inr _ _ _ _ _ Hget) in Hshare.
    split; [done|]. by apply GetShare_ok in Hget as [].
Qed.

(** X6. An audit that downloads fewer shares than the scheme requires
    is given up: Verify returns the error of the class ErrNotEnoughShares
    that tells both numbers, with a report that lists the offline nodes
    and nothing else; the nodes whose download failed otherwise are then
    in no list of the report. *)
Theorem Verify_too_few_shares (stripe : Stripe) (skip : gset storj.NodeID)
    (limits : list (option AddressedOrderLimit)) (remote : RemoteSegment) :
  let shareSize := GetErasureShareSize (GetRedundancy (GetRemote (Segment stripe))) in
  let got := len (verifier.downloaded sv 0 limits (Index stripe) shareSize) in
  let required := GetMinReq (Redundancy remote) in
  CreateAuditOrderLimits sv (createBucketID sv (SegmentPath stripe)) (Segment stripe) skip
    = Ok limits →
  Remote (Segment stripe) = Some remote →
  got < required →
  ∃ offlines,
    Verify sv stripe skip
      = Returned
          (Some {| Successes := []; Fails := []; Offlines := offlines;
                   PendingAudits := [] |})
          (Some (notEnoughShares got required)) ∧
    ∀ id, id ∈ offlines ↔
      ∃ (i : nat) limit e,
        limits !! i = Some (Some limit) ∧
        GetShare sv limit (Index stripe) shareSize (Z.of_nat i) = inl e ∧
        containable e = false ∧ id = StorageNodeId (Limit limit).
Proof.
  intros shareSize got required Hlimits Hremote Hfew.
  pose proof (sharesToAudit_size limits (Index stripe) shareSize) as Hsize.
  cbv zeta in Hsize. fold got in Hsize.
  unfold Verify. rewrite Hlimits. fold shareSize.
  destruct (DownloadShares sv limits (Index stripe) shareSize) as [shares nodes] eqn:Hdl.
  simpl in Hsize.
  destruct (classifyShares shares nodes) as [[offlineNodes containedNodes] sharesToAudit]
    eqn:Hclasses.
  rewrite Hremote. fold required. simpl in Hsize. rewrite Hsize.
  destruct (Z.ltb_spec got required); [|lia].
  exists offlineNodes. split; [done|].
  intros id.
  pose proof (classifyShares_offline shares nodes id) as Hoff.
  rewrite Hclasses in Hoff. simpl in Hoff. rewrite Hoff.
  assert (shares = (DownloadShares sv limits (Index stripe) shareSize).1) as Hshares
    by (by rewrite Hdl).
  assert (nodes = (DownloadShares sv limits (Index stripe) shareSize).2) as Hnodes
    by (by rewrite Hdl).
  split.
  - intros (k & share & e & Hshare & Herr & Hcontain & ->).
    rewrite Hshares in Hshare. rewrite Hnodes.
    apply downloads_at in Hshare as (i & limit & -> & Hi & -> & _ & ->).
    exists i, limit, e. split_and!; try done.
    unfold shareOf in Herr.
    destruct (GetShare sv limit (Index stripe) shareSize (Z.of_nat i)) as [e'|share] eqn:Hget.
    + simpl in Herr. congruence.
    + apply GetShare_ok in Hget as [Hnone _]. congruence.
  - intros (i & limit & e & Hi & Hget & Hcontain & ->).
    destruct (downloads_of sv limits (Index stripe) shareSize i limit Hi)
      as (Hshare & _ & Hnode).
    rewrite <- Hshares in Hshare. rewrite <- Hnodes in Hnode.
    eexists (Z.of_nat i), _, e. split_and!; [exact Hshare| |done|done].
    unfold shareOf. by rewrite Hget.
Qed.


(** *** The error and the count of [Reverify] *)

Lemma collect_err received :
  (collect received).2 = None ↔
  ∀ r, r ∈ received → status_ r = erred → err r = None.
Proof.
  induction received as [|r received IH] using rev_ind.
  { split; [|done]. by intros _ r ?%elem_of_nil. }
  rewrite collect_snoc. destruct (collect received) as [report e]. simpl in IH.
  unfold collectResult. split.
  - intros Hnone r' [Hin|Heq%list_elem_of_singleton]%elem_of_app Herred;
      [|subst r'].
    + apply IH; [|done..]. destruct (status_ r); try done.
      simpl in Hnone. by destruct e, (err r).
    + rewrite Herred in Hnone. simpl in Hnone. by destruct e, (err r).
  - intros Hall.
    assert (e = None) as ->.
    { apply IH. intros r' Hin. apply Hall, elem_of_app. by left. }
    destruct (status_ r) eqn:Hstatus; try done. simpl.
    apply Hall; [|done]. apply elem_of_app. right. by apply list_elem_of_singleton.
Qed.

Lemma collect_count received :
  let report := (collect received).1 in
  (length (Successes report) + length (Fails report) + length (Offlines report)
   + length (PendingAudits report)
   + length (filter (λ r, status_ r = skipped ∨ status_ r = erred) received))%nat
  = length received.
Proof.
  induction received as [|r received IH] using rev_ind; [done|].
  rewrite collect_snoc, filter_app, !length_app, filter_cons, filter_nil.
  destruct (collect received) as [report e]. simpl in *.
  unfold collectResult.
  destruct (status_ r) eqn:Hstatus; simpl; rewrite ?length_app; simpl; lia.
Qed.

Lemma reverifyPiece_erred stripe piece :
  status_ (reverifyPiece sv stripe piece) = erred →
  is_Some (err (reverifyPiece sv stripe piece)).
Proof.
  unfold reverifyPiece, resultOf.
  repeat case_match; simpl; try done; by eexists.
Qed.

(** X7. Reverify returns an error exactly when the lookup of a pending
    audit or the making of an order limit failed for some piece (for a
    reason other than no pending audit, or an offline node); the report is
    returned all the same, and every piece is accounted for once: it is
    in Successes, Fails or Offlines, or left one entry in PendingAudits, or
    was skipped, or erred. *)
Theorem Reverify_error (stripe : Stripe) (report : Report) (e : option goerror) :
  ReverifyReturns sv stripe report e →
  let pieces := GetRemotePieces (GetRemote (Segment stripe)) in
  let statusOf piece := status_ (reverifyPiece sv stripe piece) in
  (e = None ↔ ∀ piece, piece ∈ pieces → statusOf piece ≠ erred) ∧
  (length (Successes report) + length (Fails report) + length (Offlines report)
   + length (PendingAudits report)
   + length (filter (λ piece, statusOf piece = skipped ∨ statusOf piece = erred) pieces))%nat
  = length pieces.
Proof.
  intros (received & Hperm & Hcollect) pieces statusOf. unfold Reverify in Hcollect.
  split.
  - pose proof (collect_err received) as Herr. rewrite Hcollect in Herr. simpl in Herr.
    rewrite Herr. split.
    + intros Hall piece Hin Herred.
      destruct (reverifyPiece_erred stripe piece Herred) as [e' He'].
      rewrite Hall in He'; [done| |done].
      rewrite Hperm. unfold sent. apply list_elem_of_fmap. by exists piece.
    + intros Hall r Hin Herred. rewrite Hperm in Hin. unfold sent in Hin.
      apply list_elem_of_fmap in Hin as (piece & -> & Hin).
      by destruct (Hall piece Hin).
  - pose proof (collect_count received) as Hcount. cbv zeta in Hcount.
    rewrite Hcollect in Hcount. simpl in Hcount.
    assert (filter (λ r, status_ r = skipped ∨ status_ r = erred) received
            ≡ₚ filter (λ r, status_ r = skipped ∨ status_ r = erred) (sent sv stripe))
      as Hfilter by (by rewrite Hperm).
    rewrite Hfilter, Hperm in Hcount. unfold sent in Hcount. fold pieces in Hcount.
    rewrite length_fmap in Hcount. rewrite <- Hcount. f_equal.
    unfold statusOf. generalize pieces. clear. intros l.
    induction l as [|piece rest IH]; [done|].
    rewrite fmap_cons, !filter_cons. simpl.
    destruct (decide (status_ (reverifyPiece sv stripe piece) = skipped
                      ∨ status_ (reverifyPiece sv stripe piece) = erred));
      simpl; by rewrite IH.
Qed.

(** *** The stripe that is rebuilt *)

Lemma copyAt_length stripe off data stripe' :
  copyAt stripe off data = Some stripe' → length stripe' = length stripe.
Proof.
  unfold copyAt. destruct (_ || _) eqn:Hbounds; [done|]. intros [= <-].
  apply orb_false_iff in Hbounds as [Hneg%Z.ltb_ge Hlen%Z.ltb_ge]. unfold len in Hlen.
  rewrite !length_app, !length_take, length_drop. lia.
Qed.

(** X8. The stripe rebuildStripe returns has the size of the buffer it
    allocates, the required count of the code times the share size, however
    many shares the decoding hands back and wherever they are copied; a
    share that starts beyond the buffer makes it panic instead. *)
Theorem rebuildStripe_length (fec : FEC sv) (corrected : list infectious.Share)
    (shareSize : Z) (stripe : bytes) :
  rebuildStripe sv fec corrected shareSize = Ok stripe →
  len stripe = Required sv fec * shareSize ∧
  ∃ outputs, Rebuild sv fec corrected = Ok outputs ∧
    ∀ share, share ∈ outputs →
      0 <= infectious.Number share * shareSize <= Required sv fec * shareSize.
Proof.
  unfold rebuildStripe.
  destruct (Z.ltb_spec (Required sv fec * shareSize) 0) as [|Hsize]; [done|].
  destruct (Rebuild sv fec corrected) as [outputs| |]; [simpl|done..].
  intros Hfold.
  cut (len stripe = Required sv fec * shareSize ∧
       ∀ share, share ∈ outputs →
         0 <= infectious.Number share * shareSize <= Required sv fec * shareSize).
  { intros [? ?]. split; [done|]. by exists outputs. }
  assert (len (replicate (Z.to_nat (Required sv fec * shareSize)) x00)
          = Required sv fec * shareSize) as Hinit.
  { unfold len. rewrite length_replicate. lia. }
  revert Hfold Hinit.
  generalize (replicate (Z.to_nat (Required sv fec * shareSize)) x00).
  generalize (Required sv fec * shareSize). clear Hsize.
  intros size buffer. revert stripe buffer.
  induction outputs as [|share outputs IH] using rev_ind; intros stripe buffer.
  { simpl. intros [= <-] Hlen. split; [done|]. by intros share ?%elem_of_nil. }
  rewrite foldl_app. simpl.
  match goal with
  | |- context [foldl ?f (Ok buffer) outputs] =>
      destruct (foldl f (Ok buffer) outputs) as [stripe0| |] eqn:Hfold; [simpl|done..]
  end.
  destruct (copyAt stripe0 _ _) as [stripe'|] eqn:Hcopy; [|done].
  intros [= <-] Hlen.
  destruct (IH stripe0 buffer Hfold Hlen) as [Hlen0 Hshares].
  split.
  - unfold len in *. by rewrite (copyAt_length _ _ _ _ Hcopy).
  - intros share' [Hin|Heq%list_elem_of_singleton]%elem_of_app; [by apply Hshares|].
    subst share'.
    unfold copyAt in Hcopy. destruct (_ || _) eqn:Hbounds; [done|].
    apply orb_false_iff in Hbounds as [Hneg%Z.ltb_ge Hle%Z.ltb_ge]. lia.
Qed.

End More.

(** *** Runs of the verifier *)

Import Examples.

(** X4 at work: node 101 answers other bytes than the code restores. *)
Lemma Verify_fails_altered_witness :
  ∃ fec corrected,
    NewFEC corruptServices 1 2 = Ok fec ∧
    Correct corruptServices fec
      (makeCopies
         (classifyShares (DownloadShares corruptServices (auditLimits 2) 0 2).1
            (DownloadShares corruptServices (auditLimits 2) 0 2).2).2) = Ok corrected ∧
    ∀ id, id ∈ [101%N] ↔
      ∃ (i : nat) limit share copy,
        auditLimits 2 !! i = Some (Some limit) ∧
        GetShare corruptServices limit 0 2 (Z.of_nat i) = inr share ∧
        copy ∈ corrected ∧ infectious.Number copy = Z.of_nat i ∧
        infectious.Data copy ≠ Data share ∧
        id = StorageNodeId (Limit limit).
Proof.
  exact (Verify_fails_altered corruptServices (auditStripe 2) ∅ (auditLimits 2)
           corruptReport (correcting_keeps _) eq_refl ltac:(by vm_compute)).
Defined.

(** X5 at work: both nodes answer their share and nothing is corrected. *)
Lemma Verify_audit_success_witness :
  (∀ id, id ∈ [101%N; 100%N] ↔ id ∈ contacted (auditLimits 2)) ∧
  Fails intactReport = [] ∧ Offlines intactReport = [] ∧
  PendingAudits intactReport = [] ∧
  (NoDup (contacted (auditLimits 2)) → [101%N; 100%N] ≡ₚ contacted (auditLimits 2)).
Proof.
  apply (Verify_audit_success (auditServices allAnswer noPending) (auditStripe 2) ∅
           (auditLimits 2) intactReport).
  - reflexivity.
  - intros i limit _. by eexists.
  - by intros fec shares corrected [= <-].
  - by vm_compute.
Defined.

(** X6 at work: no read succeeds, and one share is required. *)
Lemma Verify_too_few_shares_witness :
  ∃ offlines,
    Verify (auditServices readFails noPending) (auditStripe 2) ∅
      = Returned
          (Some {| Successes := []; Fails := []; Offlines := offlines;
                   PendingAudits := [] |})
          (Some (notEnoughShares 0 1)) ∧
    ∀ id, id ∈ offlines ↔
      ∃ (i : nat) limit e,
        auditLimits 2 !! i = Some (Some limit) ∧
        GetShare (auditServices readFails noPending) limit 0 2 (Z.of_nat i) = inl e ∧
        containable e = false ∧ id = StorageNodeId (Limit limit).
Proof.
  exact (Verify_too_few_shares (auditServices readFails noPending) (auditStripe 2) ∅
           (auditLimits 2) (auditRemote 2) eq_refl eq_refl ltac:(by vm_compute)).
Defined.

(** X7 at work: node 100 passes its pending audit, and the lookup for
    node 101 fails. *)
Lemma Reverify_error_witness :
  (Some (errorString "containment: database is down") = None ↔
   ∀ piece, piece ∈ pieceOn <$> seq 0 2 →
     status_ (reverifyPiece (auditServices allAnswer pendingOrDown) (auditStripe 2) piece)
       ≠ erred) ∧
  (length (Successes reverifiedReport) + length (Fails reverifiedReport)
   + length (Offlines reverifiedReport) + length (PendingAudits reverifiedReport)
   + length
       (filter
          (λ piece,
             status_ (reverifyPiece (auditServices allAnswer pendingOrDown)
                        (auditStripe 2) piece) = skipped
             ∨ status_ (reverifyPiece (auditServices allAnswer pendingOrDown)
                          (auditStripe 2) piece) = erred)
          (pieceOn <$> seq 0 2)))%nat
  = length (pieceOn <$> seq 0 2).
Proof.
  apply (Reverify_error (auditServices allAnswer pendingOrDown) (auditStripe 2)
           reverifiedReport (Some (errorString "containment: database is down"))).
  exists (sent (auditServices allAnswer pendingOrDown) (auditStripe 2)).
  split; [reflexivity|by vm_compute].
Defined.

(** X8 at work: one share of two bytes, copied to the start of a stripe
    of two bytes. *)
Lemma rebuildStripe_length_witness :
  len [x01; x02] = Required (auditServices allAnswer noPending) (1, 2) * 2 ∧
  ∃ outputs,
    Rebuild (auditServices allAnswer noPending) (1, 2)
      [{| infectious.Number := 0; infectious.Data := [x01; x02] |}] = Ok outputs ∧
    ∀ share, share ∈ outputs →
      0 <= infectious.Number share * 2
        <= Required (auditServices allAnswer noPending) (1, 2) * 2.
Proof.
  exact (rebuildStripe_length (auditServices allAnswer noPending) (1, 2)
           [{| infectious.Number := 0; infectious.Data := [x01; x02] |}] 2 [x01; x02]
           eq_refl).
Defined.

End AuditMore.

(** ** The transport client and the verifier on it *)

Module TransportSpec.
Import audit AuditSpec transport verifier.

(** X9. WithObservers changes who is told, not what happens: a dial on
    the transport with more observers returns what the dial on the
    transport itself returns; when that dial tells its observers (of the
    connection, or of the failure of the dial), the other tells the same
    to the old observers first and then to the new ones, each once, and
    when it tells nobody, neither does the other. *)
Theorem WithObservers_DialNode (t : Transport) (obs : list string) (node : Node) :
  let before := DialNode t node in
  let after := DialNode (WithObservers t obs) node in
  after.1 = before.1 ∧
  before.2 = take (length before.2) after.2 ∧
  (after.2 = [] ∧ before.2 = [] ∨
   observerOf <$> after.2 = observers t ++ obs ∧ observerOf <$> before.2 = observers t).
Proof.
  unfold DialNode, getIP, alertFail, alertSuccess. simpl.
  case_bool_decide; simpl; [by split_and!; [..|left]|].
  destruct (DialOption t (Id node)); simpl; [by split_and!; [..|left]|].
  assert (∀ (f : string → notice) l k, f <$> l = take (length (f <$> l)) (f <$> (l ++ k)))
    as Htake.
  { intros f l k. by rewrite fmap_app, length_fmap, <- (length_fmap f l), take_app_length. }
  destruct (DialContext t (Id node) (Address node)) as [err|]; simpl.
  { case_bool_decide; simpl; [by split_and!; [..|left]|].
    split_and!; [done|apply Htake|right].
    by rewrite <- !list_fmap_compose, !list_fmap_id. }
  destruct (SplitHostPort t (Address node)) as [|host]; simpl; [by split_and!; [..|left]|].
  destruct (ResolveIPAddr t host) as [|ipAddr]; simpl; [by split_and!; [..|left]|].
  split_and!; [done|apply Htake|right].
  by rewrite <- !list_fmap_compose, !list_fmap_id.
Qed.

(** X10. getNodeConnection returns one of its three errors, or the
    connection: a timeout when the plain dial ran into its deadline, and
    only then; offline when the plain dial failed otherwise with a text
    that tells of a refused connection; unexpected in every other case,
    which includes every failure of DialNode, a dial that ran into its
    deadline among them. None of the three is a transport error. *)
Theorem getNodeConnection_errors (className : errclass → string)
    (netDial : string → option goerror) (t : Transport) (id : storj.NodeID)
    (address : string) :
  match (getNodeConnection className netDial t id address).1 with
  | None =>
      netDial address = None ∧
      (DialNode t {| Id := id; Address := address |}).1 = None
  | Some e =>
      Has TransportError e = false ∧
      (e = errStorageNodeDialTimeout ∧ netDial address = Some DeadlineExceeded ∨
       e = errStorageNodeOffline ∧
         (∃ err, netDial address = Some err ∧ err ≠ DeadlineExceeded ∧
                 Contains (errorText className err) "connect: connection refused" = true) ∨
       e = errStorageNodeDialUnexpected ∧
         ((∃ err, netDial address = Some err ∧ err ≠ DeadlineExceeded ∧
                  Contains (errorText className err) "connect: connection refused" = false) ∨
          netDial address = None ∧
          is_Some (DialNode t {| Id := id; Address := address |}).1))
  end.
Proof.
  unfold getNodeConnection.
  destruct (netDial address) as [err|].
  - case_bool_decide as Hdeadline; simpl.
    { split; [done|]. left. by rewrite Hdeadline. }
    destruct (Contains _ _) eqn:Hrefused; simpl.
    + split; [done|]. right. left. split; [done|]. by exists err.
    + split; [done|]. right. right. split; [done|]. left. by exists err.
  - destruct (DialNode t _) as [[e|] notices]; simpl; [|done].
    split; [done|]. right. right. split; [done|]. right. split; [done|]. by eexists.
Qed.

Section Dial.
Context (t : Transport) (sv : Services).

Let sv' := onTransport t sv.

(** The node [GetShare] dials for a limit. *)
Let nodeOf (limit : AddressedOrderLimit) : Node :=
  {| Id := StorageNodeId (Limit limit); Address := StorageNodeAddress limit |}.

(** A node without address, or whose dial fails and was not cancelled,
    gives [GetShare] a transport error. *)
Lemma GetShare_undialled limit stripeIndex shareSize pieceNum :
  Address (nodeOf limit) = "" ∨
  (DialOption t (Id (nodeOf limit)) = None ∧
   ∃ cause, DialContext t (Id (nodeOf limit)) (Address (nodeOf limit)) = Some cause ∧
            cause ≠ Canceled ∧ Has ContainError cause = false) →
  ∃ cause,
    GetShare sv' limit stripeIndex shareSize pieceNum = inl (Wrap TransportError cause) ∧
    Has ContainError cause = false.
Proof.
  unfold GetShare, sv', onTransport, DialNode. simpl.
  intros [Hnone|(Hoption & cause & Hdial & Hcause & Hcontain)].
  - rewrite bool_decide_eq_true_2 by done. simpl. by exists (errorString "no address").
  - case_bool_decide as Haddress.
    { simpl. by exists (errorString "no address"). }
    rewrite Hoption, Hdial. rewrite bool_decide_eq_false_2 by done. simpl.
    by exists cause.
Qed.

(** X11. A storage node that cannot be dialled is offline for the audit,
    even when the dial ran into its deadline. When the order limit of a
    node has no address, or the dial of the node fails and was not
    cancelled, DialNode wraps the failure as a transport error; a report
    Verify returns then has the node in Offlines (unless the cause is
    itself a containment error), and Reverify gives a piece on that node
    the status offline. *)
Theorem undialled_node_offline (stripe : Stripe) (limit : AddressedOrderLimit) :
  Address (nodeOf limit) = "" ∨
  (DialOption t (Id (nodeOf limit)) = None ∧
   ∃ cause, DialContext t (Id (nodeOf limit)) (Address (nodeOf limit)) = Some cause ∧
            cause ≠ Canceled ∧ Has ContainError cause = false) →
  (∀ skip limits (i : nat) report e,
     CreateAuditOrderLimits sv' (createBucketID sv' (SegmentPath stripe)) (Segment stripe)
       skip = Ok limits →
     limits !! i = Some (Some limit) →
     Verify sv' stripe skip = Returned (Some report) e →
     StorageNodeId (Limit limit) ∈ Offlines report) ∧
  (∀ piece pending,
     containmentGet sv' (NodeId piece) = inr pending →
     CreateAuditOrderLimit sv' (createBucketID sv' (SegmentPath stripe))
       (NodeID pending) (PieceID pending) (ShareSize pending) = inr limit →
     status_ (reverifyPiece sv' stripe piece) = offline).
Proof.
  intros Hundialled.
  pose proof (λ stripeIndex shareSize pieceNum,
                GetShare_undialled limit stripeIndex shareSize pieceNum Hundialled)
    as Hget.
  split.
  - intros skip limits i report e Hlimits Hi
      (limits' & remote & Hlimits' & _ & Hoff & _)%Verify_returned.
    rewrite Hlimits in Hlimits'. injection Hlimits' as <-.
    cbv zeta in Hoff. rewrite Hoff.
    set (shareSize := GetErasureShareSize _).
    destruct (downloads_of sv' limits (Index stripe) shareSize i limit Hi)
      as (Hshare & _ & Hnode).
    destruct (Hget (Index stripe) shareSize (Z.of_nat i)) as (cause & Hfail & Hcontain).
    apply classifyShares_offline.
    eexists (Z.of_nat i), _, (Wrap TransportError cause).
    split_and!; [exact Hshare| | |by rewrite Hnode].
    + unfold shareOf. by rewrite Hfail.
    + unfold containable. by rewrite Wrap_not_deadline, Has_Wrap_same, Has_Wrap, Hcontain.
  - intros piece pending Hpending Hlimit. unfold reverifyPiece.
    rewrite Hpending, Hlimit.
    destruct (Hget (StripeIndex pending) (ShareSize pending) (pb.PieceNum piece))
      as (cause & -> & _).
    by rewrite Wrap_not_deadline, Has_Wrap_same.
Qed.

End Dial.

(** *** A run on a transport whose dials time out *)

Import Examples.

(** X11 at work: every node would answer its share, node 100 has a
    pending audit, the limits carry the addresses of the nodes, and every
    dial runs into its deadline. Verify returns the error of too few
    shares with a report that has node 100 in Offlines, and Reverify gives
    the piece on node 100 the status offline. *)
Lemma undialled_node_offline_witness :
  let sv' := onTransport deadTransport (addressedServices allAnswer pendingOn100) in
  Verify sv' (auditStripe 2) ∅
    = Returned
        (Some {| Successes := []; Fails := []; Offlines := [101%N; 100%N];
                 PendingAudits := [] |})
        (Some (notEnoughShares 0 1)) ∧
  100%N ∈ [101%N; 100%N] ∧
  status_ (reverifyPiece sv' (auditStripe 2) (pieceOn 0)) = offline.
Proof.
  pose proof (undialled_node_offline deadTransport (addressedServices allAnswer pendingOn100)
                (auditStripe 2) (addressedLimit (pieceOn 0))) as Hoffline.
  destruct Hoffline as [Hverify Hreverify].
  { right. split; [reflexivity|]. exists DeadlineExceeded. by split_and!. }
  split_and!.
  - by vm_compute.
  - refine (Hverify ∅ ((λ piece, Some (addressedLimit piece)) <$> (pieceOn <$> seq 0 2)) 0%nat
              {| Successes := []; Fails := []; Offlines := [101%N; 100%N];
                 PendingAudits := [] |}
              (Some (notEnoughShares 0 1)) _ _ _).
    + reflexivity.
    + reflexivity.
    + by vm_compute.
  - refine (Hreverify (pieceOn 0)
              {| NodeID := 100%N; PieceID := 7%N; StripeIndex := 0; ShareSize := 2;
                 ExpectedShareHash := [x01; x02] |} _ _).
    + reflexivity.
    + reflexivity.
Defined.

End TransportSpec.

(** ** More of CommitSegment *)

Module MetainfoMore.
Import metainfo MetainfoSpec.

Section Commit.
Context (sv : Services).

Lemma validatePiece_Ok limits root piece :
  validatePiece sv limits root piece = Ok () ↔
  ∃ limit,
    0 <= PieceNum piece ∧
    limits !! Z.to_nat (PieceNum piece) = Some (Some limit) ∧
    VerifyOrderLimitSignature sv (Some limit) = None ∧
    PieceId limit ≠ 0%N ∧
    PieceId limit = Derive sv root (NodeId piece) ∧
    StorageNodeId limit = NodeId piece.
Proof.
  unfold validatePiece, limitAt. split.
  - destruct (Z.ltb_spec (PieceNum piece) 0) as [|Hnum]; [done|].
    destruct (limits !! Z.to_nat (PieceNum piece)) as [limit|] eqn:Hlimit; [|done].
    destruct (VerifyOrderLimitSignature sv limit) eqn:Hsig; [done|].
    destruct limit as [limit|]; [|done].
    case_bool_decide as Hzero; [done|]. case_bool_decide as Hderived; [done|].
    case_bool_decide as Hnode; [done|]. intros _. exists limit.
    split_and!; try done.
  - intros (limit & Hnum & Hlimit & Hsig & Hzero & Hderived & Hnode).
    destruct (Z.ltb_spec (PieceNum piece) 0); [lia|].
    rewrite Hlimit, Hsig.
    rewrite (bool_decide_eq_false_2 _ Hzero).
    rewrite bool_decide_eq_false_2 by (by intros []).
    by rewrite bool_decide_eq_false_2 by (by intros []).
Qed.

Lemma validatePieces_Ok limits root pieces :
  validatePieces sv limits root pieces = Ok () ↔
  ∀ piece, piece ∈ pieces → validatePiece sv limits root piece = Ok ().
Proof.
  induction pieces as [|piece rest IH]; simpl.
  { split; [|done]. by intros _ piece ?%elem_of_nil. }
  split.
  - destruct (validatePiece sv limits root piece) as [[]| |] eqn:Hpiece; [simpl|done..].
    intros Hrest piece' [->|Hin]%elem_of_cons; [done|]. by apply (proj1 IH Hrest).
  - intros Hall. rewrite (Hall piece) by apply list_elem_of_here. simpl.
    apply IH. intros piece' Hin. by apply Hall, list_elem_of_further.
Qed.

(** X12. What validateCommit accepts, and nothing else: a pointer that is
    there and is either INLINE, or REMOTE with its remote part, pieces and
    redundancy scheme, with as many original order limits as the scheme
    has pieces in total (and at least one), such that every piece finds
    at the index of its number an order limit whose signature verifies,
    whose piece ID is not zero and is the one derived from the root piece
    ID for the node of the piece, and whose storage node is that node. *)
Theorem validateCommit_accepts (req : SegmentCommitRequest) :
  validateCommit sv req = Ok () ↔
  ∃ pointer,
    Pointer_ req = Some pointer ∧
    (Type_ pointer = INLINE ∨
     ∃ remote redundancy pieces,
       Type_ pointer = REMOTE ∧ Remote pointer = Some remote ∧
       Redundancy remote = Some redundancy ∧ RemotePieces remote = Some pieces ∧
       OriginalLimits req ≠ [] ∧
       int32 (len (OriginalLimits req)) = Total redundancy ∧
       ∀ piece, piece ∈ pieces →
         ∃ limit,
           0 <= PieceNum piece ∧
           OriginalLimits req !! Z.to_nat (PieceNum piece) = Some (Some limit) ∧
           VerifyOrderLimitSignature sv (Some limit) = None ∧
           PieceId limit ≠ 0%N ∧
           PieceId limit = Derive sv (RootPieceId remote) (NodeId piece) ∧
           StorageNodeId limit = NodeId piece).
Proof.
  unfold validateCommit, validatePointer. split.
  - destruct (Pointer_ req) as [pointer|]; [|done].
    case_bool_decide as Htype.
    2:{ intros _. exists pointer. split; [done|]. left.
        by destruct (Type_ pointer). }
    destruct (Remote pointer) as [remote|] eqn:Hremote; [|done].
    destruct (RemotePieces remote) as [pieces|] eqn:Hpieces; [|done].
    destruct (Redundancy remote) as [redundancy|] eqn:Hred; [|done].
    destruct (Z.eqb_spec (len (OriginalLimits req)) 0) as [|Hlen]; [done|].
    destruct (Z.eqb_spec (int32 (len (OriginalLimits req))) (Total redundancy))
      as [Htotal|]; [simpl|done].
    intros Hall. exists pointer. split; [done|]. right.
    exists remote, redundancy, pieces. split_and!; try done.
    { intros Hnil. rewrite Hnil in Hlen. by destruct Hlen. }
    intros piece Hin. apply validatePiece_Ok.
    by eapply validatePieces_Ok in Hall.
  - intros (pointer & -> & [Hinline|
      (remote & redundancy & pieces & Htype & -> & Hred & Hpieces & Hlimits & Htotal & Hall)]).
    { rewrite !bool_decide_eq_false_2; [done|by rewrite Hinline..]. }
    rewrite !(bool_decide_eq_true_2 _ Htype). rewrite Hpieces, Hred.
    destruct (Z.eqb_spec (len (OriginalLimits req)) 0) as [Hlen|].
    { destruct (OriginalLimits req); [done|]. unfold len in Hlen. simpl in Hlen. lia. }
    rewrite Htotal, Z.eqb_refl. simpl.
    apply validatePieces_Ok. intros piece Hin. apply validatePiece_Ok. by apply Hall.
Qed.

Lemma validatePieces_panics limits root valid bad rest :
  validatePieces sv limits root valid = Ok () →
  ¬ (0 <= PieceNum bad < len limits) →
  validatePieces sv limits root (valid ++ bad :: rest) = Panic.
Proof.
  intros Hvalid Hbad. induction valid as [|piece valid IH]; simpl.
  - unfold validatePiece, limitAt.
    destruct (Z.ltb_spec (PieceNum bad) 0); [done|].
    rewrite lookup_ge_None_2; [done|]. unfold len in Hbad. lia.
  - simpl in Hvalid.
    destruct (validatePiece sv limits root piece) as [[]| |]; [simpl in *|done..].
    by apply IH.
Qed.

(** X13. A piece number outside the original order limits makes the
    endpoint panic. For an authenticated commit of a REMOTE pointer that
    comes with as many order limits as its scheme has pieces in total, a
    piece whose number is negative or not below the count of the limits,
    coming after pieces that pass the checks, stops CommitSegment with a
    panic (an index out of range); nothing is stored. *)
Theorem CommitSegment_piece_number_out_of_range (req : SegmentCommitRequest) (st : State)
    (projectID : string) (pointer : Pointer) (remote : RemoteSegment)
    (redundancy : RedundancyScheme) (valid rest : list RemotePiece) (bad : RemotePiece) :
  validateAuth sv (Bucket req) (Path req) = inr projectID →
  validateBucket (Bucket req) = None →
  Pointer_ req = Some pointer →
  Type_ pointer = REMOTE →
  Remote pointer = Some remote →
  Redundancy remote = Some redundancy →
  RemotePieces remote = Some (valid ++ bad :: rest) →
  OriginalLimits req ≠ [] →
  int32 (len (OriginalLimits req)) = Total redundancy →
  validatePieces sv (OriginalLimits req) (RootPieceId remote) valid = Ok () →
  ¬ (0 <= PieceNum bad < len (OriginalLimits req)) →
  validateCommit sv req = Panic ∧ CommitSegment sv req st = (Panicked, st).
Proof.
  intros Hauth Hbucket Hpointer Htype Hremote Hred Hpieces Hlimits Htotal Hvalid Hbad.
  assert (validateCommit sv req = Panic) as Hpanic.
  { unfold validateCommit, validatePointer. rewrite Hpointer.
    rewrite !(bool_decide_eq_true_2 _ Htype). rewrite Hremote, Hpieces, Hred.
    destruct (Z.eqb_spec (len (OriginalLimits req)) 0) as [Hlen|].
    { destruct (OriginalLimits req); [done|]. unfold len in Hlen. simpl in Hlen. lia. }
    rewrite Htotal, Z.eqb_refl. simpl. by apply validatePieces_panics. }
  split; [done|]. unfold CommitSegment. by rewrite Hauth, Hbucket, Hpanic.
Qed.

(** What [filterValidPieces] hands on is the pointer it was given, but
    for a nil slice of pieces standing for an empty one. *)
Lemma filterValidPieces_same pointer pointer' :
  filterValidPieces pointer = Ok pointer' →
  Type_ pointer' = Type_ pointer ∧ InlineSegment pointer' = InlineSegment pointer ∧
  SegmentSize pointer' = SegmentSize pointer ∧
  ExpirationDate pointer' = ExpirationDate pointer ∧
  Metadata pointer' = Metadata pointer ∧
  GetRedundancy (Remote pointer') = GetRedundancy (Remote pointer) ∧
  RootPieceId <$> Remote pointer' = RootPieceId <$> Remote pointer ∧
  GetRemotePieces (Remote pointer') = GetRemotePieces (Remote pointer).
Proof.
  unfold filterValidPieces. case_bool_decide; [|by intros [= <-]].
  destruct (Remote pointer) as [remote|]; [|done].
  destruct (Redundancy remote) as [redundancy|] eqn:Hred; [|done].
  destruct (_ && _); [done|]. intros [= <-]. simpl.
  split_and!; try done. unfold GetRemotePieces. simpl. by rewrite default_appended.
Qed.

(** A commit that is answered by a pointer went through all the checks
    and put the pointer handed on by [filterValidPieces]. *)
Lemma CommitSegment_response req st st' stored :
  CommitSegment sv req st = (Response stored, st') →
  ∃ projectID submitted path inlineUsed remoteUsed,
    validateAuth sv (Bucket req) (Path req) = inr projectID ∧
    validateBucket (Bucket req) = None ∧
    validateCommit sv req = Ok () ∧
    Pointer_ req = Some submitted ∧
    filterValidPieces submitted = Ok stored ∧
    CreatePath sv projectID (Segment req) (Bucket req) (Path req) = inr path ∧
    pointers st' = <[path := stored]> (pointers st) ∧
    usage st' = usage st ++ [(projectID, inlineUsed, remoteUsed)].
Proof.
  unfold CommitSegment.
  destruct (validateAuth sv _ _) as [|projectID] eqn:Hauth; [done|].
  destruct (validateBucket _) eqn:Hbucket; [done|].
  destruct (validateCommit sv req) as [[]| |]; [|done..].
  destruct (Pointer_ req) as [submitted|] eqn:Hpointer; [|done].
  destruct (filterValidPieces submitted) as [pointer| |] eqn:Hfilter; [|done..].
  destruct (CreatePath sv _ _ _ _) as [|path] eqn:Hpath; [done|].
  destruct (calculateSpaceUsed pointer) as [[inlineUsed remoteUsed]|]; [|done].
  destruct (metainfoPutError sv path pointer); [done|].
  destruct (if bool_decide _ then _ else _); [done|].
  destruct (metainfoGetError sv path); [done|]. simpl.
  rewrite lookup_insert_eq. intros [= <- <-]. simpl.
  by exists projectID, submitted, path, inlineUsed, remoteUsed.
Qed.

(** X14. A commit that is answered by a pointer has stored that pointer
    at the path made of the project of the key, the segment index, the
    bucket and the path of the request, and nowhere else; the pointer is
    the submitted one in its type, inline data, size, expiration,
    metadata, redundancy scheme, root piece ID and pieces; and one entry
    for the project was added to the usage accounting. *)
Theorem CommitSegment_stores_submitted (req : SegmentCommitRequest) (st st' : State)
    (stored : Pointer) :
  CommitSegment sv req st = (Response stored, st') →
  ∃ projectID submitted path inlineUsed remoteUsed,
    validateAuth sv (Bucket req) (Path req) = inr projectID ∧
    Pointer_ req = Some submitted ∧
    CreatePath sv projectID (Segment req) (Bucket req) (Path req) = inr path ∧
    pointers st' = <[path := stored]> (pointers st) ∧
    usage st' = usage st ++ [(projectID, inlineUsed, remoteUsed)] ∧
    Type_ stored = Type_ submitted ∧ InlineSegment stored = InlineSegment submitted ∧
    SegmentSize stored = SegmentSize submitted ∧
    ExpirationDate stored = ExpirationDate submitted ∧
    Metadata stored = Metadata submitted ∧
    GetRedundancy (Remote stored) = GetRedundancy (Remote submitted) ∧
    RootPieceId <$> Remote stored = RootPieceId <$> Remote submitted ∧
    GetRemotePieces (Remote stored) = GetRemotePieces (Remote submitted).
Proof.
  intros (projectID & submitted & path & inlineUsed & remoteUsed & Hauth & _ & _
          & Hpointer & Hfilter & Hpath & Hstored & Husage)%CommitSegment_response.
  exists projectID, submitted, path, inlineUsed, remoteUsed.
  destruct (filterValidPieces_same _ _ Hfilter) as (? & ? & ? & ? & ? & ? & ? & ?).
  by split_and!.
Qed.

(** X15. A commit that is answered by an error has stored nothing, with
    two exceptions, both answered Internal with the pointer handed on by
    filterValidPieces already stored at the path of the request: the
    update of the inline order of an INLINE segment fails, or, for a
    pointer of either type, the Get that reads the pointer back after the
    Put fails. In particular an answer Unauthenticated or InvalidArgument
    leaves the pointers as they were. *)
Theorem CommitSegment_failure (req : SegmentCommitRequest) (st st' : State) (s : status) :
  CommitSegment sv req st = (Failed s, st') →
  pointers st' = pointers st ∨
  ∃ projectID submitted path pointer e,
    validateAuth sv (Bucket req) (Path req) = inr projectID ∧
    Pointer_ req = Some submitted ∧
    filterValidPieces submitted = Ok pointer ∧
    CreatePath sv projectID (Segment req) (Bucket req) (Path req) = inr path ∧
    metainfoPutError sv path pointer = None ∧
    (Type_ pointer = INLINE ∧
     UpdatePutInlineOrder sv (createBucketID sv projectID (Bucket req))
       (len (default [] (InlineSegment pointer))) = Some e
     ∨ metainfoGetError sv path = Some e) ∧
    s = Errorf sv Internal (text sv e) ∧
    Code s = Internal ∧
    pointers st' = <[path := pointer]> (pointers st).
Proof.
  unfold CommitSegment.
  destruct (validateAuth sv _ _) as [|projectID] eqn:Hauth; [by intros [= <- <-]; left|].
  destruct (validateBucket _) eqn:Hbucket; [by intros [= <- <-]; left|].
  destruct (validateCommit sv req) as [[]| |]; [|by intros [= <- <-]; left|done].
  destruct (Pointer_ req) as [submitted|] eqn:Hpointer; [|done].
  destruct (filterValidPieces submitted) as [pointer| |] eqn:Hfilter;
    [|by intros [= <- <-]; left|done].
  destruct (CreatePath sv _ _ _ _) as [|path] eqn:Hpath; [by intros [= <- <-]; left|].
  destruct (calculateSpaceUsed pointer) as [[inlineUsed remoteUsed]|]; [|done].
  destruct (metainfoPutError sv path pointer) eqn:Hput; [by intros [= <- <-]; left|].
  case_bool_decide as Htype.
  - destruct (UpdatePutInlineOrder sv _ _) as [e|] eqn:Hupdate.
    + intros [= <- <-]. right. exists projectID, submitted, path, pointer, e.
      split_and!; try done. by left.
    + destruct (metainfoGetError sv path) as [e|] eqn:Hget.
      * intros [= <- <-]. right. exists projectID, submitted, path, pointer, e.
        split_and!; try done. by right.
      * simpl. by rewrite lookup_insert_eq.
  - destruct (metainfoGetError sv path) as [e|] eqn:Hget.
    + intros [= <- <-]. right. exists projectID, submitted, path, pointer, e.
      split_and!; try done. by right.
    + simpl. by rewrite lookup_insert_eq.
Qed.

End Commit.

(** *** Runs of the commit *)

Import Examples.

(** X13 at work: six order limits, and a fourth piece with the number 6. *)
Lemma CommitSegment_piece_number_out_of_range_witness :
  validateCommit commitServices
    (commitPieces [pieceOn 0; pieceOn 1; pieceOn 2; strayPiece]) = Panic ∧
  CommitSegment commitServices
    (commitPieces [pieceOn 0; pieceOn 1; pieceOn 2; strayPiece]) emptyStore
    = (Panicked, emptyStore).
Proof.
  apply (CommitSegment_piece_number_out_of_range commitServices
           (commitPieces [pieceOn 0; pieceOn 1; pieceOn 2; strayPiece]) emptyStore
           "project"
           (remotePointer testScheme [pieceOn 0; pieceOn 1; pieceOn 2; strayPiece])
           {| Redundancy := Some testScheme; RootPieceId := 7%N;
              RemotePieces := Some [pieceOn 0; pieceOn 1; pieceOn 2; strayPiece] |}
           testScheme [pieceOn 0; pieceOn 1; pieceOn 2] [] strayPiece).
  - reflexivity.
  - reflexivity.
  - reflexivity.
  - reflexivity.
  - reflexivity.
  - reflexivity.
  - reflexivity.
  - by vm_compute.
  - by vm_compute.
  - by vm_compute.
  - unfold len. simpl. lia.
Defined.

(** X14 at work: the commit of three pieces under the scheme of the
    test, into an empty store. *)
Lemma CommitSegment_stores_submitted_witness :
  ∃ projectID submitted path inlineUsed remoteUsed,
    validateAuth commitServices "bucket" "path" = inr projectID ∧
    Pointer_ (commitRequest testScheme 3) = Some submitted ∧
    CreatePath commitServices projectID (-1) "bucket" "path" = inr path ∧
    pointers (CommitSegment commitServices (commitRequest testScheme 3) emptyStore).2
      = <[path := remotePointer testScheme (pieceOn <$> seq 0 3)]> (pointers emptyStore) ∧
    usage (CommitSegment commitServices (commitRequest testScheme 3) emptyStore).2
      = usage emptyStore ++ [(projectID, inlineUsed, remoteUsed)] ∧
    Type_ (remotePointer testScheme (pieceOn <$> seq 0 3)) = Type_ submitted ∧
    InlineSegment (remotePointer testScheme (pieceOn <$> seq 0 3))
      = InlineSegment submitted ∧
    SegmentSize (remotePointer testScheme (pieceOn <$> seq 0 3)) = SegmentSize submitted ∧
    ExpirationDate (remotePointer testScheme (pieceOn <$> seq 0 3))
      = ExpirationDate submitted ∧
    Metadata (remotePointer testScheme (pieceOn <$> seq 0 3)) = Metadata submitted ∧
    GetRedundancy (Remote (remotePointer testScheme (pieceOn <$> seq 0 3)))
      = GetRedundancy (Remote submitted) ∧
    RootPieceId <$> Remote (remotePointer testScheme (pieceOn <$> seq 0 3))
      = RootPieceId <$> Remote submitted ∧
    GetRemotePieces (Remote (remotePointer testScheme (pieceOn <$> seq 0 3)))
      = GetRemotePieces (Remote submitted).
Proof.
  refine (CommitSegment_stores_submitted commitServices (commitRequest testScheme 3)
           emptyStore
           (CommitSegment commitServices (commitRequest testScheme 3) emptyStore).2
           (remotePointer testScheme (pieceOn <$> seq 0 3)) _).
  by vm_compute.
Defined.

(** X15 at work: three pieces are committed under the scheme of the
    test, the pointer is put, then the store fails to read it back. *)
Lemma CommitSegment_failure_witness :
  pointers (CommitSegment readBackFails (commitRequest testScheme 3) emptyStore).2
    = pointers emptyStore ∨
  ∃ projectID submitted path pointer e,
    validateAuth readBackFails "bucket" "path" = inr projectID ∧
    Pointer_ (commitRequest testScheme 3) = Some submitted ∧
    filterValidPieces submitted = Ok pointer ∧
    CreatePath readBackFails projectID (-1) "bucket" "path" = inr path ∧
    metainfoPutError readBackFails path pointer = None ∧
    (Type_ pointer = INLINE ∧
     UpdatePutInlineOrder readBackFails (createBucketID readBackFails projectID "bucket")
       (len (default [] (InlineSegment pointer))) = Some e
     ∨ metainfoGetError readBackFails path = Some e) ∧
    {| Code := Internal; Message := "kv: database is down" |}
      = Errorf readBackFails Internal (text readBackFails e) ∧
    Code {| Code := Internal; Message := "kv: database is down" |} = Internal ∧
    pointers (CommitSegment readBackFails (commitRequest testScheme 3) emptyStore).2
      = <[path := pointer]> (pointers emptyStore).
Proof.
  refine (CommitSegment_failure readBackFails (commitRequest testScheme 3) emptyStore
           (CommitSegment readBackFails (commitRequest testScheme 3) emptyStore).2
           {| Code := Internal; Message := "kv: database is down" |}
           _).
  by vm_compute.
Defined.

End MetainfoMore.

(** ** The other calls of the metainfo endpoint *)

Module EndpointSpec.
Import endpoint.

Section Calls.
Context (c : Collaborators).

Lemma validateAuth_inr action keyInfo :
  validateAuth c action = inr keyInfo ↔ authorized c action keyInfo.
Proof.
  unfold validateAuth, authorized. split.
  - destruct (GetAPIKey c) as [keyData|]; [|done].
    destruct (ParseAPIKey c keyData) as [|key] eqn:Hparse; [done|].
    destruct (GetByHead c (Head c key)) as [|keyInfo'] eqn:Hhead; [done|].
    destruct (Check c key (Secret keyInfo') action) eqn:Hcheck; [done|].
    intros [= <-]. by exists keyData, key.
  - intros (keyData & key & -> & -> & -> & ->). done.
Qed.

Lemma validateAuth_inl action s :
  validateAuth c action = inl s →
  s = invalidCredential c ∧ ¬ ∃ keyInfo, authorized c action keyInfo.
Proof.
  intros Hfail. split.
  - unfold validateAuth in Hfail. repeat case_match; congruence.
  - intros [keyInfo Hok%validateAuth_inr]. congruence.
Qed.

(** X16. validateAuth lets a request through exactly when its API key is
    there, parses, is known to the key store by its head and passes the
    check of the action against the secret of the key; it then answers
    the key info of the store. Whichever of the four fails, the answer is
    the same status, Unauthenticated with the text Invalid API credential:
    the caller cannot tell a missing key from an unknown or a restricted
    one. *)
Theorem validateAuth_answers (action : macaroon.Action) :
  match validateAuth c action with
  | inr keyInfo => authorized c action keyInfo
  | inl s =>
      s = {| metainfo.Code := metainfo.Unauthenticated;
             metainfo.Message := Sprintf c "Invalid API credential" |} ∧
      ¬ ∃ keyInfo, authorized c action keyInfo
  end.
Proof.
  destruct (validateAuth c action) as [s|keyInfo] eqn:Hauth.
  - by apply validateAuth_inl.
  - by apply validateAuth_inr.
Qed.

Lemma unauthorized_inl action :
  (¬ ∃ keyInfo, authorized c action keyInfo) ↔ ∃ s, validateAuth c action = inl s.
Proof.
  destruct (validateAuth c action) as [s|keyInfo] eqn:Hauth.
  - apply validateAuth_inl in Hauth as [_ Hno]. split; [by exists s|done].
  - apply validateAuth_inr in Hauth. split.
    + intros []. by exists keyInfo.
    + by intros [s [=]].
Qed.

Lemma getFailed_code e :
  metainfo.Code (getFailed c e) ≠ metainfo.Unauthenticated.
Proof. unfold getFailed. by destruct (Has ErrKeyNotFound e). Qed.

Lemma CommitSegment_unauthenticated req st :
  codeOf (metainfo.CommitSegment (services c) req st).1 = Some metainfo.Unauthenticated ↔
  ∃ s, validateAuth c {| macaroon.Op := macaroon.ActionWrite;
                         macaroon.Bucket := metainfo.Bucket req;
                         macaroon.EncryptedPath := metainfo.Path req |} = inl s.
Proof.
  unfold metainfo.CommitSegment. simpl.
  destruct (validateAuth c _) as [s|keyInfo]; simpl.
  { split; [by exists s|done]. }
  split; [|by intros [s [=]]].
  repeat (case_match; simpl; try done).
Qed.

(** X17. Every call of the endpoint answers Unauthenticated exactly when
    the API key of the request may not do the action of the call on the
    bucket and path of the request: reading for SegmentInfo and
    DownloadSegment, writing for CreateSegment and CommitSegment, deleting
    for DeleteSegment, listing for ListSegments. No other failure is
    answered with that code, and a call that is refused so changes
    nothing. *)
Theorem Unauthenticated_iff_unauthorized (st : State) :
  let unauthorized op bucket path :=
    ¬ ∃ keyInfo,
        authorized c {| macaroon.Op := op; macaroon.Bucket := bucket;
                        macaroon.EncryptedPath := path |} keyInfo in
  (∀ req, codeOf (SegmentInfo c req st) = Some metainfo.Unauthenticated ↔
          unauthorized macaroon.ActionRead (Bucket req) (Path req)) ∧
  (∀ req, codeOf (DownloadSegment c req st) = Some metainfo.Unauthenticated ↔
          unauthorized macaroon.ActionRead (Bucket req) (Path req)) ∧
  (∀ req, (∃ s, CreateSegment c req = Refused s ∧ metainfo.Code s = metainfo.Unauthenticated) ↔
          unauthorized macaroon.ActionWrite (Write.Bucket req) (Write.Path req)) ∧
  (∀ req, codeOf (CommitSegment c req st).1 = Some metainfo.Unauthenticated ↔
          unauthorized macaroon.ActionWrite (metainfo.Bucket req) (metainfo.Path req)) ∧
  (∀ req, codeOf (DeleteSegment c req st).1 = Some metainfo.Unauthenticated ↔
          unauthorized macaroon.ActionDelete (Bucket req) (Path req)) ∧
  (∀ req, codeOf (ListSegments c req) = Some metainfo.Unauthenticated ↔
          unauthorized macaroon.ActionList (List.Bucket req) (List.Prefix req)) ∧
  (∀ req, unauthorized macaroon.ActionWrite (metainfo.Bucket req) (metainfo.Path req) →
          (CommitSegment c req st).2 = st) ∧
  (∀ req, unauthorized macaroon.ActionDelete (Bucket req) (Path req) →
          (DeleteSegment c req st).2 = st).
Proof.
  intros unauthorized. subst unauthorized. cbv beta.
  split_and!; intros req; rewrite unauthorized_inl.
  - unfold SegmentInfo.
    destruct (validateAuth c _) as [s|keyInfo]; simpl.
    { split; [by exists s|done]. }
    split; [|by intros [s [=]]].
    repeat (case_match; simpl; try done).
    intros [= Hcode]. by apply getFailed_code in Hcode.
  - unfold DownloadSegment.
    destruct (validateAuth c _) as [s|keyInfo]; simpl.
    { split; [by exists s|done]. }
    split; [|by intros [s [=]]].
    repeat (case_match; simpl; try done).
    intros [= Hcode]. by apply getFailed_code in Hcode.
  - unfold CreateSegment.
    destruct (validateAuth c _) as [s|keyInfo]; simpl.
    { split; [by exists s|]. intros _. by eexists. }
    split; [|by intros [s [=]]].
    repeat (case_match; simpl; try done);
      intros (s' & Heq & Hcode); try discriminate Heq; injection Heq as <-;
      by simpl in Hcode.
  - unfold CommitSegment.
    rewrite <- (CommitSegment_unauthenticated req (store st)).
    destruct (metainfo.CommitSegment (services c) req (store st)). reflexivity.
  - unfold DeleteSegment.
    destruct (validateAuth c _) as [s|keyInfo]; simpl.
    { split; [by exists s|done]. }
    split; [|by intros [s [=]]].
    repeat (case_match; simpl; try done).
    intros [= Hcode]. by apply getFailed_code in Hcode.
  - unfold ListSegments.
    destruct (validateAuth c _) as [s|keyInfo]; simpl.
    { split; [by exists s|done]. }
    split; [|by intros [s [=]]].
    repeat (case_match; simpl; try done).
  - intros [s Hauth]. unfold CommitSegment, metainfo.CommitSegment. simpl.
    rewrite Hauth. by destruct st.
  - intros [s Hauth]. unfold DeleteSegment. by rewrite Hauth.
Qed.


(** *** Commit, then read *)

Lemma services_validateAuth bucket path projectID :
  metainfo.validateAuth (services c) bucket path = inr projectID →
  ∃ keyInfo,
    authorized c {| macaroon.Op := macaroon.ActionWrite; macaroon.Bucket := bucket;
                    macaroon.EncryptedPath := path |} keyInfo ∧
    ProjectID keyInfo = projectID.
Proof.
  simpl. destruct (validateAuth c _) as [|keyInfo] eqn:Hauth; [done|].
  intros [= <-]. exists keyInfo. split; [|done]. by apply validateAuth_inr.
Qed.

(** The key info does not depend on the action. *)
Lemma authorized_keyInfo action action' keyInfo keyInfo' :
  authorized c action keyInfo → authorized c action' keyInfo' → keyInfo = keyInfo'.
Proof.
  intros (keyData & key & Hkey & Hparse & Hhead & _)
         (keyData' & key' & Hkey' & Hparse' & Hhead' & _).
  congruence.
Qed.

(** A pointer that went through [validateCommit] and [filterValidPieces]
    has its remote part when it is REMOTE. *)
Lemma filterValidPieces_remote pointer stored :
  metainfo.filterValidPieces pointer = Ok stored →
  Type_ stored = REMOTE → Remote stored ≠ None.
Proof.
  unfold metainfo.filterValidPieces. case_bool_decide as Htype.
  - destruct (Remote pointer) as [remote|]; [|done].
    destruct (Redundancy remote); [|done]. destruct (_ && _); [done|].
    by intros [= <-].
  - intros [= <-]. done.
Qed.

(** X18. What was committed is what is read. After a CommitSegment that
    is answered by a pointer, when the key may also read the path and the
    pointer store does not fail, SegmentInfo for the same bucket, path and
    segment index answers that pointer, and every response of
    DownloadSegment carries it. *)
Theorem CommitSegment_then_read (req : metainfo.SegmentCommitRequest) (st st' : State)
    (stored : Pointer) (keyInfo : APIKeyInfo) :
  let read := {| Bucket := metainfo.Bucket req; Path := metainfo.Path req;
                 Segment := metainfo.Segment req |} in
  CommitSegment c req st = (metainfo.Response stored, st') →
  authorized c {| macaroon.Op := macaroon.ActionRead;
                  macaroon.Bucket := metainfo.Bucket req;
                  macaroon.EncryptedPath := metainfo.Path req |} keyInfo →
  (∀ path, metainfoGetError c path = None) →
  SegmentInfo c read st' = metainfo.Response stored ∧
  (∀ resp, DownloadSegment c read st' = metainfo.Response resp →
           Download.Pointer_ resp = Some stored).
Proof.
  intros read Hcommit Hread Hget. unfold CommitSegment in Hcommit.
  destruct (metainfo.CommitSegment (services c) req (store st)) as [r s] eqn:Hcommit'.
  injection Hcommit as -> <-.
  apply MetainfoMore.CommitSegment_response in Hcommit'
    as (projectID & submitted & path & inlineUsed & remoteUsed & Hauth & Hbucket & _
        & _ & Hfilter & Hpath & Hstored & _).
  apply services_validateAuth in Hauth as (keyInfo' & Hwrite & <-).
  assert (keyInfo' = keyInfo) as -> by by eapply authorized_keyInfo.
  apply validateAuth_inr in Hread.
  assert (metainfoGet c s path = inr stored) as Hlookup.
  { unfold metainfoGet. by rewrite Hget, Hstored, lookup_insert_eq. }
  split.
  - unfold SegmentInfo, read. simpl. by rewrite Hread, Hbucket, Hpath, Hlookup.
  - intros resp. unfold DownloadSegment, read. simpl.
    rewrite Hread, Hbucket, Hpath, Hlookup.
    destruct (ExceedsBandwidthUsage c _ _); [done|].
    case_bool_decide as Hinline.
    { destruct (UpdateGetInlineOrder c _ _); [done|]. by intros [= <-]. }
    assert (Type_ stored = REMOTE) as Hremote by (by destruct (Type_ stored)).
    rewrite (bool_decide_eq_true_2 _ Hremote).
    rewrite (bool_decide_eq_true_2 _ (filterValidPieces_remote _ _ Hfilter Hremote)).
    simpl. destruct (PeerIdentityFromContext c); [done|].
    destruct (CreateGetOrderLimits c _ _ _); [done|]. by intros [= <-].
Qed.

(** *** Delete *)

Lemma containmentDelete_ok pieces : ∀ calls calls',
  containmentDelete c pieces calls = (None, calls') →
  calls' = calls ++ (NodeId <$> pieces).
Proof.
  induction pieces as [|piece rest IH]; intros calls calls'; simpl.
  - intros [= <-]. by rewrite app_nil_r.
  - destruct (containmentDeleteError c (NodeId piece)); [done|].
    intros ->%IH. by rewrite <- app_assoc.
Qed.

Lemma containmentDelete_calls pieces : ∀ calls,
  ∃ called, (containmentDelete c pieces calls).2 = calls ++ called ∧
            called `prefix_of` NodeId <$> pieces.
Proof.
  induction pieces as [|piece rest IH]; intros calls; simpl.
  { exists []. by rewrite app_nil_r. }
  destruct (containmentDeleteError c (NodeId piece)); simpl.
  { exists [NodeId piece]. split; [done|]. by exists (NodeId <$> rest). }
  destruct (IH (calls ++ [NodeId piece])) as (called & -> & Hprefix).
  exists (NodeId piece :: called). split; [by rewrite <- app_assoc|].
  by apply prefix_cons.
Qed.

(** X19. A DeleteSegment that is answered by order limits has removed the
    pointer at the path of the request, and only that one; for a REMOTE
    pointer it has also called containment.Delete once for the node of
    each piece, in the order of the pieces, and for no other node, and the
    limits are those made for deleting the pieces; for an INLINE pointer
    nothing else changes and no limit is answered. *)
Theorem DeleteSegment_response (req : SegmentRequest) (st st' : State)
    (limits : list (option AddressedOrderLimit)) :
  DeleteSegment c req st = (metainfo.Response limits, st') →
  ∃ keyInfo path pointer,
    authorized c {| macaroon.Op := macaroon.ActionDelete; macaroon.Bucket := Bucket req;
                    macaroon.EncryptedPath := Path req |} keyInfo ∧
    metainfo.CreatePath (services c) (ProjectID keyInfo) (Segment req) (Bucket req)
      (Path req) = inr path ∧
    metainfo.pointers (store st) !! path = Some pointer ∧
    metainfo.pointers (store st') = delete path (metainfo.pointers (store st)) ∧
    metainfo.usage (store st') = metainfo.usage (store st) ∧
    match Type_ pointer, Remote pointer with
    | REMOTE, Some remote =>
        containmentDeletes st'
          = containmentDeletes st ++ (NodeId <$> GetRemotePieces (Some remote)) ∧
        ∃ uplinkIdentity,
          PeerIdentityFromContext c = inr uplinkIdentity ∧
          CreateDeleteOrderLimits c uplinkIdentity
            (metainfo.createBucketID (services c) (ProjectID keyInfo) (Bucket req))
            pointer = inr limits
    | _, _ => containmentDeletes st' = containmentDeletes st ∧ limits = []
    end.
Proof.
  unfold DeleteSegment.
  destruct (validateAuth c _) as [|keyInfo] eqn:Hauth; [done|].
  destruct (metainfo.validateBucket _); [done|].
  destruct (metainfo.CreatePath _ _ _ _ _) as [|path] eqn:Hpath; [done|].
  unfold metainfoGet, metainfoDelete.
  destruct (metainfoGetError c path); [done|].
  destruct (metainfo.pointers (store st) !! path) as [pointer|] eqn:Hpointer; [|done].
  destruct (metainfoDeleteError c path); [done|].
  apply validateAuth_inr in Hauth.
  destruct (Type_ pointer) eqn:Htype; simpl.
  { intros [= <- <-]. by exists keyInfo, path, pointer; rewrite Htype. }
  destruct (Remote pointer) as [remote|] eqn:Hremote.
  2:{ rewrite bool_decide_eq_false_2 by (by intros []). simpl.
      intros [= <- <-]. exists keyInfo, path, pointer. by rewrite Htype, Hremote. }
  rewrite bool_decide_eq_true_2 by done. simpl.
  destruct (PeerIdentityFromContext c) as [|uplinkIdentity]; [done|].
  unfold GetRemote. rewrite Hremote.
  destruct (containmentDelete c _ _) as [[e|] pending] eqn:Hdelete; [done|].
  destruct (CreateDeleteOrderLimits c _ _ _) as [|limits'] eqn:Hlimits; [done|].
  intros [= <- <-]. simpl. exists keyInfo, path, pointer. rewrite Htype, Hremote.
  split_and!; try done.
  - by apply containmentDelete_ok.
  - by exists uplinkIdentity.
Qed.

(** X20. A DeleteSegment that is answered by an error has changed nothing,
    unless the error came after the pointer was deleted: for a REMOTE
    pointer, when the identity of the caller, a call of containment.Delete
    or the making of the order limits fails, the answer is Internal, the
    pointer is gone all the same, containment.Delete was called for the
    nodes of the first pieces only, and the order limits for deleting the
    pieces are not handed out. *)
Theorem DeleteSegment_failed (req : SegmentRequest) (st st' : State) (s : metainfo.status) :
  DeleteSegment c req st = (metainfo.Failed s, st') →
  st' = st ∨
  ∃ keyInfo path pointer,
    metainfo.Code s = metainfo.Internal ∧
    metainfo.CreatePath (services c) (ProjectID keyInfo) (Segment req) (Bucket req)
      (Path req) = inr path ∧
    metainfo.pointers (store st) !! path = Some pointer ∧
    Type_ pointer = REMOTE ∧
    metainfo.pointers (store st') = delete path (metainfo.pointers (store st)) ∧
    ∃ called,
      containmentDeletes st' = containmentDeletes st ++ called ∧
      called `prefix_of` NodeId <$> GetRemotePieces (Remote pointer).
Proof.
  unfold DeleteSegment.
  destruct (validateAuth c _) as [|keyInfo] eqn:Hauth; [by intros [= <- <-]; left|].
  destruct (metainfo.validateBucket _); [by intros [= <- <-]; left|].
  destruct (metainfo.CreatePath _ _ _ _ _) as [|path] eqn:Hpath;
    [by intros [= <- <-]; left|].
  unfold metainfoGet, metainfoDelete.
  destruct (metainfoGetError c path); [by intros [= <- <-]; left|].
  destruct (metainfo.pointers (store st) !! path) as [pointer|] eqn:Hpointer;
    [|by intros [= <- <-]; left].
  destruct (metainfoDeleteError c path); [by intros [= <- <-]; left|].
  case_bool_decide as Htype; simpl; [|done].
  case_bool_decide as Hremote; simpl; [|done].
  destruct (PeerIdentityFromContext c) as [|uplinkIdentity].
  { intros [= <- <-]. right. exists keyInfo, path, pointer. split_and!; try done.
    exists []. simpl. rewrite app_nil_r. split; [done|]. apply prefix_nil. }
  destruct (containmentDelete_calls (GetRemotePieces (GetRemote pointer))
              (containmentDeletes st)) as (called & Hcalls & Hprefix).
  destruct (containmentDelete c _ _) as [[e|] calls] eqn:Hdelete; simpl in Hcalls.
  { intros [= <- <-]. right. exists keyInfo, path, pointer. split_and!; try done.
    by exists called. }
  destruct (CreateDeleteOrderLimits c _ _ _) as [|limits'] eqn:Hlimits; [|done].
  intros [= <- <-]. right. exists keyInfo, path, pointer. split_and!; try done.
  by exists called.
Qed.

(** X21. What was deleted is not found. After a DeleteSegment that is
    answered by order limits, when the pointer store does not fail, a
    second DeleteSegment of the same segment is answered NotFound and
    changes nothing, and so is SegmentInfo when the key may read the
    path. *)
Theorem DeleteSegment_then_not_found (req : SegmentRequest) (st st' : State)
    (limits : list (option AddressedOrderLimit)) :
  DeleteSegment c req st = (metainfo.Response limits, st') →
  (∀ path, metainfoGetError c path = None) →
  (∃ s, DeleteSegment c req st' = (metainfo.Failed s, st') ∧
        metainfo.Code s = metainfo.NotFound) ∧
  (∀ keyInfo,
     authorized c {| macaroon.Op := macaroon.ActionRead; macaroon.Bucket := Bucket req;
                     macaroon.EncryptedPath := Path req |} keyInfo →
     ∃ s, SegmentInfo c req st' = metainfo.Failed s ∧
          metainfo.Code s = metainfo.NotFound).
Proof.
  intros Hdelete Hget.
  assert (∃ keyInfo path,
            validateAuth c {| macaroon.Op := macaroon.ActionDelete;
                              macaroon.Bucket := Bucket req;
                              macaroon.EncryptedPath := Path req |} = inr keyInfo ∧
            metainfo.validateBucket (Bucket req) = None ∧
            metainfo.CreatePath (services c) (ProjectID keyInfo) (Segment req)
              (Bucket req) (Path req) = inr path ∧
            metainfo.pointers (store st') !! path = None)
    as (keyInfo & path & Hauth & Hbucket & Hpath & Hgone).
  { revert Hdelete. unfold DeleteSegment.
    destruct (validateAuth c _) as [|keyInfo] eqn:Hauth; [done|].
    destruct (metainfo.validateBucket _) eqn:Hbucket; [done|].
    destruct (metainfo.CreatePath _ _ _ _ _) as [|path] eqn:Hpath; [done|].
    unfold metainfoGet, metainfoDelete.
    destruct (metainfoGetError c path); [done|].
    destruct (metainfo.pointers (store st) !! path) as [pointer|]; [|done].
    destruct (metainfoDeleteError c path); [done|].
    intros Hrest. exists keyInfo, path. split_and!; try done.
    revert Hrest. case_match.
    - destruct (PeerIdentityFromContext c); [done|].
      destruct (containmentDelete c _ _) as [[e|] pending]; [done|].
      destruct (CreateDeleteOrderLimits c _ _ _); [done|].
      intros [= <- <-]. simpl. apply lookup_delete_eq.
    - intros [= <- <-]. simpl. apply lookup_delete_eq. }
  assert (metainfoGet c (store st') path = inl (New ErrKeyNotFound path)) as Hmiss.
  { unfold metainfoGet. by rewrite Hget, Hgone. }
  assert (metainfo.Code (getFailed c (New ErrKeyNotFound path)) = metainfo.NotFound)
    as Hcode.
  { unfold getFailed, New. by simpl. }
  split.
  - unfold DeleteSegment. rewrite Hauth, Hbucket, Hpath, Hmiss. by eexists.
  - intros keyInfo' Hread.
    assert (keyInfo' = keyInfo) as ->.
    { eapply authorized_keyInfo; [done|]. by apply validateAuth_inr. }
    apply validateAuth_inr in Hread.
    unfold SegmentInfo. rewrite Hread, Hbucket, Hpath, Hmiss. by eexists.
Qed.


(** *** Usage limits *)

Lemma getFailed_not_exhausted e :
  metainfo.Code (getFailed c e) ≠ metainfo.ResourceExhausted.
Proof. unfold getFailed. by destruct (Has ErrKeyNotFound e). Qed.

(** X22. The usage limits of a project are enforced by two calls only.
    DownloadSegment answers ResourceExhausted exactly when the key may
    read, the bucket is valid and the project has exceeded its bandwidth
    limit, whether the segment exists or not; CreateSegment answers it
    exactly when the key may write, the bucket is valid, the share size of
    the scheme is positive and the project has exceeded its storage limit.
    SegmentInfo, CommitSegment, DeleteSegment and ListSegments never answer
    ResourceExhausted: a commit is not held against the storage limit. *)
Theorem ResourceExhausted_iff_exceeded (st : State) :
  (∀ req,
     codeOf (DownloadSegment c req st) = Some metainfo.ResourceExhausted ↔
     ∃ keyInfo,
       authorized c {| macaroon.Op := macaroon.ActionRead; macaroon.Bucket := Bucket req;
                       macaroon.EncryptedPath := Path req |} keyInfo ∧
       metainfo.validateBucket (Bucket req) = None ∧
       ExceedsBandwidthUsage c (ProjectID keyInfo)
         (metainfo.createBucketID (services c) (ProjectID keyInfo) (Bucket req)) = true) ∧
  (∀ req,
     (∃ s, CreateSegment c req = Refused s ∧
           metainfo.Code s = metainfo.ResourceExhausted) ↔
     ∃ keyInfo redundancy,
       authorized c {| macaroon.Op := macaroon.ActionWrite;
                       macaroon.Bucket := Write.Bucket req;
                       macaroon.EncryptedPath := Write.Path req |} keyInfo ∧
       metainfo.validateBucket (Write.Bucket req) = None ∧
       Write.Redundancy req = Some redundancy ∧ 0 < ErasureShareSize redundancy ∧
       ExceedsStorageUsage c (ProjectID keyInfo) = true) ∧
  (∀ req, codeOf (SegmentInfo c req st) ≠ Some metainfo.ResourceExhausted) ∧
  (∀ req, codeOf (CommitSegment c req st).1 ≠ Some metainfo.ResourceExhausted) ∧
  (∀ req, codeOf (DeleteSegment c req st).1 ≠ Some metainfo.ResourceExhausted) ∧
  (∀ req, codeOf (ListSegments c req) ≠ Some metainfo.ResourceExhausted).
Proof.
  split_and!; intros req.
  - unfold DownloadSegment.
    destruct (validateAuth c _) as [s|keyInfo] eqn:Hauth; simpl.
    { split; [done|]. intros (keyInfo & Hok%validateAuth_inr & _). congruence. }
    destruct (metainfo.validateBucket _) eqn:Hbucket; simpl.
    { split; [done|]. by intros (keyInfo' & _ & [=] & _). }
    destruct (ExceedsBandwidthUsage c _ _) eqn:Hexceeded; simpl.
    { split; [|done]. intros _. exists keyInfo. by rewrite <- validateAuth_inr. }
    split.
    + repeat (case_match; simpl; try done).
      intros [= Hcode]. by apply getFailed_not_exhausted in Hcode.
    + intros (keyInfo' & Hok%validateAuth_inr & _ & Hexceeded').
      assert (keyInfo' = keyInfo) as -> by congruence. congruence.
  - unfold CreateSegment, validateRedundancy.
    destruct (validateAuth c _) as [s|keyInfo] eqn:Hauth; simpl.
    { split.
      - by intros (s' & [= <-] & [=]).
      - intros (keyInfo & ? & Hok%validateAuth_inr & _). congruence. }
    destruct (metainfo.validateBucket _) eqn:Hbucket; simpl.
    { split.
      - by intros (s' & [= <-] & [=]).
      - by intros (keyInfo' & ? & _ & [=] & _). }
    destruct (Write.Redundancy req) as [redundancy|] eqn:Hredundancy.
    2:{ split; [by intros (s' & [=] & _)|]. by intros (? & ? & _ & _ & [=] & _). }
    destruct (Z.leb_spec (ErasureShareSize redundancy) 0) as [Hsize|Hsize].
    { split.
      - by intros (s' & [= <-] & [=]).
      - intros (? & redundancy' & _ & _ & [= <-] & ? & _). lia. }
    destruct (ExceedsStorageUsage c _) eqn:Hexceeded.
    { split; [|by eexists]. intros _. exists keyInfo, redundancy.
      by rewrite <- validateAuth_inr. }
    split.
    + repeat (case_match; simpl; try done);
        intros (s' & Heq & Hcode); try discriminate Heq; injection Heq as <-;
        by simpl in Hcode.
    + intros (keyInfo' & ? & Hok%validateAuth_inr & _ & _ & _ & Hexceeded').
      assert (keyInfo' = keyInfo) as -> by congruence. congruence.
  - unfold SegmentInfo. repeat (case_match; simpl; try done).
    intros [= Hcode]. by apply getFailed_not_exhausted in Hcode.
  - unfold CommitSegment, metainfo.CommitSegment.
    repeat (case_match; simpl in *; simplify_eq; try done).
  - unfold DeleteSegment. repeat (case_match; simpl; try done).
    intros [= Hcode]. by apply getFailed_not_exhausted in Hcode.
  - unfold ListSegments. repeat (case_match; simpl; try done).
Qed.

(** *** CreateSegment *)

(** X23. CreateSegment hands out order limits only through all of its
    checks: when it answers limits, the key may write, the bucket is
    valid, the scheme is there with a positive share size, the project is
    within its storage limit, the overlay was asked for as many nodes as
    the scheme has pieces in total, each with room for a piece of the
    greatest size, no node being excluded, and the limits and the root
    piece ID are those the orders service made for the nodes it got. A
    request without redundancy scheme is not refused: for a key that may
    write to a valid bucket it makes the call panic. *)
Theorem CreateSegment_answers (req : Write.Request) :
  (∀ resp, CreateSegment c req = Created resp →
     ∃ keyInfo scheme redundancy nodes uplinkIdentity,
       authorized c {| macaroon.Op := macaroon.ActionWrite;
                       macaroon.Bucket := Write.Bucket req;
                       macaroon.EncryptedPath := Write.Path req |} keyInfo ∧
       metainfo.validateBucket (Write.Bucket req) = None ∧
       Write.Redundancy req = Some scheme ∧ 0 < ErasureShareSize scheme ∧
       ExceedsStorageUsage c (ProjectID keyInfo) = false ∧
       NewRedundancyStrategyFromProto c (Some scheme) = inr redundancy ∧
       let maxPieceSize :=
         CalcPieceSize c (Write.MaxEncryptedSegmentSize req) redundancy in
       FindStorageNodes c
         {| Repairer.RequestedCount := Total scheme;
            Repairer.FreeBandwidth := maxPieceSize; Repairer.FreeDisk := maxPieceSize;
            Repairer.ExcludedNodes := [] |} = inr nodes ∧
       PeerIdentityFromContext c = inr uplinkIdentity ∧
       CreatePutOrderLimits c uplinkIdentity
         (metainfo.createBucketID (services c) (ProjectID keyInfo) (Write.Bucket req))
         nodes (Write.Expiration req) maxPieceSize
         = inr (Write.RootPieceId resp, Write.AddressedLimits resp)) ∧
  (CreateSegment c req = CreatePanicked ↔
   (∃ keyInfo,
      authorized c {| macaroon.Op := macaroon.ActionWrite;
                      macaroon.Bucket := Write.Bucket req;
                      macaroon.EncryptedPath := Write.Path req |} keyInfo) ∧
   metainfo.validateBucket (Write.Bucket req) = None ∧
   Write.Redundancy req = None).
Proof.
  unfold CreateSegment, validateRedundancy. split.
  - intros resp.
    destruct (validateAuth c _) as [s|keyInfo] eqn:Hauth; [done|].
    destruct (metainfo.validateBucket _) eqn:Hbucket; [done|].
    destruct (Write.Redundancy req) as [scheme|] eqn:Hscheme; [|done].
    destruct (Z.leb_spec (ErasureShareSize scheme) 0) as [|Hsize]; [done|].
    destruct (ExceedsStorageUsage c _) eqn:Hexceeded; [done|].
    destruct (NewRedundancyStrategyFromProto c _) as [|redundancy] eqn:Hstrategy; [done|].
    simpl.
    destruct (FindStorageNodes c _) as [|nodes] eqn:Hnodes; [done|].
    destruct (PeerIdentityFromContext c) as [|uplinkIdentity]; [done|].
    destruct (CreatePutOrderLimits c _ _ _ _ _) as [|[rootPieceID addressedLimits]]
      eqn:Hlimits; [done|].
    intros [= <-]. simpl.
    exists keyInfo, scheme, redundancy, nodes, uplinkIdentity.
    apply validateAuth_inr in Hauth. by split_and!.
  - destruct (validateAuth c _) as [s|keyInfo] eqn:Hauth.
    { split; [done|]. intros ([keyInfo Hok%validateAuth_inr] & _). congruence. }
    destruct (metainfo.validateBucket _) eqn:Hbucket.
    { split; [done|]. by intros (_ & [=] & _). }
    destruct (Write.Redundancy req) as [scheme|] eqn:Hscheme.
    2:{ split; [|done]. intros _. split_and!; try done.
        exists keyInfo. by apply validateAuth_inr. }
    split; [|by intros (_ & _ & [=])].
    repeat (case_match; simpl; try done).
Qed.

(** *** ListSegments *)

(** X24. ListSegments does not validate the bucket and always lists under
    a well-formed prefix: whatever the bucket and the prefix of the
    request, it answers Unauthenticated, or Internal with the text of the
    error of the pointer store after ListV2, or the items of the store for
    the path made of the project of the key, the letter l, and the bucket
    and the prefix when they are not empty, in their order and with the
    flag that tells of more. *)
Theorem ListSegments_answers (req : List.Request) :
  match ListSegments c req with
  | metainfo.Failed s =>
      metainfo.Code s = metainfo.Unauthenticated ∨
      ∃ e, s = {| metainfo.Code := metainfo.Internal;
                  metainfo.Message := "ListV2: " +:+ text c e |}
  | metainfo.Response resp =>
      ∃ keyInfo items,
        authorized c {| macaroon.Op := macaroon.ActionList;
                        macaroon.Bucket := List.Bucket req;
                        macaroon.EncryptedPath := List.Prefix req |} keyInfo ∧
        metainfoList c
          (JoinPaths c
             ([ProjectID keyInfo; "l"]
              ++ (if decide (List.Bucket req = "") then [] else [List.Bucket req])
              ++ (if decide (List.Prefix req = "") then [] else [List.Prefix req])))
          (List.StartAfter req) (List.EndBefore req) (List.Recursive req)
          (List.Limit req) (List.MetaFlags req) = inr (items, List.More resp) ∧
        List.Items resp = items
  | metainfo.Panicked => False
  end.
Proof.
  unfold ListSegments.
  destruct (validateAuth c _) as [s|keyInfo] eqn:Hauth; [by left|].
  unfold metainfo.CreatePath. simpl.
  assert (∀ s : string, negb (String.length s =? 0)%nat = bool_decide (s ≠ "")) as Hlen.
  { by intros [|a s]. }
  rewrite !Hlen.
  match goal with
  | |- context [metainfoList c ?p] =>
      destruct (metainfoList c p (List.StartAfter req) (List.EndBefore req)
                  (List.Recursive req) (List.Limit req) (List.MetaFlags req))
        as [e|[items more]] eqn:Hlist
  end.
  { right. by exists e. }
  exists keyInfo, items. apply validateAuth_inr in Hauth. split; [done|]. simpl.
  split.
  - rewrite <- Hlist. f_equal. f_equal.
    destruct (decide (List.Bucket req = "")) as [Hb|Hb],
             (decide (List.Prefix req = "")) as [Hp|Hp];
      rewrite ?(bool_decide_eq_true_2 _ Hb), ?(bool_decide_eq_true_2 _ Hp);
      rewrite ?bool_decide_eq_false_2 by (by intros []); done.
  - clear. induction items as [|[] items IH]; [done|]. simpl. by f_equal.
Qed.


(** *** Invalid arguments *)

Lemma containsSlash_contains (s : string) :
  metainfo.containsSlash s = true ↔ metainfo.contains "/" s.
Proof.
  unfold metainfo.contains. induction s as [|a s IH]; simpl.
  - split; [done|]. by intros ([|? ?] & after & [=]).
  - case_bool_decide as Hslash; simpl.
    + split; [|done]. intros _. exists "", s. by rewrite Hslash.
    + rewrite IH. split.
      * intros (before & after & ->). by exists (String a before), after.
      * intros ([|b before] & after & Heq); simpl in Heq.
        { injection Heq as -> _. by destruct Hslash. }
        injection Heq as _ ->. by exists before, after.
Qed.

Lemma validateBucket_None bucket :
  metainfo.validateBucket bucket = None ↔ bucket ≠ "" ∧ ¬ metainfo.contains "/" bucket.
Proof.
  unfold metainfo.validateBucket. rewrite <- containsSlash_contains.
  destruct bucket as [|a bucket].
  { simpl. split; [done|]. by intros [[] _]. }
  destruct (metainfo.containsSlash (String a bucket)); simpl.
  - split; [done|]. by intros [_ []].
  - split; [|done]. intros _. split; [done|]. by intros [=].
Qed.

Lemma validateBucket_Some bucket :
  is_Some (metainfo.validateBucket bucket) ↔ bucket = "" ∨ metainfo.contains "/" bucket.
Proof.
  pose proof (validateBucket_None bucket) as Hnone.
  destruct (metainfo.validateBucket bucket) as [e|].
  - split; [|by eexists]. intros _.
    destruct (decide (bucket = "")) as [|Hne]; [by left|]. right.
    apply containsSlash_contains.
    destruct (metainfo.containsSlash bucket) eqn:Hslash; [done|].
    assert (Some e = None) as [=]. apply Hnone. split; [done|].
    rewrite <- containsSlash_contains. by rewrite Hslash.
  - split; [by intros [? [=]]|]. intros Hbad.
    destruct (proj1 Hnone eq_refl) as [Hne Hslash]. by destruct Hbad.
Qed.

Lemma CreatePath_inl projectID segmentIndex bucket path :
  (∃ e, metainfo.CreatePath (services c) projectID segmentIndex bucket path = inl e) ↔
  segmentIndex < -1.
Proof.
  unfold metainfo.CreatePath. destruct (Z.ltb_spec segmentIndex (-1)).
  - split; [done|]. by eexists.
  - split; [by intros [e [=]]|lia].
Qed.

Lemma getFailed_not_invalid e :
  metainfo.Code (getFailed c e) ≠ metainfo.InvalidArgument.
Proof. unfold getFailed. by destruct (Has ErrKeyNotFound e). Qed.

(** X25. InvalidArgument is the answer to a bad bucket, segment index or
    share size, from a key that may do the call, and to nothing else. A
    bucket is bad when it is empty or has a slash in it, a segment index
    when it is below -1, a share size when it is not positive. SegmentInfo
    and DeleteSegment answer InvalidArgument exactly for a bad bucket or
    index; DownloadSegment too, the index being looked at only for a
    project within its bandwidth limit; CreateSegment exactly for a bad
    bucket or share size; ListSegments never; and CommitSegment answers it
    for every bad bucket, whatever the pointer, and then stores nothing. *)
Theorem InvalidArgument_iff_invalid (st : State) :
  let may op bucket path keyInfo :=
    authorized c {| macaroon.Op := op; macaroon.Bucket := bucket;
                    macaroon.EncryptedPath := path |} keyInfo in
  let bad bucket := bucket = "" ∨ metainfo.contains "/" bucket in
  (∀ req, codeOf (SegmentInfo c req st) = Some metainfo.InvalidArgument ↔
          (∃ keyInfo, may macaroon.ActionRead (Bucket req) (Path req) keyInfo) ∧
          (bad (Bucket req) ∨ Segment req < -1)) ∧
  (∀ req, codeOf (DeleteSegment c req st).1 = Some metainfo.InvalidArgument ↔
          (∃ keyInfo, may macaroon.ActionDelete (Bucket req) (Path req) keyInfo) ∧
          (bad (Bucket req) ∨ Segment req < -1)) ∧
  (∀ req, codeOf (DownloadSegment c req st) = Some metainfo.InvalidArgument ↔
          ∃ keyInfo,
            may macaroon.ActionRead (Bucket req) (Path req) keyInfo ∧
            (bad (Bucket req) ∨
             Segment req < -1 ∧
             ExceedsBandwidthUsage c (ProjectID keyInfo)
               (metainfo.createBucketID (services c) (ProjectID keyInfo) (Bucket req))
               = false)) ∧
  (∀ req, (∃ s, CreateSegment c req = Refused s ∧
                metainfo.Code s = metainfo.InvalidArgument) ↔
          (∃ keyInfo,
             may macaroon.ActionWrite (Write.Bucket req) (Write.Path req) keyInfo) ∧
          (bad (Write.Bucket req) ∨
           ∃ scheme, Write.Redundancy req = Some scheme ∧ ErasureShareSize scheme <= 0)) ∧
  (∀ req, codeOf (ListSegments c req) ≠ Some metainfo.InvalidArgument) ∧
  (∀ req keyInfo,
     may macaroon.ActionWrite (metainfo.Bucket req) (metainfo.Path req) keyInfo →
     bad (metainfo.Bucket req) →
     codeOf (CommitSegment c req st).1 = Some metainfo.InvalidArgument ∧
     (CommitSegment c req st).2 = st).
Proof.
  intros may bad. subst may bad. cbv beta.
  split_and!; intros req.
  - unfold SegmentInfo.
    destruct (validateAuth c _) as [s|keyInfo] eqn:Hauth; simpl.
    { split; [done|]. intros ([keyInfo Hok%validateAuth_inr] & _). congruence. }
    pose proof (validateBucket_Some (Bucket req)) as Hbucket.
    pose proof (CreatePath_inl (ProjectID keyInfo) (Segment req) (Bucket req) (Path req))
      as Hpath.
    apply validateAuth_inr in Hauth.
    destruct (metainfo.validateBucket _); simpl.
    { split; [|done]. intros _. split; [by exists keyInfo|]. left. by apply Hbucket. }
    destruct (metainfo.CreatePath _ _ _ _ _); simpl.
    { split; [|done]. intros _. split; [by exists keyInfo|]. right. apply Hpath.
      by eexists. }
    split.
    + destruct (metainfoGet c _ _); simpl; [|done].
      intros [= Hcode]. by apply getFailed_not_invalid in Hcode.
    + intros (_ & [Hbad|Hindex]).
      * by apply Hbucket in Hbad as [? [=]].
      * by apply Hpath in Hindex as [? [=]].
  - unfold DeleteSegment.
    destruct (validateAuth c _) as [s|keyInfo] eqn:Hauth; simpl.
    { split; [done|]. intros ([keyInfo Hok%validateAuth_inr] & _). congruence. }
    pose proof (validateBucket_Some (Bucket req)) as Hbucket.
    pose proof (CreatePath_inl (ProjectID keyInfo) (Segment req) (Bucket req) (Path req))
      as Hpath.
    apply validateAuth_inr in Hauth.
    destruct (metainfo.validateBucket _); simpl.
    { split; [|done]. intros _. split; [by exists keyInfo|]. left. by apply Hbucket. }
    destruct (metainfo.CreatePath _ _ _ _ _); simpl.
    { split; [|done]. intros _. split; [by exists keyInfo|]. right. apply Hpath.
      by eexists. }
    split.
    + repeat (case_match; simpl; try done).
      intros [= Hcode]. by apply getFailed_not_invalid in Hcode.
    + intros (_ & [Hbad|Hindex]).
      * by apply Hbucket in Hbad as [? [=]].
      * by apply Hpath in Hindex as [? [=]].
  - unfold DownloadSegment.
    destruct (validateAuth c _) as [s|keyInfo] eqn:Hauth; simpl.
    { split; [done|]. intros (keyInfo & Hok%validateAuth_inr & _). congruence. }
    pose proof (validateBucket_Some (Bucket req)) as Hbucket.
    pose proof (CreatePath_inl (ProjectID keyInfo) (Segment req) (Bucket req) (Path req))
      as Hpath.
    assert (∀ keyInfo',
              authorized c {| macaroon.Op := macaroon.ActionRead;
                              macaroon.Bucket := Bucket req;
                              macaroon.EncryptedPath := Path req |} keyInfo' →
              keyInfo' = keyInfo) as Hsame.
    { intros keyInfo' Hok%validateAuth_inr. congruence. }
    apply validateAuth_inr in Hauth.
    destruct (metainfo.validateBucket _); simpl.
    { split; [|done]. intros _. exists keyInfo. split; [done|]. left. by apply Hbucket. }
    destruct (ExceedsBandwidthUsage c _ _) eqn:Hexceeded; simpl.
    { split; [done|]. intros (keyInfo' & Hok & [Hbad|[_ Hwithin]]).
      - by apply Hbucket in Hbad as [? [=]].
      - rewrite (Hsame _ Hok) in Hwithin. congruence. }
    destruct (metainfo.CreatePath _ _ _ _ _); simpl.
    { split; [|done]. intros _. exists keyInfo. split; [done|]. right.
      split; [|done]. apply Hpath. by eexists. }
    split.
    + repeat (case_match; simpl; try done).
      intros [= Hcode]. by apply getFailed_not_invalid in Hcode.
    + intros (keyInfo' & _ & [Hbad|[Hindex _]]).
      * by apply Hbucket in Hbad as [? [=]].
      * by apply Hpath in Hindex as [? [=]].
  - unfold CreateSegment, validateRedundancy.
    destruct (validateAuth c _) as [s|keyInfo] eqn:Hauth; simpl.
    { split.
      - by intros (s' & [= <-] & [=]).
      - intros ([keyInfo Hok%validateAuth_inr] & _). congruence. }
    pose proof (validateBucket_Some (Write.Bucket req)) as Hbucket.
    apply validateAuth_inr in Hauth.
    destruct (metainfo.validateBucket _); simpl.
    { split; [|by eexists]. intros _. split; [by exists keyInfo|]. left. by apply Hbucket. }
    destruct (Write.Redundancy req) as [scheme|] eqn:Hscheme.
    2:{ split; [by intros (s' & [=] & _)|].
        intros (_ & [Hbad|(? & [=] & _)]). by apply Hbucket in Hbad as [? [=]]. }
    destruct (Z.leb_spec (ErasureShareSize scheme) 0) as [Hsize|Hsize].
    { split; [|by eexists]. intros _. split; [by exists keyInfo|]. right. by exists scheme. }
    split.
    + repeat (case_match; simpl; try done);
        intros (s' & Heq & Hcode); try discriminate Heq; injection Heq as <-;
        by simpl in Hcode.
    + intros (_ & [Hbad|(scheme' & [= <-] & ?)]); [|lia].
      by apply Hbucket in Hbad as [? [=]].
  - unfold ListSegments. repeat (case_match; simpl; try done).
  - intros keyInfo Hok%validateAuth_inr Hbad%validateBucket_Some.
    destruct Hbad as [e Hbad].
    unfold CommitSegment, metainfo.CommitSegment. simpl.
    rewrite Hok, Hbad. simpl. by destruct st.
Qed.

End Calls.

(** *** Runs of the endpoint *)

Import Examples.

Lemma projectKey_authorized op bucket path identity :
  authorized (collaborators identity)
    {| macaroon.Op := op; macaroon.Bucket := bucket; macaroon.EncryptedPath := path |}
    projectKey.
Proof. by exists "key", "key". Qed.

(** X18 at work: three pieces are committed, then read. *)
Lemma CommitSegment_then_read_witness :
  SegmentInfo (collaborators uplink) committedSegment
    (CommitSegment (collaborators uplink) (commitRequest testScheme 3) freshState).2
    = metainfo.Response (remotePointer testScheme (pieceOn <$> seq 0 3)) ∧
  (∀ resp,
     DownloadSegment (collaborators uplink) committedSegment
       (CommitSegment (collaborators uplink) (commitRequest testScheme 3) freshState).2
       = metainfo.Response resp →
     Download.Pointer_ resp = Some (remotePointer testScheme (pieceOn <$> seq 0 3))).
Proof.
  apply (CommitSegment_then_read (collaborators uplink) (commitRequest testScheme 3)
           freshState
           (CommitSegment (collaborators uplink) (commitRequest testScheme 3) freshState).2
           (remotePointer testScheme (pieceOn <$> seq 0 3)) projectKey).
  - by vm_compute.
  - apply projectKey_authorized.
  - reflexivity.
Defined.

(** X19 at work: the segment of three pieces is deleted. *)
Lemma DeleteSegment_response_witness :
  ∃ keyInfo path pointer,
    authorized (collaborators uplink)
      {| macaroon.Op := macaroon.ActionDelete; macaroon.Bucket := "bucket";
         macaroon.EncryptedPath := "path" |} keyInfo ∧
    metainfo.CreatePath (services (collaborators uplink)) (ProjectID keyInfo) (-1)
      "bucket" "path" = inr path ∧
    metainfo.pointers (store committed) !! path = Some pointer ∧
    metainfo.pointers
      (store (DeleteSegment (collaborators uplink) committedSegment committed).2)
      = delete path (metainfo.pointers (store committed)) ∧
    metainfo.usage
      (store (DeleteSegment (collaborators uplink) committedSegment committed).2)
      = metainfo.usage (store committed) ∧
    match Type_ pointer, Remote pointer with
    | REMOTE, Some remote =>
        containmentDeletes
          (DeleteSegment (collaborators uplink) committedSegment committed).2
          = containmentDeletes committed ++ (NodeId <$> GetRemotePieces (Some remote)) ∧
        ∃ uplinkIdentity,
          PeerIdentityFromContext (collaborators uplink) = inr uplinkIdentity ∧
          CreateDeleteOrderLimits (collaborators uplink) uplinkIdentity
            (metainfo.createBucketID (services (collaborators uplink))
               (ProjectID keyInfo) "bucket")
            pointer = inr (limitOf <$> (pieceOn <$> seq 0 3))
    | _, _ =>
        containmentDeletes
          (DeleteSegment (collaborators uplink) committedSegment committed).2
          = containmentDeletes committed ∧
        limitOf <$> (pieceOn <$> seq 0 3) = []
    end.
Proof.
  refine (DeleteSegment_response (collaborators uplink) committedSegment committed
           (DeleteSegment (collaborators uplink) committedSegment committed).2
           (limitOf <$> (pieceOn <$> seq 0 3)) _).
  by vm_compute.
Defined.

(** X20 at work: the pointer is deleted, then the identity of the caller
    is not to be had. *)
Lemma DeleteSegment_failed_witness :
  (DeleteSegment (collaborators noIdentity) committedSegment committed).2 = committed ∨
  ∃ keyInfo path pointer,
    metainfo.Code {| metainfo.Code := metainfo.Internal;
                     metainfo.Message := "no peer identity" |} = metainfo.Internal ∧
    metainfo.CreatePath (services (collaborators noIdentity)) (ProjectID keyInfo) (-1)
      "bucket" "path" = inr path ∧
    metainfo.pointers (store committed) !! path = Some pointer ∧
    Type_ pointer = REMOTE ∧
    metainfo.pointers
      (store (DeleteSegment (collaborators noIdentity) committedSegment committed).2)
      = delete path (metainfo.pointers (store committed)) ∧
    ∃ called,
      containmentDeletes
        (DeleteSegment (collaborators noIdentity) committedSegment committed).2
        = containmentDeletes committed ++ called ∧
      called `prefix_of` NodeId <$> GetRemotePieces (Remote pointer).
Proof.
  refine (DeleteSegment_failed (collaborators noIdentity) committedSegment committed
           (DeleteSegment (collaborators noIdentity) committedSegment committed).2
           {| metainfo.Code := metainfo.Internal; metainfo.Message := "no peer identity" |}
           _).
  by vm_compute.
Defined.

(** X21 at work: the segment that was deleted is deleted again, and
    looked up. *)
Lemma DeleteSegment_then_not_found_witness :
  (∃ s,
     DeleteSegment (collaborators uplink) committedSegment
       (DeleteSegment (collaborators uplink) committedSegment committed).2
       = (metainfo.Failed s,
          (DeleteSegment (collaborators uplink) committedSegment committed).2) ∧
     metainfo.Code s = metainfo.NotFound) ∧
  (∀ keyInfo,
     authorized (collaborators uplink)
       {| macaroon.Op := macaroon.ActionRead; macaroon.Bucket := "bucket";
          macaroon.EncryptedPath := "path" |} keyInfo →
     ∃ s,
       SegmentInfo (collaborators uplink) committedSegment
         (DeleteSegment (collaborators uplink) committedSegment committed).2
         = metainfo.Failed s ∧
       metainfo.Code s = metainfo.NotFound).
Proof.
  apply (DeleteSegment_then_not_found (collaborators uplink) committedSegment committed
           (DeleteSegment (collaborators uplink) committedSegment committed).2
           (limitOf <$> (pieceOn <$> seq 0 3))).
  - by vm_compute.
  - reflexivity.
Defined.

End EndpointSpec.
